(** * News_Feeder: the story correlation engine

    A shallow embedding of the correlation core of the repository
    ([src/processors/story_correlator.py], [src/processors/nlp_processor.py]
    and [src/correlators/story_correlator.py]) together with the properties
    its specification states about it.

    Conventions of the embedding:
    - Python [str] is [string]; texts are taken to be 7-bit ASCII, so that
      [\w], [\d], [\s], [\b], [str.lower] and [str.upper] have their ASCII
      meaning.
    - Python [float] scores are exact rationals ([Q]).
    - Python [set] is [gset]; a [dict] is a [gmap], or an association list
      in insertion order where the code iterates over it.
    - Python [int] is [Z]; lengths and indices are [nat].
    - A [datetime] is naive or aware; an exception is [None], so the
      [TypeError] of subtracting or comparing a naive and an aware datetime
      shows in the result of every function it can end. *)

From Stdlib Require Import QArith.
From Stdlib Require Import Lqa.
From Stdlib Require Import Ascii.
From Stdlib Require String.
From stdpp Require Import gmap strings list fin_maps sorting.

(** ** Characters and the fragment of [re] the program uses *)

Module Re.

Definition code (c : ascii) : N := N_of_ascii c.

Definition is_upper (c : ascii) : bool := (65 <=? code c)%N && (code c <=? 90)%N.
Definition is_lower (c : ascii) : bool := (97 <=? code c)%N && (code c <=? 122)%N.
Definition is_digit (c : ascii) : bool := (48 <=? code c)%N && (code c <=? 57)%N.

(** [\w] on ASCII text: letters, digits and the underscore. *)
Definition is_word (c : ascii) : bool :=
  is_upper c || is_lower c || is_digit c || (code c =? 95)%N.

(** [\s] (and [str.isspace]) on ASCII text: tab, LF, VT, FF, CR, the four
    separators 0x1c-0x1f and the space. *)
Definition is_space (c : ascii) : bool :=
  ((9 <=? code c)%N && (code c <=? 13)%N)
  || ((28 <=? code c)%N && (code c <=? 32)%N).

Definition to_lower (c : ascii) : ascii :=
  if is_upper c then ascii_of_N (code c + 32) else c.
Definition to_upper (c : ascii) : ascii :=
  if is_lower c then ascii_of_N (code c - 32) else c.

Definition chars (s : string) : list ascii := String.list_ascii_of_string s.
Definition text (l : list ascii) : string := String.string_of_list_ascii l.

(** [str.lower] and [str.upper]. *)
Definition lower (s : string) : string := text (to_lower <$> chars s).
Definition upper (s : string) : string := text (to_upper <$> chars s).

(** [str.strip()]: whitespace removed at both ends. *)
Fixpoint lstrip (l : list ascii) : list ascii :=
  match l with
  | c :: l' => if is_space c then lstrip l' else l
  | [] => []
  end.
Definition strip (s : string) : string :=
  text (reverse (lstrip (reverse (lstrip (chars s))))).

(** Regular expressions, restricted to the constructs that occur in the
    program's patterns. [Repeat r lo hi] is the greedy [r{lo,hi}];
    [hi = None] is an open upper bound. *)
Inductive regex : Type :=
| Lit (c : ascii)
| Class (p : ascii → bool)
| WordBoundary
| Empty
| Cat (r1 r2 : regex)
| Or (r1 r2 : regex)
| Repeat (r : regex) (lo : nat) (hi : option nat).

Definition star (r : regex) : regex := Repeat r 0 None.
Definition plus (r : regex) : regex := Repeat r 1 None.
Definition opt (r : regex) : regex := Repeat r 0 (Some 1).

(** A literal string: the concatenation of its characters. *)
Definition lit (s : string) : regex :=
  foldr (λ c r, Cat (Lit c) r) Empty (chars s).

(** [a|b|c]: alternatives are tried from left to right. *)
Fixpoint alts (rs : list regex) : regex :=
  match rs with
  | [] => Class (λ _, false)
  | [r] => r
  | r :: rs' => Or r (alts rs')
  end.

Definition hi_allows (hi : option nat) : bool :=
  match hi with Some 0 => false | _ => true end.
Definition hi_pred (hi : option nat) : option nat := pred <$> hi.

(** [\b]: exactly one of the two neighbouring positions holds a word
    character (the ends of the text count as non-word). *)
Definition at_boundary (prev : option ascii) (s : list ascii) : bool :=
  xorb (from_option is_word false prev) (from_option is_word false (head s)).

Section Matcher.
(** [re.IGNORECASE] *)
Variable ignorecase : bool.

Definition chr_eq (c a : ascii) : bool :=
  if ignorecase then bool_decide (to_lower c = to_lower a)
  else bool_decide (c = a).

(** Backtracking matcher in continuation-passing style, with the priorities
    of Python's [re]: the left alternative first, greedy repetition first.
    [prev] is the character before the current position, [s] the rest of
    the text; [k] receives the position reached and answers with the end
    of the whole match. An iteration of a repetition must consume at least
    one character (no repeated expression of the program matches the empty
    string), which bounds the number of iterations by the length of [s]. *)
Fixpoint rmatch (r : regex) (prev : option ascii) (s : list ascii)
    (k : option ascii → list ascii → option (list ascii)) {struct r}
    : option (list ascii) :=
  match r with
  | Lit c =>
      match s with
      | a :: s' => if chr_eq c a then k (Some a) s' else None
      | [] => None
      end
  | Class p =>
      match s with
      | a :: s' => if p a then k (Some a) s' else None
      | [] => None
      end
  | WordBoundary => if at_boundary prev s then k prev s else None
  | Empty => k prev s
  | Cat r1 r2 => rmatch r1 prev s (λ prev' s', rmatch r2 prev' s' k)
  | Or r1 r2 =>
      match rmatch r1 prev s k with
      | Some e => Some e
      | None => rmatch r2 prev s k
      end
  | Repeat r0 lo hi =>
      (fix iter (fuel lo : nat) (hi : option nat)
           (prev : option ascii) (s : list ascii) {struct fuel}
           : option (list ascii) :=
         let once :=
           match fuel with
           | 0 => None
           | S fuel' =>
               if hi_allows hi then
                 rmatch r0 prev s (λ prev' s',
                   if (length s' <? length s)%nat
                   then iter fuel' (pred lo) (hi_pred hi) prev' s'
                   else None)
               else None
           end in
         match once with
         | Some e => Some e
         | None => if (lo =? 0)%nat then k prev s else None
         end) (length s) lo hi prev s
  end.

(** The leftmost match starting exactly at the current position: the text
    that remains after it. *)
Definition match_here (r : regex) (prev : option ascii) (s : list ascii)
    : option (list ascii) :=
  rmatch r prev s (λ _ s', Some s').

(** [re.findall]: the non-overlapping matches, scanning from the left.
    (In every pattern of the program the only group spans the whole match,
    so the group's text is the match's text.) *)
Fixpoint findall_from (fuel : nat) (r : regex) (prev : option ascii)
    (s : list ascii) : list (list ascii) :=
  match fuel with
  | 0 => []
  | S fuel' =>
      match match_here r prev s with
      | Some s' =>
          let m := take (length s - length s') s in
          match m, s with
          | [], a :: s0 => m :: findall_from fuel' r (Some a) s0
          | [], [] => [m]
          | _, _ => m :: findall_from fuel' r (last m) s'
          end
      | None =>
          match s with
          | a :: s0 => findall_from fuel' r (Some a) s0
          | [] => []
          end
      end
  end.

Definition findall (r : regex) (s : string) : list string :=
  text <$> findall_from (S (String.length s)) r None (chars s).

(** [re.sub]: every non-overlapping match replaced by [repl]. *)
Fixpoint sub_from (fuel : nat) (r : regex) (repl : list ascii)
    (prev : option ascii) (s : list ascii) : list ascii :=
  match fuel with
  | 0 => s
  | S fuel' =>
      match match_here r prev s with
      | Some s' =>
          let m := take (length s - length s') s in
          match m, s with
          | [], a :: s0 => repl ++ a :: sub_from fuel' r repl (Some a) s0
          | [], [] => repl
          | _, _ => repl ++ sub_from fuel' r repl (last m) s'
          end
      | None =>
          match s with
          | a :: s0 => a :: sub_from fuel' r repl (Some a) s0
          | [] => []
          end
      end
  end.

Definition sub (r : regex) (repl s : string) : string :=
  text (sub_from (S (String.length s)) r (chars repl) None (chars s)).
End Matcher.

(** Character classes of the patterns. *)
Definition digit : regex := Class is_digit.
Definition space : regex := Class is_space.
Definition word_char : regex := Class is_word.
Definition space_or_hyphen : regex :=
  Class (λ c, is_space c || bool_decide (c = "-"%char)).

End Re.

(** ** Numbers: Python's float arithmetic on scores, read over [Q] *)

(** [a / b] for two lengths, [b] positive. *)
Definition ratio (a b : nat) : Q := Z.of_nat a # Pos.of_nat b.

(** [sum(xs)] *)
Definition Qsum (xs : list Q) : Q := foldl Qplus 0%Q xs.

(** [x < y] and [x >= y] as the tests the code branches on. *)
Definition Qltb (x y : Q) : bool := negb (Qle_bool y x).
Definition Qgeb (x y : Q) : bool := Qle_bool y x.

(** [xs.sort(key=key, reverse=True)]: Python's sort is stable, also when
    reversed, so an element stays in front of the later elements whose key
    is not larger. *)
Fixpoint insert_desc {A} (key : A → nat) (x : A) (l : list A) : list A :=
  match l with
  | [] => [x]
  | y :: l' =>
      if (key x <? key y)%nat then y :: insert_desc key x l'
      else x :: y :: l'
  end.
Definition sort_desc {A} (key : A → nat) (l : list A) : list A :=
  foldr (insert_desc key) [] l.

(** [sorted(xs, key=key, reverse=True)] for keys that are not numbers; [lt]
    is the order of the keys. *)
Fixpoint insert_desc_by {A K} (lt : K → K → bool) (key : A → K) (x : A)
    (l : list A) : list A :=
  match l with
  | [] => [x]
  | y :: l' =>
      if lt (key x) (key y) then y :: insert_desc_by lt key x l'
      else x :: y :: l'
  end.
Definition sort_desc_by {A K} (lt : K → K → bool) (key : A → K) (l : list A)
    : list A :=
  foldr (insert_desc_by lt key) [] l.

(** ** [src/collectors/base_collector.py]: the story objects *)

Module Collectors.

(** A [datetime] object. It is naive (no [tzinfo]: what [datetime.now()]
    and [datetime.strptime] return, [gdelt_collector.py] lines 75 and 77) or
    aware, with the fixed UTC offset that [datetime.fromisoformat] read
    ([newsapi_collector.py] line 86). [instant] is its place, in
    microseconds, on the time line it is compared on: the wall clock of a
    naive datetime, UTC of an aware one. *)
Record datetime : Type := {
  instant : Z;
  utcoffset : option Z
}.

Definition aware (date : datetime) : bool :=
  match utcoffset date with
  | Some _ => true
  | None => false
  end.

(** [date1 - date2], in microseconds; [None] is the [TypeError] of
    subtracting a naive and an aware datetime. *)
Definition sub_datetime (date1 date2 : datetime) : option Z :=
  if Bool.eqb (aware date1) (aware date2)
  then Some (instant date1 - instant date2)%Z
  else None.

(** [date1 < date2] and [date1 > date2]; [None] is the [TypeError] of
    comparing a naive and an aware datetime. *)
Definition lt_datetime (date1 date2 : datetime) : option bool :=
  if Bool.eqb (aware date1) (aware date2)
  then Some (instant date1 <? instant date2)%Z
  else None.
Definition gt_datetime (date1 date2 : datetime) : option bool :=
  if Bool.eqb (aware date1) (aware date2)
  then Some (instant date2 <? instant date1)%Z
  else None.

(** [min(dates)] and [max(dates)] of the non-empty list [first :: rest]:
    each date is compared with the least (the greatest) so far, which gives
    way to a strictly smaller (greater) one only. *)
Definition min_datetime (first : datetime) (rest : list datetime)
    : option datetime :=
  foldl (λ acc date,
           least ← acc;
           smaller ← lt_datetime date least;
           Some (if smaller : bool then date else least))
        (Some first) rest.
Definition max_datetime (first : datetime) (rest : list datetime)
    : option datetime :=
  foldl (λ acc date,
           greatest ← acc;
           greater ← gt_datetime date greatest;
           Some (if greater : bool then date else greatest))
        (Some first) rest.

(** The [Story] objects the collectors hand over. The free-form [metadata]
    dict, which the engine never reads, is left out. *)
Record Story : Type := {
  id : string;
  title : string;
  url : string;
  source : string;
  published_date : datetime;
  content : string;
  description : string;
  author : string;
  collector : string
}.

#[global] Instance Story_inhabited : Inhabited Story :=
  populate {| id := ""; title := ""; url := ""; source := "";
              published_date := {| instant := 0; utcoffset := None |};
              content := ""; description := "";
              author := ""; collector := "" |}.

End Collectors.

(** ** [src/processors/story_correlator.py]: the entity/regex mode *)

Module Processors.
Import Re.

(** A story is a dict from field names to strings. *)
Abbreviation story := (gmap string string).

(** [\b(a|b|...)\b] *)
Definition bounded (rs : list regex) : regex :=
  Cat WordBoundary (Cat (alts rs) WordBoundary).

(** [CVE-\d{4}-\d{4,7}] *)
Definition cve : regex :=
  Cat (lit "CVE-") (Cat (Repeat digit 4 (Some 4))
    (Cat (lit "-") (Repeat digit 4 (Some 7)))).

(** [self.entity_patterns], in the order of the dict literal. *)
Definition entity_patterns : list (string * regex) :=
  [ ("countries", bounded (lit <$>
      ["China"; "Chinese"; "Russia"; "Russian"; "Iran"; "Iranian"; "Israel";
       "Ukraine"; "Taiwan"; "North Korea"; "DPRK"; "United States"; "USA";
       "US"; "Myanmar"; "India"; "European Union"; "EU"]));
    ("threat_actors", bounded (Cat (lit "APT") (star digit) :: (lit <$>
      ["Lazarus"; "Cozy Bear"; "Fancy Bear"; "Salt Typhoon"; "Volt Typhoon";
       "Sandworm"; "Kimsuky"; "state-sponsored"; "nation-state"])));
    ("malware", bounded (lit <$>
      ["ransomware"; "malware"; "trojan"; "backdoor"; "rootkit"; "spyware";
       "wiper"]));
    ("vulnerabilities", bounded (cve :: (lit <$>
      ["zero-day"; "zero day"; "0day"; "vulnerability"; "exploit"])));
    ("techniques", bounded (lit <$>
      ["phishing"; "spear-phishing"; "social engineering"; "watering hole";
       "DDoS"; "credential stuffing"; "attack"; "breach"; "hack";
       "intrusion"]));
    ("sectors", bounded (lit <$>
      ["healthcare"; "financial"; "infrastructure"; "energy"; "telecom";
       "telecommunications"; "government"; "defense"; "military"]));
    ("tech", bounded (lit <$>
      ["Ivanti"; "VMware"; "Cisco"; "Microsoft"; "Google"; "Apple"; "Huawei";
       "5G"; "AI"]));
    ("cyber_ops", bounded
      [lit "cyber attack"; lit "cyber espionage";
       Cat (lit "cyber") (Cat (opt space_or_hyphen) (lit "threat"));
       lit "data breach"; lit "network intrusion"; lit "hacking campaign";
       lit "compromise"]);
    ("supply_chain", bounded
      [lit "semiconductor"; lit "chip"; lit "TSMC";
       Cat (lit "rare") (Cat (opt space_or_hyphen)
         (Cat (lit "earth") (opt (lit "s"))));
       lit "lithium"; lit "cobalt"; lit "gallium"; lit "germanium";
       lit "supply chain"; lit "fab"; lit "foundry"; lit "wafer"]);
    ("economic", bounded (lit <$>
      ["sanctions"; "sanction"; "tariff"; "export control"; "trade war";
       "trade spat"; "CFIUS"; "Entity List"; "forced technology transfer";
       "economic warfare"]));
    ("military", bounded (lit <$>
      ["drone"; "UAV"; "UAS"; "missile"; "satellite"; "ASAT";
       "military operation"; "combat"; "military warfare"; "space warfare"]))
  ].

(** [RARE[\s-]?EARTHS?] *)
Definition rare_earth : regex :=
  Cat (lit "RARE") (Cat (opt space_or_hyphen)
    (Cat (lit "EARTH") (opt (lit "S")))).

(** The normalisation of one match (lines 62-66). *)
Definition normalize (m : string) : string :=
  let normalized_match := upper m in
  let normalized_match := sub false rare_earth "RARE EARTH" normalized_match in
  strip (sub false (plus space_or_hyphen) " " normalized_match).

(** [extract_entities]: the dict from entity type to the set of normalised
    matches, holding the types with at least one match, in pattern order. *)
Definition extract_entities (text : string) : list (string * gset string) :=
  omap (λ '(entity_type, pattern),
          let matches := findall true pattern text in
          match matches with
          | [] => None
          | _ => Some (entity_type, list_to_set (normalize <$> matches))
          end) entity_patterns.

(** [entities.get(entity_type, set())] *)
Fixpoint entities_get (entities : list (string * gset string))
    (entity_type : string) : gset string :=
  match entities with
  | [] => ∅
  | (k, v) :: rest =>
      if decide (k = entity_type) then v else entities_get rest entity_type
  end.

(** [f"{story.get('Title', '')} {story.get('Category', '')}"] *)
Definition story_text (s : story) : string :=
  default "" (s !! "Title") +:+ " " +:+ default "" (s !! "Category").

Definition stop_words : gset string :=
  list_to_set ["the"; "a"; "an"; "and"; "or"; "but"; "in"; "on"; "at"; "to";
    "for"; "of"; "with"; "by"; "from"; "up"; "about"; "into"; "through";
    "during"].

(** [set(re.findall(r'\w+', text.lower())) - stop_words] *)
Definition words (text : string) : gset string :=
  list_to_set (findall false (plus word_char) (lower text)) ∖ stop_words.

(** One turn of the loop over the entity types (lines 95-105); the state is
    [(dimensions_matched, dimension_scores)]. *)
Definition dimension_step (entities1 entities2 : list (string * gset string))
    (st : nat * list Q) (entity_type : string) : nat * list Q :=
  let set1 := entities_get entities1 entity_type in
  let set2 := entities_get entities2 entity_type in
  if bool_decide (set1 ≠ ∅) && bool_decide (set2 ≠ ∅) then
    let shared := size (set1 ∩ set2) in
    let total := size (set1 ∪ set2) in
    if (0 <? shared)%nat then (S st.1, st.2 ++ [ratio shared total]) else st
  else st.

Definition dimensions (entities1 entities2 : list (string * gset string))
    : nat * list Q :=
  foldl (dimension_step entities1 entities2) (0%nat, []) entity_patterns.*1.

(** [len(words1 & words2) / max(len(words1 | words2), 1)] *)
Definition word_overlap (words1 words2 : gset string) : Q :=
  ratio (size (words1 ∩ words2)) (size (words1 ∪ words2) `max` 1).

(** The score from the extracted features (lines 119-134). *)
Definition combine (dims : nat * list Q) (overlap : Q) : Q :=
  let dimensions_matched := dims.1 in
  let dimension_scores := dims.2 in
  if (dimensions_matched <? 2)%nat && Qltb overlap (1 # 2) then 0%Q
  else
    let entity_similarity :=
      match dimension_scores with
      | [] => 0%Q
      | _ => (Qsum dimension_scores / inject_Z (Z.of_nat (length dimension_scores)))%Q
      end in
    (entity_similarity * (7 # 10) + overlap * (3 # 10))%Q.

Definition calculate_story_similarity (story1 story2 : story) : Q :=
  let text1 := story_text story1 in
  let text2 := story_text story2 in
  let entities1 := extract_entities text1 in
  let entities2 := extract_entities text2 in
  combine (dimensions entities1 entities2)
          (word_overlap (words text1) (words text2)).

(** *** Clustering by seeded, bounded growth *)

Section Clustering.
(** The pair score the loops call; [find_story_clusters] below uses
    [calculate_story_similarity]. *)
Variable similarity : story → story → Q.
Variable stories : list story.
Variable threshold : Q.
Variable max_cluster_size : Z.

(** The inner loop [for j in range(i + 1, n)] (lines 163-174), over the
    indices [js] still to visit; [break] ends the recursion. *)
Fixpoint grow (i : nat) (js : list nat) (cluster : list story)
    (assigned : gset nat) : list story * gset nat :=
  match js with
  | [] => (cluster, assigned)
  | j :: js' =>
      if decide (j ∈ assigned) then grow i js' cluster assigned
      else if (max_cluster_size <=? Z.of_nat (length cluster))%Z
      then (cluster, assigned)
      else if Qgeb (similarity (stories !!! i) (stories !!! j)) threshold
      then grow i js' (cluster ++ [stories !!! j]) ({[j]} ∪ assigned)
      else grow i js' cluster assigned
  end.

(** The outer loop [for i in range(n)] (lines 154-176). *)
Fixpoint seed_loop (indices : list nat) (clusters : list (list story))
    (assigned : gset nat) : list (list story) :=
  match indices with
  | [] => clusters
  | i :: indices' =>
      if decide (i ∈ assigned) then seed_loop indices' clusters assigned
      else
        let n := length stories in
        let '(cluster, assigned') :=
          grow i (seq (S i) (n - S i)) [stories !!! i] ({[i]} ∪ assigned) in
        seed_loop indices' (clusters ++ [cluster]) assigned'
  end.

Definition seeded_clusters : list (list story) :=
  seed_loop (seq 0 (length stories)) [] ∅.
End Clustering.

(** [_split_large_cluster] (lines 193-226): the same two loops as
    [find_story_clusters], run over the members of one cluster. *)
Definition _split_large_cluster_with (similarity : story → story → Q)
    (cluster : list story) (higher_threshold : Q) (max_size : Z)
    : list (list story) :=
  if (Z.of_nat (length cluster) <=? max_size)%Z then [cluster]
  else seeded_clusters similarity cluster higher_threshold max_size.

(** [find_story_clusters] (lines 136-191), for any pair score. *)
Definition find_story_clusters_with (similarity : story → story → Q)
    (stories : list story) (threshold : Q) (max_cluster_size : Z)
    : list (list story) :=
  match stories with
  | [] => []
  | _ =>
      let clusters :=
        sort_desc length (seeded_clusters similarity stories threshold max_cluster_size) in
      clusters ≫= λ cluster,
        if (max_cluster_size <? Z.of_nat (length cluster))%Z
        then _split_large_cluster_with similarity cluster
               (threshold + (1 # 10))%Q max_cluster_size
        else [cluster]
  end.

Definition _split_large_cluster : list story → Q → Z → list (list story) :=
  _split_large_cluster_with calculate_story_similarity.
Definition find_story_clusters : list story → Q → Z → list (list story) :=
  find_story_clusters_with calculate_story_similarity.

(** The defaults of the signature of [find_story_clusters]. *)
Definition default_threshold : Q := 3 # 10.
Definition default_max_cluster_size : Z := 15.

(** *** The connection index *)

Record connection : Type := Connection {
  count : nat;
  mentions : list story
}.

(** [f"{entity_type}:{entity}"] *)
Definition entity_key (entity_type entity : string) : string :=
  entity_type +:+ ":" +:+ entity.

(** [s.split(sep, 1)] for a one-character separator: one or two pieces. *)
Fixpoint split_once (sep : ascii) (s : string) : list string :=
  match s with
  | EmptyString => [""]
  | String c s' =>
      if decide (c = sep) then [""; s']
      else match split_once sep s' with
           | h :: t => String c h :: t
           | [] => []
           end
  end.

(** [entity_map[key].append(story)] on a [defaultdict(list)]. *)
Definition append_story (s : story) (entity_map : gmap string (list story))
    (key : string) : gmap string (list story) :=
  <[key := default [] (entity_map !! key) ++ [s]]> entity_map.

(** The body of the loop over the stories (lines 235-241). A set is
    enumerated in the order of [elements]; the keys of one story are pairwise
    distinct, so the map built does not depend on that order. *)
Definition index_story (entity_map : gmap string (list story)) (s : story)
    : gmap string (list story) :=
  foldl (λ em '(entity_type, entity_set),
           foldl (λ em entity, append_story s em (entity_key entity_type entity))
                 em (elements entity_set))
        entity_map (extract_entities (story_text s)).

Definition build_entity_map (stories : list story) : gmap string (list story) :=
  foldl index_story ∅ stories.

(** The body of the loop over [entity_map.items()] (lines 245-253); [None]
    is the [ValueError] of unpacking a key without a colon. *)
Definition connect (acc : option (gmap string (gmap string connection)))
    (item : string * list story) : option (gmap string (gmap string connection)) :=
  connections ← acc;
  let '(entity, story_list) := item in
  if (1 <? length story_list)%nat then
    match split_once ":" entity with
    | [entity_type; entity_name] =>
        Some (<[entity_type :=
                 <[entity_name := Connection (length story_list) story_list]>
                   (default ∅ (connections !! entity_type))]> connections)
    | _ => None
    end
  else Some connections.

(** [identify_connections] (lines 228-255). The items of [entity_map] are
    taken in the order of [map_to_list]; they go to pairwise distinct places
    of [connections]. *)
Definition identify_connections (stories : list story)
    : option (gmap string (gmap string connection)) :=
  foldl connect (Some ∅) (map_to_list (build_entity_map stories)).

End Processors.

(** ** [src/processors/nlp_processor.py] *)

Module NLP.
Import Re.

(** [\b[A-Z][a-z]+(?:\s+[A-Z][a-z]+)*\b] *)
Definition capitalized : regex :=
  let word := Cat (Class is_upper) (plus (Class is_lower)) in
  Cat WordBoundary (Cat word (Cat (star (Cat (plus space) word)) WordBoundary)).

Definition org_keywords : list string :=
  ["Corp"; "Inc"; "Ltd"; "LLC"; "Company"; "Group"; "Agency"; "Ministry";
   "Department"].

(** [kw in word]: [kw] occurs in [word] as a substring. *)
Fixpoint contains (kw word : string) : bool :=
  String.prefix kw word ||
  match word with
  | EmptyString => false
  | String _ word' => contains kw word'
  end.

(** [word.split()]: the maximal runs of non-whitespace characters. *)
Definition split_whitespace (word : string) : list string :=
  findall false (plus (Class (λ c, negb (is_space c)))) word.

(** [any(kw in word for kw in org_keywords)] and [len(word.split()) <= 3]. *)
Definition is_org (word : string) : bool :=
  existsb (λ kw, contains kw word) org_keywords.
Definition is_short (word : string) : bool :=
  (length (split_whitespace word) <=? 3)%nat.

(** The loop of lines 82-86 over the capitalised phrases; the state is
    [(potential_orgs, potential_persons)]. *)
Definition classify_step (st : list string * list string) (word : string)
    : list string * list string :=
  if is_org word then (st.1 ++ [word], st.2)
  else if is_short word then (st.1, st.2 ++ [word])
  else st.
Definition classify (ws : list string) : list string * list string :=
  foldl classify_step ([], []) ws.

(** The order in which CPython enumerates [set(xs)] follows the hashes of the
    strings, which are salted per process; [_extract_entities_basic] is
    therefore read relative to an enumeration [order], about which only
    [enumerates] is known. *)
Definition enumerates (order : list string → list string) : Prop :=
  ∀ xs, NoDup (order xs) ∧ ∀ x, x ∈ order xs ↔ x ∈ xs.

Section Basic.
Variable order : list string → list string.

(** [_extract_entities_basic] (lines 68-93): the dict from label to list,
    in insertion order. *)
Definition _extract_entities_basic (text : string) : list (string * list string) :=
  let words := findall false capitalized text in
  let '(potential_orgs, potential_persons) := classify words in
  (match potential_orgs with
   | [] => []
   | _ => [("ORG", take 10 (order potential_orgs))]
   end) ++
  (match potential_persons with
   | [] => []
   | _ => [("PERSON", take 10 (order potential_persons))]
   end).
End Basic.

(** The de-duplication of the model-based path (lines 57-64): first
    occurrences kept, compared in lower case. *)
Definition dedup_step (st : gset string * list string) (entity : string)
    : gset string * list string :=
  if decide (lower entity ∈ st.1) then st
  else ({[lower entity]} ∪ st.1, st.2 ++ [entity]).
Definition dedup_preserving (xs : list string) : list string :=
  (foldl dedup_step (∅, []) xs).2.

(** [text[:n]] *)
Fixpoint truncate (n : N) (text : string) : string :=
  match text with
  | EmptyString => EmptyString
  | String c text' =>
      if (n =? 0)%N then EmptyString else String c (truncate (N.pred n) text')
  end.

(** [if label not in entities: entities[label] = []] followed by
    [entities[label].append(text)], on a dict in insertion order. *)
Fixpoint append_entity (label text : string)
    (entities : list (string * list string)) : list (string * list string) :=
  match entities with
  | [] => [(label, [text])]
  | (k, l) :: entities' =>
      if decide (k = label) then (k, l ++ [text]) :: entities'
      else (k, l) :: append_entity label text entities'
  end.

(** The loop of [_extract_entities_spacy] over [doc.ents] (lines 56-60):
    [entities[ent.label_].append(ent.text)] for the labels in
    [entity_types], the dict in insertion order. *)
Definition group_entities (entity_types : list string)
    (ents : list (string * string)) : list (string * list string) :=
  foldl (λ entities '(ent_text, label_),
           if decide (label_ ∈ entity_types)
           then append_entity label_ ent_text entities
           else entities) [] ents.

(** [_extract_entities_spacy] (lines 45-66). [nlp] is the loaded spaCy
    model: [nlp text] lists [(ent.text, ent.label_)] for the entities
    [doc.ents] it finds in [text]. *)
Definition _extract_entities_spacy (nlp : string → list (string * string))
    (entity_types : list string) (text : string) : list (string * list string) :=
  let ents := nlp (truncate 1000000 text) in
  let entities := group_entities entity_types ents in
  prod_map (λ label, label) dedup_preserving <$> entities.

(** [config.get('entity_types', ['PERSON', 'ORG', 'GPE', 'LOC'])] *)
Definition default_entity_types : list string := ["PERSON"; "ORG"; "GPE"; "LOC"].

(** [\b[a-z]{3,}\b] *)
Definition long_word : regex :=
  Cat WordBoundary (Cat (Repeat (Class is_lower) 3 None) WordBoundary).

Definition stopwords : gset string :=
  list_to_set ["the"; "a"; "an"; "and"; "or"; "but"; "in"; "on"; "at"; "to";
    "for"; "of"; "with"; "by"; "from"; "as"; "is"; "was"; "are"; "were";
    "been"; "be"; "have"; "has"; "had"; "do"; "does"; "did"; "will"; "would";
    "could"; "should"; "may"; "might"; "must"; "can"; "this"; "that";
    "these"; "those"; "i"; "you"; "he"; "she"; "it"; "we"; "they"; "what";
    "which"; "who"; "when"; "where"; "why"; "how"; "said"; "say"; "says"].

(** [Counter(xs)]: the counts, keyed in first-seen order. *)
Fixpoint bump (w : string) (counts : list (string * nat)) : list (string * nat) :=
  match counts with
  | [] => [(w, 1%nat)]
  | (k, c) :: counts' =>
      if decide (k = w) then (k, S c) :: counts' else (k, c) :: bump w counts'
  end.
Definition counter (xs : list string) : list (string * nat) :=
  foldl (λ counts w, bump w counts) [] xs.

(** [extract_keywords] (lines 95-119); [most_common(top_n)] is the head of
    the stable sort by descending count. *)
Definition extract_keywords (text : string) (top_n : nat) : list string :=
  if bool_decide (text = "") then []
  else
    let words := findall false long_word (lower text) in
    let filtered_words := filter (λ w, w ∉ stopwords) words in
    let word_freq := counter filtered_words in
    (take top_n (sort_desc snd word_freq)).*1.

(** [_simple_similarity] (lines 146-157). *)
Definition _simple_similarity (text1 text2 : string) : Q :=
  let words1 : gset string := list_to_set (findall false long_word (lower text1)) in
  let words2 : gset string := list_to_set (findall false long_word (lower text2)) in
  if bool_decide (words1 = ∅) || bool_decide (words2 = ∅) then 0%Q
  else
    let intersection := size (words1 ∩ words2) in
    let union := size (words1 ∪ words2) in
    if (0 <? union)%nat then ratio intersection union else 0%Q.

(** [calculate_similarity] (lines 121-144). The TF-IDF cosine comes from
    scikit-learn; [tfidf_cosine] stands for the [try] block, [None] for an
    exception raised inside it. *)
Definition calculate_similarity (tfidf_cosine : string → string → option Q)
    (text1 text2 : string) : Q :=
  if bool_decide (text1 = "") || bool_decide (text2 = "") then 0%Q
  else match tfidf_cosine text1 text2 with
       | Some similarity => similarity
       | None => _simple_similarity text1 text2
       end.

(** The dict [process_story] returns. *)
Record StoryData : Type := {
  story_id : string;
  entities : list (string * list string);
  keywords : list string;
  text_for_similarity : string
}.

#[global] Instance StoryData_inhabited : Inhabited StoryData :=
  populate {| story_id := ""; entities := []; keywords := [];
              text_for_similarity := "" |}.

(** [extract_entities] (lines 35-43) with [self.nlp] unset, and
    [process_story] (lines 159-172). *)
Definition extract_entities (order : list string → list string)
    (text : string) : list (string * list string) :=
  if bool_decide (text = "") then [] else _extract_entities_basic order text.

Definition process_story (order : list string → list string)
    (story : Collectors.Story) : StoryData :=
  let text := Collectors.title story +:+ " " +:+ Collectors.description story
              +:+ " " +:+ Collectors.content story in
  {| story_id := Collectors.id story;
     entities := extract_entities order text;
     keywords := extract_keywords text 10;
     text_for_similarity := text |}.

End NLP.

(** ** [src/correlators/story_correlator.py]: the general mode *)

Module Correlators.
Import Re.
Export Collectors.
Import NLP (StoryData, story_id, entities, keywords, text_for_similarity).

(** What the correlator uses of the [nlp_processor] it is constructed with;
    [process_story] answers [None] when the call raises. *)
Record nlp_processor : Type := {
  process_story : Story → option StoryData;
  calculate_similarity : string → string → Q
}.

(** An entry of [processed_stories]: [{'story': story, 'data': story_data}]. *)
Abbreviation processed := (Story * StoryData)%type.

Record StoryCluster : Type := {
  cluster_id : nat;
  stories : list processed;
  shared_entities : gmap string (gset string);
  shared_keywords : gset string
}.

(** [StoryCluster(cluster_id)] *)
Definition new_cluster (cluster_id : nat) : StoryCluster :=
  {| cluster_id := cluster_id; stories := [];
     shared_entities := ∅; shared_keywords := ∅ |}.

(** [StoryCluster.add_story] (lines 21-35). *)
Definition add_story (c : StoryCluster) (ps : processed) : StoryCluster :=
  {| cluster_id := cluster_id c;
     stories := stories c ++ [ps];
     shared_entities :=
       foldl (λ se '(entity_type, es),
                foldl (λ se entity,
                         <[entity_type :=
                            {[entity]} ∪ default ∅ (se !! entity_type)]> se)
                      se es)
             (shared_entities c) (entities ps.2);
     shared_keywords := shared_keywords c ∪ list_to_set (keywords ps.2) |}.

(** [_entity_similarity] (lines 179-201). *)
Definition flatten_entities (es : list (string * list string)) : gset string :=
  list_to_set (lower <$> (es ≫= snd)).

Definition _entity_similarity (entities1 entities2 : list (string * list string)) : Q :=
  if bool_decide (entities1 = []) || bool_decide (entities2 = []) then 0%Q
  else
    let all_entities1 := flatten_entities entities1 in
    let all_entities2 := flatten_entities entities2 in
    if bool_decide (all_entities1 = ∅) || bool_decide (all_entities2 = ∅) then 0%Q
    else
      let intersection := size (all_entities1 ∩ all_entities2) in
      let union := size (all_entities1 ∪ all_entities2) in
      if (0 <? union)%nat then ratio intersection union else 0%Q.

(** [_keyword_similarity] (lines 203-211). *)
Definition _keyword_similarity (keywords1 keywords2 : gset string) : Q :=
  if bool_decide (keywords1 = ∅) || bool_decide (keywords2 = ∅) then 0%Q
  else
    let intersection := size (keywords1 ∩ keywords2) in
    let union := size (keywords1 ∪ keywords2) in
    if (0 <? union)%nat then ratio intersection union else 0%Q.

(** [_temporal_similarity] (lines 213-229); [time_diff] in microseconds.
    [None] is the [TypeError] of [date1 - date2] (line 215). *)
Definition _temporal_similarity (date1 date2 : datetime) : option Q :=
  time_diff ← Z.abs <$> sub_datetime date1 date2;
  Some (if (time_diff <? 3600 * 1000000)%Z then 1%Q
        else if (time_diff <? 86400 * 1000000)%Z then (1 # 2)%Q
        else if (time_diff <? 604800 * 1000000)%Z then (2 # 10)%Q
        else 0%Q).

(** [__init__] (lines 81-84) reads the threshold from the configuration:
    [config.get('similarity_threshold', 0.3)]. *)
Definition configured_threshold (config : gmap string Q) : Q :=
  default (3 # 10)%Q (config !! "similarity_threshold").

Section Correlator.
(** The fields [__init__] sets. *)
Variable nlp : nlp_processor.
Variable similarity_threshold : Q.

(** [_calculate_story_similarity] (lines 140-177); [None] is the exception
    of [_temporal_similarity]. *)
Definition _calculate_story_similarity (story1 story2 : processed) : option Q :=
  let data1 := story1.2 in
  let data2 := story2.2 in
  let text_sim :=
    calculate_similarity nlp (text_for_similarity data1)
                             (text_for_similarity data2) in
  let entity_sim := _entity_similarity (entities data1) (entities data2) in
  let keyword_sim :=
    _keyword_similarity (list_to_set (keywords data1))
                        (list_to_set (keywords data2)) in
  temporal_sim ←
    _temporal_similarity (published_date story1.1) (published_date story2.1);
  Some (text_sim * (4 # 10) + entity_sim * (3 # 10) + keyword_sim * (2 # 10)
        + temporal_sim * (1 # 10))%Q.

(** [_find_relationships] (lines 115-138): the inner loop over
    [processed_stories[i + 1:]], then the outer one. An exception of
    [_calculate_story_similarity] ends both: nothing catches it. *)
Fixpoint pairs_from (i : nat) (story1 : processed) (j : nat)
    (rest : list processed) : option (list (nat * nat * Q)) :=
  match rest with
  | [] => Some []
  | story2 :: rest' =>
      similarity ← _calculate_story_similarity story1 story2;
      later ← pairs_from i story1 (S j) rest';
      Some ((if Qgeb similarity similarity_threshold
             then [(i, j, similarity)] else []) ++ later)
  end.

Fixpoint relationships_from (i : nat) (processed_stories : list processed)
    : option (list (nat * nat * Q)) :=
  match processed_stories with
  | [] => Some []
  | story1 :: rest =>
      pairs ← pairs_from i story1 (S i) rest;
      later ← relationships_from (S i) rest;
      Some (pairs ++ later)
  end.

Definition _find_relationships (processed_stories : list processed)
    : option (list (nat * nat * Q)) :=
  relationships_from 0 processed_stories.
End Correlator.

(** The adjacency [defaultdict(set)] (lines 243-246). *)
Definition add_edge (graph : gmap nat (gset nat)) (rel : nat * nat * Q)
    : gmap nat (gset nat) :=
  let '(i, j, _) := rel in
  let graph := <[i := {[j]} ∪ default ∅ (graph !! i)]> graph in
  <[j := {[i]} ∪ default ∅ (graph !! j)]> graph.

Definition build_graph (relationships : list (nat * nat * Q)) : gmap nat (gset nat) :=
  foldl add_edge ∅ relationships.

(** The nested [dfs] (lines 252-257). The state is
    [(visited, current_cluster_nodes)]; [depth] bounds the nesting of the
    calls, and [None] is the interpreter's [RecursionError]. *)
Fixpoint dfs (depth : nat) (graph : gmap nat (gset nat)) (node : nat)
    (st : gset nat * gset nat) : option (gset nat * gset nat) :=
  match depth with
  | 0 => None
  | S depth' =>
      foldl (λ acc neighbor,
               st' ← acc;
               if decide (neighbor ∈ st'.1) then Some st'
               else dfs depth' graph neighbor st')
            (Some ({[node]} ∪ st.1, {[node]} ∪ st.2))
            (elements (default ∅ (graph !! node)))
  end.

(** The cluster of one component (lines 266-269); the nodes of the set are
    taken in the order of [elements]. *)
Definition cluster_of (processed_stories : list processed) (cluster_id : nat)
    (nodes : gset nat) : option StoryCluster :=
  foldl (λ acc node,
           cluster ← acc;
           ps ← processed_stories !! node;
           Some (add_story cluster ps))
        (Some (new_cluster cluster_id)) (elements nodes).

(** The loop over [range(len(processed_stories))] (lines 260-272); the
    state is [(visited, clusters)], and [cluster_id] is the number of
    clusters made so far. [None] is an exception: the recursion limit, or
    an index out of range. *)
Definition component_step (depth : nat) (graph : gmap nat (gset nat))
    (processed_stories : list processed)
    (acc : option (gset nat * list StoryCluster)) (i : nat)
    : option (gset nat * list StoryCluster) :=
  '(visited, clusters) ← acc;
  if decide (i ∈ visited) then Some (visited, clusters)
  else
    '(visited', current_cluster_nodes) ← dfs depth graph i (visited, ∅);
    cluster ← cluster_of processed_stories (length clusters) current_cluster_nodes;
    Some (visited', clusters ++ [cluster]).

(** [_create_clusters] (lines 231-277). *)
Definition _create_clusters (depth : nat) (processed_stories : list processed)
    (relationships : list (nat * nat * Q)) : option (list StoryCluster) :=
  match relationships with
  | [] =>
      Some (imap (λ i ps, add_story (new_cluster i) ps) processed_stories)
  | _ =>
      let graph := build_graph relationships in
      '(_, clusters) ←
        foldl (component_step depth graph processed_stories) (Some (∅, []))
              (seq 0 (length processed_stories));
      Some (sort_desc (λ c, length (stories c)) clusters)
  end.

(** [find_related_stories] (lines 86-113). The [try] covers
    [process_story] only: [None] is an exception of [_find_relationships]
    or of [_create_clusters]. *)
Definition find_related_stories (nlp : nlp_processor) (similarity_threshold : Q)
    (depth : nat) (input : list Story) : option (list StoryCluster) :=
  match input with
  | [] => Some []
  | _ =>
      let processed_stories :=
        omap (λ story, (λ story_data, (story, story_data)) <$> process_story nlp story)
             input in
      relationships ←
        _find_relationships nlp similarity_threshold processed_stories;
      _create_clusters depth processed_stories relationships
  end.

(** The sets [get_summary] turns into lists. The order in which CPython
    lists a set is not determined by its elements, so the summary is read
    relative to an enumeration [order] of each of them. *)
Inductive listed_set : Type :=
| EntitiesOf (entity_type : string)
| Keywords
| Sources.

(** The dict [get_summary] returns (lines 55-75). The dates stay datetime
    objects, where the code renders them with [isoformat()]. *)
Record summary : Type := {
  summary_cluster_id : nat;
  story_count : nat;
  summary_stories : list (string * string * string * string * datetime);
  top_entities : gmap string (list string);
  top_keywords : list string;
  date_range : datetime * datetime;
  sources : list string
}.

(** [StoryCluster.get_summary] (lines 37-75). [Some None] is the empty dict
    of a cluster without stories, [None] the [TypeError] of [min(dates)]. *)
Definition get_summary (order : listed_set → gset string → list string)
    (c : StoryCluster) : option (option summary) :=
  match stories c with
  | [] => Some None
  | s :: rest =>
      let top_entities :=
        map_imap (λ entity_type entities,
                    Some (take 5 (order (EntitiesOf entity_type) entities)))
                 (shared_entities c) in
      let dates := (λ s, published_date s.1) <$> rest in
      min_date ← min_datetime (published_date s.1) dates;
      max_date ← max_datetime (published_date s.1) dates;
      let sources :=
        order Sources (list_to_set ((λ s, source s.1) <$> stories c)) in
      Some (Some
        {| summary_cluster_id := cluster_id c;
           story_count := length (stories c);
           summary_stories :=
             (λ s, (id s.1, title s.1, url s.1, source s.1, published_date s.1))
               <$> stories c;
           top_entities := top_entities;
           top_keywords := take 10 (order Keywords (shared_keywords c));
           date_range := (min_date, max_date);
           sources := sources |})
  end.

End Correlators.

(** ** [src/processors/story_correlator.py]: the report and the graph *)

Module Reports.
Import Re Processors.

(** [defaultdict(int)] with [themes[category] += 1] (lines 265-268): the
    counts, keyed in first-seen order. *)
Definition themes (stories : list story) : list (string * nat) :=
  foldl (λ themes story,
           NLP.bump (default "Unknown" (story !! "Category")) themes)
        [] stories.

(** The entries of the timeline and of the clusters (lines 273-279 and
    293-298); [story.get(key)] is [None] for a missing key. *)
Definition timeline_entry (s : story) : gmap string (option string) :=
  {[ "title" := s !! "Title"; "source" := s !! "Source";
     "category" := s !! "Category"; "time" := s !! "Published";
     "link" := s !! "Link" ]}.
Definition story_entry (s : story) : gmap string (option string) :=
  {[ "title" := s !! "Title"; "source" := s !! "Source";
     "category" := s !! "Category"; "link" := s !! "Link" ]}.

Record report_summary : Type := {
  total_stories : nat;
  story_clusters : nat;
  top_themes : list (string * nat);
  connection_points : nat
}.

Record cluster_entry : Type := {
  entry_size : nat;
  entry_stories : list (gmap string (option string))
}.

Record connection_entry : Type := {
  mention_count : nat;
  story_titles : list (option string)
}.

Record intelligence_report : Type := {
  timestamp : string;
  summary : report_summary;
  clusters : list cluster_entry;
  connections : gmap string (list (string * connection_entry));
  timeline : list (gmap string (option string))
}.

(** [build_intelligence_report] (lines 257-315). [now] is
    [datetime.now().isoformat()]; [items entity_type entities] lists the
    dict [connections[entity_type]] in its insertion order, which the map
    does not record. [None] is an exception of [identify_connections]. *)
Definition build_intelligence_report (now : string)
    (items : string → gmap string connection → list (string * connection))
    (stories : list story) (threshold : Q) : option intelligence_report :=
  let clusters := find_story_clusters stories threshold default_max_cluster_size in
  connections ← identify_connections stories;
  let themes := themes stories in
  let timeline :=
    timeline_entry
      <$> sort_desc_by String.ltb (λ s : story, default "" (s !! "Scraped_At")) stories in
  Some {| timestamp := now;
          summary :=
            {| total_stories := length stories;
               story_clusters := length clusters;
               top_themes := take 10 (sort_desc snd themes);
               connection_points :=
                 sum_list ((λ v : gmap string connection, size v)
                             <$> (map_to_list connections).*2) |};
          clusters :=
            (λ cluster, {| entry_size := length cluster;
                           entry_stories := story_entry <$> cluster |})
              <$> take 20 clusters;
          connections :=
            map_imap (λ entity_type entities,
              Some ((λ '(name, data),
                       (name, {| mention_count := count data;
                                 story_titles :=
                                   (λ s : story, s !! "Title")
                                     <$> take 5 (mentions data) |}))
                    <$> take 10 (sort_desc (λ x, count x.2)
                                   (items entity_type entities))))
              connections;
          timeline := take 50 timeline |}.

Record node : Type := {
  node_id : nat;
  label : string;
  category : option string;
  source : option string;
  link : option string;
  full_title : option string
}.

(** [generate_graph_data] (lines 317-350): the nodes, and the edges
    [(from, to, weight)]. *)
Definition generate_graph_data (stories : list story) (threshold : Q)
    : list node * list (nat * nat * Q) :=
  let nodes :=
    imap (λ i story,
            {| node_id := i;
               label := String.substring 0 50 (default "" (story !! "Title")) +:+ "...";
               category := story !! "Category";
               source := story !! "Source";
               link := story !! "Link";
               full_title := story !! "Title" |}) stories in
  let n := length stories in
  let edges :=
    seq 0 n ≫= λ i,
      seq (S i) (n - S i) ≫= λ j,
        let similarity :=
          calculate_story_similarity (stories !!! i) (stories !!! j) in
        if Qgeb similarity threshold then [(i, j, similarity)] else [] in
  (nodes, edges).
End Reports.

(** ** [src/aggregator.py]: what the pipeline does around the correlator *)

Module Aggregator.
Import Correlators.

(** [d[key] = value] on a dict in insertion order: a key already present
    keeps its place. *)
Fixpoint dict_set {V} (key : string) (value : V) (d : list (string * V))
    : list (string * V) :=
  match d with
  | [] => [(key, value)]
  | (k, v) :: d' =>
      if decide (k = key) then (k, value) :: d' else (k, v) :: dict_set key value d'
  end.

(** [collect_stories] (lines 95-116). [collected] holds what each
    collector's [collect()] returned, [None] for one that raised: its
    exception is logged and the loop goes on. *)
Definition collect_stories (collected : list (option (list Story))) : list Story :=
  let all_stories := collected ≫= default [] in
  let unique_stories :=
    foldl (λ d story, dict_set (url story) story d) [] all_stories in
  unique_stories.*2.

(** ['largest_cluster_size'] of the summary file (line 177) and
    [top_clusters] of the HTML report (line 201). *)
Definition largest_cluster_size (clusters : list StoryCluster) : nat :=
  match clusters with
  | [] => 0
  | _ => max_list ((λ c, length (Correlators.stories c)) <$> clusters)
  end.
Definition top_clusters (clusters : list StoryCluster) : list StoryCluster :=
  take 5 (sort_desc (λ c, length (Correlators.stories c)) clusters).
End Aggregator.

(** ** The vocabulary of the properties *)

(** [clusters] is a partition of [xs]: read one after the other, the clusters
    hold the elements of [xs], each as often as [xs] does, and no cluster is
    empty. *)
Definition is_partition {A} (xs : list A) (clusters : list (list A)) : Prop :=
  concat clusters ≡ₚ xs ∧ Forall (λ c, c ≠ []) clusters.

(** The elements of [l] at the indices in [a]. *)
Definition members {A} `{Inhabited A} (l : list A) (a : gset nat) : list A :=
  (λ i, l !!! i) <$> elements a.

(** What every cluster of a seeded pass with bound [K] satisfies: it has a
    seed, and it grew only while it was below [K]. *)
Definition bounded_cluster {A} (K : Z) (c : list A) : Prop :=
  c ≠ [] ∧ (Z.of_nat (length c) ≤ Z.max K 1)%Z.

(** The endpoints of every relationship index [processed_stories]. *)
Definition in_range (n : nat) (relationships : list (nat * nat * Q)) : Prop :=
  Forall (λ r, r.1.1 < n ∧ r.1.2 < n) relationships.

(** One turn of the loop over the neighbours inside [dfs]. *)
Definition visit (graph : gmap nat (gset nat)) (depth : nat)
    (acc : option (gset nat * gset nat)) (neighbor : nat)
    : option (gset nat * gset nat) :=
  st' ← acc;
  if decide (neighbor ∈ st'.1) then Some st'
  else Correlators.dfs depth graph neighbor st'.

(** With a depth of at least the number of unvisited nodes, [dfs] returns,
    and it adds the same fresh nodes [D] to both sets. *)
Definition dfs_ok (graph : gmap nat (gset nat)) (universe : gset nat)
    (depth : nat) : Prop :=
  ∀ node visited cur,
    node ∈ universe → node ∉ visited → size (universe ∖ visited) ≤ depth →
    ∃ D, Correlators.dfs depth graph node (visited, cur)
         = Some (visited ∪ D, cur ∪ D)
         ∧ D ## visited ∧ node ∈ D ∧ D ⊆ universe.

(** The stories [find_related_stories] goes on with: those for which
    [process_story] returned. *)
Definition processed_of (nlp : Correlators.nlp_processor)
    (input : list Collectors.Story) : list Correlators.processed :=
  omap (λ story,
          (λ story_data, (story, story_data))
            <$> Correlators.process_story nlp story) input.

(** The publication dates of processed stories. *)
Definition dates_of (processed_stories : list Correlators.processed)
    : list Collectors.datetime :=
  (λ ps, Collectors.published_date ps.1) <$> processed_stories.

(** The dates can be subtracted from and compared with each other: they
    are all naive or all aware. *)
Definition comparable (dates : list Collectors.datetime) : Prop :=
  ∃ a : bool, Forall (λ date, Collectors.aware date = a) dates.

(** No colon occurs in [t]. *)
Fixpoint colon_free (t : string) : bool :=
  match t with
  | EmptyString => true
  | String c t' => negb (bool_decide (c = ":"%char)) && colon_free t'
  end.

(** The entity types are pairwise distinct and hold no colon. *)
Definition well_typed (entities : list (string * gset string)) : Prop :=
  NoDup entities.*1 ∧ Forall (λ t, colon_free t) entities.*1.

(** The keys one story contributes to [entity_map], in the order of the two
    nested loops. *)
Definition keys_of (entities : list (string * gset string)) : list string :=
  entities ≫= λ p, Processors.entity_key p.1 <$> elements p.2.

(** [key] is among the keys story [s] contributes. *)
Definition hits (key : string) (s : Processors.story) : Prop :=
  key ∈ keys_of (Processors.extract_entities (Processors.story_text s)).

#[global] Instance hits_dec key s : Decision (hits key s) :=
  decide (key ∈ keys_of (Processors.extract_entities (Processors.story_text s))).

(** [connections[entity_type][entity_name]], when present. *)
Definition connection_of
    (connections : gmap string (gmap string Processors.connection))
    (entity_type entity_name : string) : option Processors.connection :=
  connections !! entity_type ≫= λ entries, entries !! entity_name.

(** *** Seeds, components and what a cluster pools *)

(** [c] was grown from a seed: it holds the stories at the positions
    [i < j1 < j2 < ...] of [stories], and every [j] scores at least
    [threshold] against the seed [i]. *)
Definition seeded (similarity : Processors.story → Processors.story → Q)
    (stories : list Processors.story) (threshold : Q)
    (c : list Processors.story) : Prop :=
  ∃ i added,
    c = (λ j, stories !!! j) <$> i :: added
    ∧ i :: added `sublist_of` seq 0 (length stories)
    ∧ Forall (λ j, (threshold <= similarity (stories !!! i) (stories !!! j))%Q)
        added.

(** Two positions are joined by a relationship, in either direction;
    [connected] is a chain of such steps. *)
Definition related (relationships : list (nat * nat * Q)) (i j : nat) : Prop :=
  ∃ s, (i, j, s) ∈ relationships ∨ (j, i, s) ∈ relationships.
Definition connected (relationships : list (nat * nat * Q)) : nat → nat → Prop :=
  rtc (related relationships).

(** [j] is in [graph[i]]. *)
Definition adjacent (graph : gmap nat (gset nat)) (i j : nat) : Prop :=
  j ∈ default ∅ (graph !! i).

(** What a returning [dfs] has done: it added a set [D] of nodes that holds
    [node], all of them reachable from [node], and every neighbour of a node
    of [D] is visited afterwards. *)
Definition explores (graph : gmap nat (gset nat)) (depth : nat) : Prop :=
  ∀ node visited cur visited' cur',
    Correlators.dfs depth graph node (visited, cur) = Some (visited', cur') →
    ∃ D, visited' = visited ∪ D ∧ cur' = cur ∪ D ∧ node ∈ D
         ∧ (∀ x, x ∈ D → rtc (adjacent graph) node x)
         ∧ (∀ x y, x ∈ D → adjacent graph x y → y ∈ visited ∪ D).

(** The cluster [c] holds exactly the stories at the positions that
    [reaches] joins to position [i]. *)
Definition component_of (processed_stories : list Correlators.processed)
    (reaches : nat → nat → Prop) (c : Correlators.StoryCluster) (i : nat) : Prop :=
  i < length processed_stories
  ∧ ∃ D : gset nat,
      Correlators.stories c ≡ₚ members processed_stories D
      ∧ ∀ j, j ∈ D ↔ reaches i j.

(** [shared_keywords] and [shared_entities] hold what the member stories
    contribute and nothing else. The entities are read as the code's
    consumers could read them, through [.get(entity_type, set())]. *)
Definition pools_its_stories (c : Correlators.StoryCluster) : Prop :=
  (∀ keyword,
     keyword ∈ Correlators.shared_keywords c
     ↔ ∃ ps, ps ∈ Correlators.stories c ∧ keyword ∈ NLP.keywords ps.2)
  ∧ (∀ entity_type entity,
       entity ∈ default ∅ (Correlators.shared_entities c !! entity_type)
       ↔ ∃ ps es, ps ∈ Correlators.stories c
                  ∧ (entity_type, es) ∈ NLP.entities ps.2 ∧ entity ∈ es).

(** [order] lists every set without repetition. *)
Definition lists_sets
    (order : Correlators.listed_set → gset string → list string) : Prop :=
  ∀ which X, NoDup (order which X) ∧ ∀ x, x ∈ order which X ↔ x ∈ X.

(** *** Counting and ranking *)

(** How often [w] occurs in [xs]. *)
Definition occurrences (w : string) (xs : list string) : nat :=
  length (filter (λ x, x = w) xs).

(** [top] is what [Counter(xs).most_common(n)] may return: at most [n]
    distinct elements of [xs] with their counts, the more frequent first,
    none of them less frequent than an element left out, and all elements
    when there are fewer than [n]. *)
Definition most_common (xs : list string) (n : nat) (top : list (string * nat))
    : Prop :=
  length top ≤ n
  ∧ NoDup top.*1
  ∧ Forall (λ p, p.1 ∈ xs ∧ p.2 = occurrences p.1 xs) top
  ∧ StronglySorted (λ p1 p2 : string * nat, p2.2 ≤ p1.2) top
  ∧ (∀ p w, p ∈ top → w ∈ xs → w ∉ top.*1 → occurrences w xs ≤ p.2)
  ∧ (length top < n → ∀ w, w ∈ xs → w ∈ top.*1).

(** [s.get('Scraped_At', '')] and [story.get('Category', 'Unknown')] *)
Definition scraped_at (s : Processors.story) : string :=
  default "" (s !! "Scraped_At").
Definition category_of (s : Processors.story) : string :=
  default "Unknown" (s !! "Category").

(** [items] lists the entries of every dict [connections[entity_type]]. *)
Definition lists_items
    (items : string → gmap string Processors.connection
             → list (string * Processors.connection)) : Prop :=
  ∀ entity_type entities, items entity_type entities ≡ₚ map_to_list entities.

(** *** What a regular expression matches *)

(** The character before the position reached after reading [w]. *)
Definition after (prev : option ascii) (w : list ascii) : option ascii :=
  match last w with
  | Some c => Some c
  | None => prev
  end.

(** [matches ignorecase r prev w rest]: the expression [r] matches the
    characters [w], read after the character [prev] and followed by [rest]. *)
Inductive matches (ignorecase : bool)
    : Re.regex → option ascii → list ascii → list ascii → Prop :=
| matches_lit c a prev rest :
    Re.chr_eq ignorecase c a = true →
    matches ignorecase (Re.Lit c) prev [a] rest
| matches_class (p : ascii → bool) a prev rest :
    p a = true → matches ignorecase (Re.Class p) prev [a] rest
| matches_boundary prev rest :
    Re.at_boundary prev rest = true →
    matches ignorecase Re.WordBoundary prev [] rest
| matches_empty prev rest : matches ignorecase Re.Empty prev [] rest
| matches_cat r1 r2 prev w1 w2 rest :
    matches ignorecase r1 prev w1 (w2 ++ rest) →
    matches ignorecase r2 (after prev w1) w2 rest →
    matches ignorecase (Re.Cat r1 r2) prev (w1 ++ w2) rest
| matches_or_l r1 r2 prev w rest :
    matches ignorecase r1 prev w rest →
    matches ignorecase (Re.Or r1 r2) prev w rest
| matches_or_r r1 r2 prev w rest :
    matches ignorecase r2 prev w rest →
    matches ignorecase (Re.Or r1 r2) prev w rest
| matches_repeat_end r hi prev rest :
    matches ignorecase (Re.Repeat r 0 hi) prev [] rest
| matches_repeat_more r lo hi prev w1 w2 rest :
    Re.hi_allows hi = true → w1 ≠ [] →
    matches ignorecase r prev w1 (w2 ++ rest) →
    matches ignorecase (Re.Repeat r (pred lo) (Re.hi_pred hi))
      (after prev w1) w2 rest →
    matches ignorecase (Re.Repeat r lo hi) prev (w1 ++ w2) rest.

(** [w] stands in [s] as a whole word: the characters next to it, if any,
    are no word characters. *)
Definition whole_word_of (s w : string) : Prop :=
  ∃ before rest,
    Re.chars s = before ++ Re.chars w ++ rest
    ∧ from_option Re.is_word false (last before) = false
    ∧ from_option Re.is_word false (head rest) = false.

(** No two spaces follow each other in [l]. *)
Definition single_spaced (l : list ascii) : Prop :=
  ∀ l1 l2, l ≠ l1 ++ " "%char :: " "%char :: l2.

(** The form of a normalised entity: no lower-case letter and no hyphen,
    single spaces as the only whitespace, and none at either end. *)
Definition canonical (entity : string) : Prop :=
  Forall (λ c, Re.is_lower c = false ∧ c ≠ "-"%char
               ∧ (Re.is_space c = true → c = " "%char)) (Re.chars entity)
  ∧ single_spaced (Re.chars entity)
  ∧ head (Re.chars entity) ≠ Some " "%char
  ∧ last (Re.chars entity) ≠ Some " "%char.

(** *** Inputs for the examples *)

(** A headline-only story: [{"Title": t}]. *)
Definition headline (t : string) : Processors.story := {["Title" := t]}.

(** A story object with the title [t], published at [at_]: a naive
    datetime, as [datetime.strptime] builds it. *)
Definition report (t : string) (at_ : Z) : Collectors.Story :=
  {| Collectors.id := t; Collectors.title := t; Collectors.url := t;
     Collectors.source := "wire";
     Collectors.published_date :=
       {| Collectors.instant := at_; Collectors.utcoffset := None |};
     Collectors.content := ""; Collectors.description := "";
     Collectors.author := ""; Collectors.collector := "rss" |}.

(** A naive datetime and one aware of UTC, [at_] microseconds after the
    origin of their time line. *)
Definition naive (at_ : Z) : Collectors.datetime :=
  {| Collectors.instant := at_; Collectors.utcoffset := None |}.
Definition utc (at_ : Z) : Collectors.datetime :=
  {| Collectors.instant := at_; Collectors.utcoffset := Some 0%Z |}.

(** The same with an aware datetime, as [datetime.fromisoformat] builds it
    from a date that ends in [+00:00]; [source] names the collector's feed. *)
Definition aware_report (t : string) (at_ : Z) : Collectors.Story :=
  {| Collectors.id := t; Collectors.title := t; Collectors.url := t;
     Collectors.source := "api";
     Collectors.published_date :=
       {| Collectors.instant := at_; Collectors.utcoffset := Some 0%Z |};
     Collectors.content := ""; Collectors.description := "";
     Collectors.author := ""; Collectors.collector := "newsapi" |}.

(** The repository's [NLPProcessor] without spaCy and without scikit-learn
    (the [try] block of [calculate_similarity] raises), enumerating sets in
    first-seen order. *)
Definition basic_nlp : Correlators.nlp_processor :=
  {| Correlators.process_story := λ story, Some (NLP.process_story remove_dups story);
     Correlators.calculate_similarity := NLP.calculate_similarity (λ _ _, None) |}.

(** A processor whose [process_story] raises on a story without title. *)
Definition flaky_nlp : Correlators.nlp_processor :=
  {| Correlators.process_story := λ story,
       if decide (Collectors.title story = "") then None
       else Some (NLP.process_story remove_dups story);
     Correlators.calculate_similarity := NLP.calculate_similarity (λ _ _, None) |}.

(** * Properties *)

#[local] Set Warnings "-clear-no-such-hyp".

(** ** Lists, sets of indices and partitions *)

Section ListFacts.
Context {A : Type} `{Inhabited A}.
Implicit Types (l : list A) (a b : gset nat).

Lemma lookup_total_seq l : (λ i, l !!! i) <$> seq 0 (length l) = l.
Proof.
  apply list_eq. intros i. rewrite list_lookup_fmap.
  destruct (decide (i < length l)) as [Hi|Hi].
  - rewrite lookup_seq_lt by done. simpl.
    destruct (lookup_lt_is_Some_2 l i Hi) as [x Hx].
    rewrite Hx. f_equal. by apply list_lookup_total_correct.
  - rewrite lookup_seq_ge by lia. by rewrite lookup_ge_None_2 by lia.
Qed.

Lemma members_empty l : members l ∅ = [].
Proof. unfold members. by rewrite elements_empty. Qed.

Lemma members_add l j a : j ∉ a → members l ({[j]} ∪ a) ≡ₚ l !!! j :: members l a.
Proof. intros Hj. unfold members. by rewrite elements_union_singleton. Qed.

Lemma members_union l a b : a ## b → members l (a ∪ b) ≡ₚ members l a ++ members l b.
Proof.
  intros Hd. unfold members. rewrite elements_disj_union by done.
  by rewrite fmap_app.
Qed.

Lemma members_all l a : (∀ x, x ∈ a ↔ x < length l) → members l a ≡ₚ l.
Proof.
  intros Ha. unfold members.
  assert (elements a ≡ₚ seq 0 (length l)) as ->.
  { apply NoDup_Permutation.
    - apply NoDup_elements.
    - apply NoDup_seq.
    - intros x. rewrite elem_of_elements, elem_of_seq, Ha. lia. }
  by rewrite lookup_total_seq.
Qed.

Lemma concat_perm (l1 l2 : list (list A)) : l1 ≡ₚ l2 → concat l1 ≡ₚ concat l2.
Proof.
  induction 1 as [|x l l' _ IH|x y l|l l' l'' _ IH1 _ IH2]; simpl.
  - done.
  - by rewrite IH.
  - rewrite !(assoc_L (++)). by rewrite (Permutation_app_comm y x).
  - by rewrite IH1.
Qed.

Lemma elem_of_concat (x : A) (c : list A) (cs : list (list A)) :
  x ∈ c → c ∈ cs → x ∈ concat cs.
Proof.
  intros Hx. induction cs as [|c' cs IH]; intros Hc; [by inv Hc|].
  simpl. apply elem_of_app. apply elem_of_cons in Hc as [<-|Hc].
  - by left.
  - right. by apply IH.
Qed.

Lemma filter_none (P : A → Prop) `{!∀ x, Decision (P x)} l :
  (∀ x, x ∈ l → ¬ P x) → filter P l = [].
Proof.
  induction l as [|x l IH]; intros Hl; [done|].
  rewrite filter_cons, decide_False by (apply Hl; by left).
  apply IH. intros y Hy. apply Hl. by right.
Qed.

Lemma concat_bind_perm (f : list A → list (list A)) (l : list (list A)) :
  Forall (λ c, concat (f c) ≡ₚ c) l → concat (l ≫= f) ≡ₚ concat l.
Proof.
  induction 1 as [|c l Hc _ IH]; [done|].
  rewrite bind_cons, concat_app. simpl. by rewrite Hc, IH.
Qed.
End ListFacts.

Lemma foldl_pointwise {A B} (f g : A → B → A) (a : A) (l : list B) :
  (∀ a b, f a b = g a b) → foldl f a l = foldl g a l.
Proof.
  intros Hfg. revert a. induction l as [|b l IH]; intros a; simpl; [done|].
  by rewrite Hfg, IH.
Qed.

Lemma insert_desc_perm {A} (key : A → nat) (x : A) l : insert_desc key x l ≡ₚ x :: l.
Proof.
  induction l as [|d l IH]; simpl; [done|].
  case_match; [|done]. rewrite IH. apply Permutation_swap.
Qed.

Lemma sort_desc_perm {A} (key : A → nat) (l : list A) : sort_desc key l ≡ₚ l.
Proof.
  induction l as [|c l IH]; simpl; [done|].
  rewrite insert_desc_perm. by rewrite IH.
Qed.

(** ** Seeded growth ([src/processors/story_correlator.py]) *)

Module ProcessorsFacts.
Import Processors.

Section Growth.
Context (similarity : story → story → Q).
Context (stories : list story) (threshold : Q) (K : Z).

Lemma grow_spec i js cluster assigned :
  ∃ extra assigned',
    grow similarity stories threshold K i js cluster assigned
      = (cluster ++ extra, assigned')
    ∧ members stories assigned' ≡ₚ extra ++ members stories assigned
    ∧ assigned ⊆ assigned'
    ∧ (∀ x, x ∈ assigned' → x ∈ assigned ∨ x ∈ js)
    ∧ ((Z.of_nat (length cluster) ≤ Z.max K 1)%Z →
       (Z.of_nat (length (cluster ++ extra)) ≤ Z.max K 1)%Z).
Proof.
  revert cluster assigned.
  induction js as [|j js IH]; intros cluster assigned; simpl.
  { exists [], assigned. rewrite app_nil_r. set_solver. }
  case_decide as Hj.
  { destruct (IH cluster assigned) as (extra & a' & -> & ? & ? & Hin & ?).
    exists extra, a'. split_and!; try done.
    intros x Hx. destruct (Hin x Hx); [by left|right; by right]. }
  destruct (K <=? Z.of_nat (length cluster))%Z eqn:Hfull.
  { exists [], assigned. rewrite app_nil_r. set_solver. }
  destruct (Qgeb _ _).
  - destruct (IH (cluster ++ [stories !!! j]) ({[j]} ∪ assigned))
      as (extra & a' & -> & Hp & ? & Hin & Hlen).
    exists (stories !!! j :: extra), a'. split_and!.
    + by rewrite <-app_assoc.
    + rewrite Hp, members_add by done. simpl. by rewrite <-Permutation_middle.
    + set_solver.
    + intros x Hx. destruct (Hin x Hx) as [Hx'|Hx']; [|right; by right].
      apply elem_of_union in Hx' as [->%elem_of_singleton|?]; [right|]; by left.
    + intros Hc. rewrite (assoc_L (++) cluster [_] extra : cluster ++ _ :: extra = _).
      apply Hlen. rewrite length_app. simpl. apply Z.leb_gt in Hfull. lia.
  - destruct (IH cluster assigned) as (extra & a' & -> & ? & ? & Hin & ?).
    exists extra, a'. split_and!; try done.
    intros x Hx. destruct (Hin x Hx); [by left|right; by right].
Qed.

Lemma seed_loop_spec indices clusters assigned :
  (∀ x, x ∈ assigned → x < length stories) →
  (∀ x, x ∈ indices → x < length stories) →
  concat clusters ≡ₚ members stories assigned →
  Forall (bounded_cluster K) clusters →
  ∃ assigned',
    concat (seed_loop similarity stories threshold K indices clusters assigned)
      ≡ₚ members stories assigned'
    ∧ (∀ x, x ∈ assigned ∨ x ∈ indices → x ∈ assigned')
    ∧ (∀ x, x ∈ assigned' → x < length stories)
    ∧ Forall (bounded_cluster K)
        (seed_loop similarity stories threshold K indices clusters assigned).
Proof.
  revert clusters assigned.
  induction indices as [|i indices IH]; intros clusters assigned Ha Hi Hp Hwf; simpl.
  { exists assigned. split_and!; try done. intros x [?|Hx]; [done|]. inv Hx. }
  case_decide as Hin.
  { destruct (IH clusters assigned) as (a' & ? & Hsub & ? & ?); try done.
    - intros x Hx. apply Hi. by right.
    - exists a'. split_and!; try done.
      intros x [?|Hx]; [by apply Hsub; left|].
      apply elem_of_cons in Hx as [->|?]; apply Hsub; [by left|by right]. }
  destruct (grow_spec i (seq (S i) (length stories - S i)) [stories !!! i]
              ({[i]} ∪ assigned)) as (extra & a1 & -> & Hp1 & Hsub1 & Hin1 & Hlen1).
  destruct (IH (clusters ++ [[stories !!! i] ++ extra]) a1) as (a' & ? & Hsub & ? & ?).
  - intros x Hx. destruct (Hin1 x Hx) as [Hx'|Hx'].
    + apply elem_of_union in Hx' as [Hx'|Hx']; [|by apply Ha].
      apply elem_of_singleton in Hx' as ->. apply Hi. by left.
    + apply elem_of_seq in Hx'. lia.
  - intros x Hx. apply Hi. by right.
  - rewrite concat_app. simpl. rewrite app_nil_r.
    rewrite Hp1, members_add by done. rewrite Hp.
    rewrite (Permutation_app_comm extra). simpl.
    by rewrite Permutation_middle, Permutation_app_comm.
  - apply Forall_app. split; [done|]. apply Forall_singleton. split; [done|].
    apply Hlen1. simpl. lia.
  - exists a'. split_and!; try done.
    intros x [Hx|Hx].
    + apply Hsub. left. apply Hsub1. apply elem_of_union. by right.
    + apply elem_of_cons in Hx as [->|?]; apply Hsub; [left|by right].
      apply Hsub1. apply elem_of_union. left. by apply elem_of_singleton.
Qed.

Lemma seeded_clusters_spec :
  concat (seeded_clusters similarity stories threshold K) ≡ₚ stories
  ∧ Forall (bounded_cluster K)
      (seeded_clusters similarity stories threshold K).
Proof.
  destruct (seed_loop_spec (seq 0 (length stories)) [] ∅)
    as (a' & Hp & Hsub & Hlt & Hwf).
  - intros x Hx. by apply not_elem_of_empty in Hx.
  - intros x Hx. apply elem_of_seq in Hx. lia.
  - by rewrite members_empty.
  - constructor.
  - split; [|done]. unfold seeded_clusters. rewrite Hp.
    apply members_all. intros x. split; [apply Hlt|].
    intros Hx. apply Hsub. right. apply elem_of_seq. lia.
Qed.
End Growth.

Section Clusters.
Context (similarity : story → story → Q).

Lemma split_large_cluster_spec cluster higher_threshold K :
  cluster ≠ [] →
  concat (_split_large_cluster_with similarity cluster higher_threshold K)
    ≡ₚ cluster
  ∧ Forall (bounded_cluster K)
      (_split_large_cluster_with similarity cluster higher_threshold K).
Proof.
  intros Hne. unfold _split_large_cluster_with.
  destruct (Z.of_nat (length cluster) <=? K)%Z eqn:Hle.
  - simpl. rewrite app_nil_r. split; [done|].
    apply Forall_singleton. split; [done|]. apply Z.leb_le in Hle. lia.
  - apply seeded_clusters_spec.
Qed.

Lemma find_story_clusters_spec stories threshold K :
  concat (find_story_clusters_with similarity stories threshold K) ≡ₚ stories
  ∧ Forall (bounded_cluster K)
      (find_story_clusters_with similarity stories threshold K).
Proof.
  unfold find_story_clusters_with.
  destruct stories as [|s0 stories0]; [by split|].
  set (stories := s0 :: stories0).
  destruct (seeded_clusters_spec similarity stories threshold K) as [Hp Hb].
  set (clusters := sort_desc length _).
  assert (Forall (bounded_cluster K) clusters) as Hb'.
  { unfold clusters. by rewrite sort_desc_perm. }
  split.
  - rewrite concat_bind_perm.
    + unfold clusters. by rewrite (concat_perm _ _ (sort_desc_perm _ _)).
    + eapply Forall_impl; [exact Hb'|]. intros c [Hne _]. simpl.
      case_match; [by apply split_large_cluster_spec|].
      simpl. by rewrite app_nil_r.
  - apply Forall_bind. eapply Forall_impl; [exact Hb'|]. intros c Hc. simpl.
    case_match; [apply split_large_cluster_spec, Hc|]. by apply Forall_singleton.
Qed.
End Clusters.

End ProcessorsFacts.

(** ** Connected components ([src/correlators/story_correlator.py]) *)

Module CorrelatorsFacts.
Import Correlators.
Import NLP (StoryData).

Section Dfs.
Context (graph : gmap nat (gset nat)) (universe : gset nat).
Hypothesis graph_in_range : ∀ k nbrs, graph !! k = Some nbrs → nbrs ⊆ universe.

Lemma visit_all depth visited cur nbs :
  dfs_ok graph universe depth →
  ∀ D0, (∀ x, x ∈ nbs → x ∈ universe) → D0 ## visited → D0 ⊆ universe →
    size (universe ∖ (visited ∪ D0)) ≤ depth →
    ∃ D, foldl (visit graph depth) (Some (visited ∪ D0, cur ∪ D0)) nbs
           = Some (visited ∪ D, cur ∪ D)
         ∧ D0 ⊆ D ∧ D ## visited ∧ D ⊆ universe.
Proof.
  intros IH. induction nbs as [|nb nbs IHn]; intros D0 Hn Hd HU Hsz; simpl.
  { by exists D0. }
  case_decide as Hv.
  { apply IHn; try done. intros x Hx. apply Hn. by right. }
  destruct (IH nb (visited ∪ D0) (cur ∪ D0)) as (D' & -> & Hd' & Hnb & HU');
    [apply Hn; by left|done|done|].
  rewrite <-!(assoc_L (∪)).
  destruct (IHn (D0 ∪ D')) as (D & -> & ? & ? & ?).
  - intros x Hx. apply Hn. by right.
  - set_solver.
  - set_solver.
  - etrans; [|exact Hsz]. apply subseteq_size. set_solver.
  - exists D. set_solver.
Qed.

Lemma dfs_total depth : dfs_ok graph universe depth.
Proof.
  induction depth as [|depth IH]; intros node visited cur HnU Hnv Hsz.
  { assert (size (universe ∖ visited) = 0) as Hz by lia.
    apply size_empty_iff in Hz. set_solver. }
  simpl. fold (visit graph depth).
  replace ({[node]} ∪ visited) with (visited ∪ {[node]}) by set_solver.
  replace ({[node]} ∪ cur) with (cur ∪ {[node]}) by set_solver.
  destruct (visit_all depth visited cur
              (elements (default ∅ (graph !! node))) IH {[node]})
    as (D & -> & ? & ? & ?).
  - intros x Hx. apply elem_of_elements in Hx.
    destruct (graph !! node) as [nbrs|] eqn:Hg; simpl in Hx; [|set_solver].
    by apply (graph_in_range _ _ Hg).
  - set_solver.
  - set_solver.
  - assert (universe ∖ (visited ∪ {[node]}) ⊂ universe ∖ visited) as Hlt
      by set_solver.
    apply subset_size in Hlt. lia.
  - exists D. set_solver.
Qed.
End Dfs.

Section Components.
Context (processed_stories : list processed).
Let n := length processed_stories.

Lemma cluster_fold c0 (nodes : list nat) :
  (∀ x, x ∈ nodes → x < n) →
  ∃ c, foldl (λ acc node,
                cluster ← acc;
                ps ← processed_stories !! node;
                Some (add_story cluster ps)) (Some c0) nodes = Some c
       ∧ stories c = stories c0 ++ ((λ i, processed_stories !!! i) <$> nodes).
Proof.
  revert c0. induction nodes as [|x nodes IH]; intros c0 Hn; simpl.
  { exists c0. by rewrite app_nil_r. }
  destruct (lookup_lt_is_Some_2 processed_stories x) as [ps Hps].
  { apply Hn. by left. }
  rewrite Hps. simpl.
  destruct (IH (add_story c0 ps)) as (c & -> & Hc).
  { intros y Hy. apply Hn. by right. }
  exists c. split; [done|]. rewrite Hc. simpl. rewrite <-app_assoc. simpl.
  by rewrite (list_lookup_total_correct _ _ _ Hps).
Qed.

Lemma cluster_of_spec cid (nodes : gset nat) :
  (∀ x, x ∈ nodes → x < n) →
  ∃ c, cluster_of processed_stories cid nodes = Some c
       ∧ stories c = members processed_stories nodes.
Proof.
  intros Hn.
  destruct (cluster_fold (new_cluster cid) (elements nodes)) as (c & Hc & Hs).
  { intros x Hx. apply Hn. by apply elem_of_elements. }
  by exists c.
Qed.

Context (graph : gmap nat (gset nat)) (depth : nat).
Hypothesis graph_in_range :
  ∀ k nbrs, graph !! k = Some nbrs → nbrs ⊆ set_seq 0 n.
Hypothesis depth_enough : n ≤ depth.

Lemma component_loop indices visited clusters :
  visited ⊆ set_seq 0 n →
  (∀ x, x ∈ indices → x < n) →
  concat (stories <$> clusters) ≡ₚ members processed_stories visited →
  Forall (λ c, stories c ≠ []) clusters →
  ∃ visited' clusters',
    foldl (component_step depth graph processed_stories)
          (Some (visited, clusters)) indices = Some (visited', clusters')
    ∧ concat (stories <$> clusters') ≡ₚ members processed_stories visited'
    ∧ visited' ⊆ set_seq 0 n
    ∧ (∀ x, x ∈ visited ∨ x ∈ indices → x ∈ visited')
    ∧ Forall (λ c, stories c ≠ []) clusters'.
Proof.
  revert visited clusters.
  induction indices as [|i indices IH]; intros visited clusters Hv Hi Hp Hne; simpl.
  { exists visited, clusters. split_and!; try done. intros x [?|Hx]; [done|]. inv Hx. }
  case_decide as Hin.
  { destruct (IH visited clusters) as (v' & c' & -> & ? & ? & Hsub & ?); try done.
    - intros x Hx. apply Hi. by right.
    - exists v', c'. split_and!; try done.
      intros x [?|Hx]; [by apply Hsub; left|].
      apply elem_of_cons in Hx as [->|?]; apply Hsub; [by left|by right]. }
  destruct (dfs_total graph (set_seq 0 n) graph_in_range depth i visited ∅)
    as (D & -> & Hd & HiD & HDU).
  { apply elem_of_set_seq. split; [lia|]. apply Hi. by left. }
  { done. }
  { etrans; [|exact depth_enough].
    etrans; [apply (subseteq_size _ (set_seq 0 n)); set_solver|].
    by rewrite size_set_seq. }
  simpl. rewrite (left_id_L ∅ (∪)).
  destruct (cluster_of_spec (length clusters) D) as (c & -> & Hc).
  { intros x Hx. apply HDU, elem_of_set_seq in Hx. lia. }
  simpl.
  destruct (IH (visited ∪ D) (clusters ++ [c]))
    as (v' & c' & -> & ? & ? & Hsub & ?).
  - set_solver.
  - intros x Hx. apply Hi. by right.
  - rewrite fmap_app, concat_app. simpl. rewrite app_nil_r.
    rewrite Hp, Hc. symmetry. apply members_union. set_solver.
  - apply Forall_app. split; [done|]. apply Forall_singleton.
    rewrite Hc. unfold members. intros Hnil. apply fmap_nil_inv in Hnil.
    apply elements_empty_inv in Hnil. set_solver.
  - exists v', c'. split_and!; try done.
    intros x [Hx|Hx].
    + apply Hsub. left. set_solver.
    + apply elem_of_cons in Hx as [->|?]; apply Hsub; [left|by right]. set_solver.
Qed.
End Components.

Lemma build_graph_in_range n relationships :
  in_range n relationships →
  ∀ k nbrs, build_graph relationships !! k = Some nbrs → nbrs ⊆ set_seq 0 n.
Proof.
  unfold build_graph.
  assert (∀ g : gmap nat (gset nat),
    (∀ k nbrs, g !! k = Some nbrs → nbrs ⊆ set_seq 0 n) →
    in_range n relationships →
    ∀ k nbrs, foldl add_edge g relationships !! k = Some nbrs → nbrs ⊆ set_seq 0 n)
    as Hgen.
  { induction relationships as [|[[i j] s] rels IH]; intros g Hg Hr; simpl; [done|].
    apply Forall_cons in Hr as [[Hi Hj] Hr]. simpl in Hi, Hj.
    apply IH; [|done].
    assert (∀ k, default ∅ (g !! k) ⊆ set_seq (C:=gset nat) 0 n) as Hdef.
    { intros k. destruct (g !! k) eqn:Hk; simpl; [by eapply Hg|set_solver]. }
    assert ({[j]} ∪ default ∅ (g !! i) ⊆ set_seq (C:=gset nat) 0 n) as Hi'.
    { apply union_least; [|done]. apply singleton_subseteq_l, elem_of_set_seq. lia. }
    intros k nbrs. rewrite lookup_insert. case_decide as Hkj.
    - intros [= <-]. apply union_least.
      + apply singleton_subseteq_l, elem_of_set_seq. lia.
      + rewrite lookup_insert. case_decide; simpl; [done|apply Hdef].
    - rewrite lookup_insert. case_decide; [by intros [= <-]|apply Hg]. }
  apply Hgen. intros k nbrs. by rewrite lookup_empty.
Qed.

Lemma stories_singletons (ps : list processed) k :
  concat (stories <$> imap (λ i p, add_story (new_cluster (k + i)) p) ps) = ps
  ∧ Forall (λ c, stories c ≠ [])
      (imap (λ i p, add_story (new_cluster (k + i)) p) ps).
Proof.
  revert k. induction ps as [|p ps IH]; intros k; simpl; [done|].
  destruct (IH (S k)) as [Hc Hf]. split.
  - f_equal. rewrite <-Hc at 2. do 2 f_equal.
    apply imap_ext. intros i x _. simpl. do 2 f_equal. lia.
  - constructor; [done|].
    erewrite imap_ext; [exact Hf|]. intros i x _. simpl. do 2 f_equal. lia.
Qed.

Lemma create_clusters_partition depth processed_stories relationships :
  in_range (length processed_stories) relationships →
  length processed_stories ≤ depth →
  ∃ clusters,
    _create_clusters depth processed_stories relationships = Some clusters
    ∧ is_partition processed_stories (stories <$> clusters).
Proof.
  intros Hr Hd. unfold _create_clusters.
  destruct relationships as [|r rels].
  { eexists. split; [done|].
    destruct (stories_singletons processed_stories 0) as [Hc Hf].
    simpl in Hc, Hf. split; [by rewrite Hc|]. by apply Forall_fmap. }
  set (relationships := r :: rels) in *.
  destruct (component_loop processed_stories (build_graph relationships) depth
              (build_graph_in_range _ _ Hr) Hd
              (seq 0 (length processed_stories)) ∅ [])
    as (v' & c' & -> & Hp & Hv & Hsub & Hne).
  - set_solver.
  - intros x Hx. apply elem_of_seq in Hx. lia.
  - by rewrite members_empty.
  - constructor.
  - simpl. eexists. split; [done|]. split.
    + rewrite (concat_perm _ (stories <$> c')) by (by rewrite sort_desc_perm).
      rewrite Hp. apply members_all. intros x. split.
      * intros Hx. apply Hv, elem_of_set_seq in Hx. lia.
      * intros Hx. apply Hsub. right. apply elem_of_seq. lia.
    + apply Forall_fmap. by rewrite sort_desc_perm.
Qed.

Section Relationships.
Context (nlp : nlp_processor) (similarity_threshold : Q).

(** When the scores are returned: for dates on the same time line. *)
Lemma temporal_similarity_is_Some date1 date2 :
  is_Some (_temporal_similarity date1 date2) ↔ aware date1 = aware date2.
Proof.
  unfold _temporal_similarity, sub_datetime.
  destruct (aware date1), (aware date2); simpl; split; intros H;
    try done; try (by eexists); by destruct H.
Qed.

Lemma calculate_story_similarity_is_Some story1 story2 :
  is_Some (_calculate_story_similarity nlp story1 story2)
  ↔ aware (published_date story1.1) = aware (published_date story2.1).
Proof.
  rewrite <-temporal_similarity_is_Some. unfold _calculate_story_similarity.
  destruct (_temporal_similarity _ _); simpl; [|done].
  split; intros _; by eexists.
Qed.

Lemma pairs_from_is_Some i story1 j rest :
  is_Some (pairs_from nlp similarity_threshold i story1 j rest)
  ↔ Forall (λ story2, aware (published_date story1.1)
                      = aware (published_date story2.1)) rest.
Proof.
  revert j. induction rest as [|story2 rest IH]; intros j; simpl.
  { split; [done|]. intros _. by eexists. }
  rewrite Forall_cons, <-(IH (S j)), <-calculate_story_similarity_is_Some.
  destruct (_calculate_story_similarity nlp story1 story2); simpl.
  - destruct (pairs_from nlp similarity_threshold i story1 (S j) rest); simpl.
    + split; [|by eexists]. intros _. split; by eexists.
    + split; [by intros []|]. by intros [_ []].
  - split; [by intros []|]. by intros [[] _].
Qed.

Lemma comparable_cons date dates :
  comparable (date :: dates)
  ↔ Forall (λ date', aware date = aware date') dates.
Proof.
  split.
  - intros [a [Ha Hall]%Forall_cons]. eapply Forall_impl; [exact Hall|].
    simpl. intros date' ->. done.
  - intros Hall. exists (aware date). apply Forall_cons. split; [done|].
    eapply Forall_impl; [exact Hall|]. by intros date' ->.
Qed.

Lemma comparable_tail date dates : comparable (date :: dates) → comparable dates.
Proof. intros [a [_ Hall]%Forall_cons]. by exists a. Qed.

Lemma relationships_from_is_Some i ps :
  is_Some (relationships_from nlp similarity_threshold i ps)
  ↔ comparable (dates_of ps).
Proof.
  revert i. induction ps as [|story1 rest IH]; intros i.
  { simpl. split; [|by eexists]. intros _. exists true. constructor. }
  change (dates_of (story1 :: rest))
    with (published_date story1.1 :: dates_of rest).
  rewrite comparable_cons.
  pose proof (pairs_from_is_Some i story1 (S i) rest) as Hp.
  specialize (IH (S i)).
  assert (Forall (λ date', aware (published_date story1.1) = aware date')
            (dates_of rest)
          ↔ Forall (λ story2, aware (published_date story1.1)
                              = aware (published_date story2.1)) rest) as ->
    by (unfold dates_of; apply Forall_fmap).
  cbn [relationships_from].
  destruct (pairs_from nlp similarity_threshold i story1 (S i) rest); simpl.
  - destruct (relationships_from nlp similarity_threshold (S i) rest); simpl.
    + split; [|by eexists]. intros _. apply Hp. by eexists.
    + split; [by intros []|]. intros Hall.
      apply IH. apply (comparable_tail (published_date story1.1)).
      apply comparable_cons. unfold dates_of. by apply Forall_fmap.
  - split; [by intros []|]. intros Hall. by apply Hp.
Qed.

Lemma find_relationships_is_Some ps :
  is_Some (_find_relationships nlp similarity_threshold ps)
  ↔ comparable (dates_of ps).
Proof. apply (relationships_from_is_Some 0). Qed.

(** What is returned relates positions of the list. *)
Lemma pairs_from_range i s1 j rest relationships :
  pairs_from nlp similarity_threshold i s1 j rest = Some relationships →
  Forall (λ r, r.1.1 = i ∧ j ≤ r.1.2 < j + length rest) relationships.
Proof.
  revert j relationships.
  induction rest as [|s2 rest IH]; intros j relationships; simpl.
  { by intros [= <-]. }
  destruct (_calculate_story_similarity nlp s1 s2) as [similarity|];
    simpl; [|done].
  destruct (pairs_from nlp similarity_threshold i s1 (S j) rest)
    as [later|] eqn:Hlater; simpl; [|done].
  intros [= <-]. apply Forall_app. split.
  - destruct (Qgeb _ _); [|done]. apply Forall_singleton. simpl. lia.
  - eapply Forall_impl; [by apply IH|]. simpl. intros r ?. lia.
Qed.

Lemma relationships_from_range i ps relationships :
  relationships_from nlp similarity_threshold i ps = Some relationships →
  Forall (λ r, r.1.1 < i + length ps ∧ r.1.2 < i + length ps) relationships.
Proof.
  revert i relationships.
  induction ps as [|s1 rest IH]; intros i relationships; simpl.
  { by intros [= <-]. }
  destruct (pairs_from nlp similarity_threshold i s1 (S i) rest)
    as [pairs|] eqn:Hpairs; simpl; [|done].
  destruct (relationships_from nlp similarity_threshold (S i) rest)
    as [later|] eqn:Hlater; simpl; [|done].
  intros [= <-]. apply Forall_app. split.
  - eapply Forall_impl; [by eapply pairs_from_range|]. simpl. intros r ?. lia.
  - eapply Forall_impl; [by apply IH|]. simpl. intros r ?. lia.
Qed.

Lemma find_relationships_in_range ps relationships :
  _find_relationships nlp similarity_threshold ps = Some relationships →
  in_range (length ps) relationships.
Proof. apply (relationships_from_range 0). Qed.

Lemma processed_of_length input :
  length (processed_of nlp input) ≤ length input.
Proof.
  induction input as [|s input IH]; simpl; [done|].
  unfold processed_of in *. simpl. destruct (process_story nlp s); simpl; lia.
Qed.

Lemma find_related_stories_spec depth input :
  length input ≤ depth →
  comparable (dates_of (processed_of nlp input)) →
  ∃ clusters,
    find_related_stories nlp similarity_threshold depth input = Some clusters
    ∧ is_partition (processed_of nlp input) (stories <$> clusters).
Proof.
  intros Hd Hdates. unfold find_related_stories.
  destruct input as [|s0 input0]; [by eexists|].
  fold (processed_of nlp (s0 :: input0)).
  apply find_relationships_is_Some in Hdates as [relationships Hrel].
  rewrite Hrel. cbn [mbind option_bind].
  apply create_clusters_partition.
  - by eapply find_relationships_in_range.
  - etrans; [apply processed_of_length|done].
Qed.

(** A naive and an aware date among the processed stories end the run:
    the [TypeError] of [_temporal_similarity] is caught nowhere. *)
Lemma find_related_stories_raises depth input :
  ¬ comparable (dates_of (processed_of nlp input)) →
  find_related_stories nlp similarity_threshold depth input = None.
Proof.
  intros Hdates. unfold find_related_stories.
  destruct input as [|s0 input0].
  { destruct Hdates. exists true. constructor. }
  fold (processed_of nlp (s0 :: input0)).
  destruct (_find_relationships nlp similarity_threshold
              (processed_of nlp (s0 :: input0))) as [relationships|] eqn:Hrel;
    [|done].
  destruct Hdates. apply find_relationships_is_Some. by eexists.
Qed.
End Relationships.

End CorrelatorsFacts.

(** ** The entity/regex score *)

Module ScoreFacts.
Import Processors.

Lemma Zpos_of_nat (b : nat) : 1 ≤ b → Z.pos (Pos.of_nat b) = Z.of_nat b.
Proof.
  intros Hb. rewrite <-positive_nat_Z. f_equal. apply Nat2Pos.id. lia.
Qed.

Lemma ratio_le_1 a b : a ≤ b → 1 ≤ b → (ratio a b <= 1)%Q.
Proof.
  intros Hab Hb. unfold ratio, Qle. simpl. rewrite Zpos_of_nat by done. lia.
Qed.

Lemma ratio_ge_1 a b : 1 ≤ b → (1 <= ratio a b)%Q → b ≤ a.
Proof.
  intros Hb. unfold ratio, Qle. simpl. rewrite Zpos_of_nat by done. lia.
Qed.



Lemma ratio_self a : 1 ≤ a → (ratio a a == 1)%Q.
Proof.
  intros Ha. unfold ratio, Qeq. simpl. rewrite Zpos_of_nat by done. lia.
Qed.

Lemma Qltb_true x y : Qltb x y = true ↔ (x < y)%Q.
Proof.
  unfold Qltb. rewrite negb_true_iff, <-not_true_iff_false, Qle_bool_iff.
  split; [apply Qnot_le_lt|apply Qlt_not_le].
Qed.

Lemma Qltb_false x y : Qltb x y = false ↔ (y <= x)%Q.
Proof. unfold Qltb. by rewrite negb_false_iff, Qle_bool_iff. Qed.

Lemma scaled_le_weight (o : Q) : ((3 # 10) * o <= 3 # 10)%Q ↔ (o <= 1)%Q.
Proof. destruct o as [n d]. unfold Qle, Qmult. simpl. lia. Qed.

Lemma weight_le_scaled (o : Q) : (3 # 10 <= (3 # 10) * o)%Q ↔ (1 <= o)%Q.
Proof. destruct o as [n d]. unfold Qle, Qmult. simpl. lia. Qed.

Lemma Qsum_from (a : Q) (l : list Q) :
  Forall (λ q, q == 1)%Q l →
  (foldl Qplus a l == a + inject_Z (Z.of_nat (length l)))%Q.
Proof.
  revert a. induction l as [|q l IH]; intros a Hl; simpl.
  { unfold inject_Z. ring. }
  apply Forall_cons in Hl as [Hq Hl]. rewrite IH by done. rewrite Hq.
  rewrite Nat2Z.inj_succ, <-Z.add_1_l, inject_Z_plus. ring.
Qed.

(** *** The loop over the entity types *)

Section Dimensions.
Context (entities1 entities2 : list (string * gset string)).

Lemma dimension_step_sym st entity_type :
  dimension_step entities1 entities2 st entity_type
  = dimension_step entities2 entities1 st entity_type.
Proof.
  unfold dimension_step.
  rewrite (comm_L (∩) (entities_get entities1 _)),
          (comm_L (∪) (entities_get entities1 _)).
  by rewrite andb_comm.
Qed.

Lemma dimensions_fold (P : nat * list Q → Prop) st types :
  P st →
  (∀ st t, P st → P (dimension_step entities1 entities2 st t)) →
  P (foldl (dimension_step entities1 entities2) st types).
Proof.
  intros Hst Hstep. revert st Hst.
  induction types as [|t types IH]; intros st Hst; simpl; [done|].
  by apply IH, Hstep.
Qed.

Lemma dimensions_length :
  (dimensions entities1 entities2).1 = length (dimensions entities1 entities2).2.
Proof.
  apply (dimensions_fold (λ st, st.1 = length st.2)); [done|].
  intros [m scores] t Hst. unfold dimension_step. simpl in *.
  repeat case_match; simpl; try done. rewrite length_app. simpl. lia.
Qed.
End Dimensions.

Lemma dimensions_sym entities1 entities2 :
  dimensions entities1 entities2 = dimensions entities2 entities1.
Proof.
  unfold dimensions. apply foldl_pointwise. intros st t. apply dimension_step_sym.
Qed.

Lemma dimensions_self entities :
  Forall (λ q, q == 1)%Q (dimensions entities entities).2.
Proof.
  apply (dimensions_fold entities entities (λ st, Forall (λ q, q == 1)%Q st.2));
    [done|].
  intros [m scores] t Hst. unfold dimension_step. simpl in *.
  rewrite (idemp_L (∩)), (idemp_L (∪)).
  repeat case_match; simpl; try done.
  apply Forall_app. split; [done|]. apply Forall_singleton.
  apply ratio_self. by apply Nat.ltb_lt.
Qed.

Lemma extract_entities_entries text :
  Forall (λ p, p.1 ∈ entity_patterns.*1 ∧ p.2 ≠ ∅) (extract_entities text).
Proof.
  unfold extract_entities. generalize entity_patterns as patterns.
  induction patterns as [|[t pattern] patterns IH]; simpl; [done|].
  destruct (Re.findall true pattern text) as [|m matches]; simpl.
  - eapply Forall_impl; [exact IH|]. intros p [? ?]. split; [by right|done].
  - constructor.
    + simpl. split; [by left|]. set_solver.
    + eapply Forall_impl; [exact IH|]. intros p [? ?]. split; [by right|done].
Qed.

Lemma self_count_grows entities t types st :
  t ∈ types → entities_get entities t ≠ ∅ →
  st.1 < (foldl (dimension_step entities entities) st types).1.
Proof.
  intros Ht Hne. revert st.
  induction types as [|t' types IH]; intros st; simpl; [by inv Ht|].
  apply elem_of_cons in Ht as [<-|Ht].
  - eapply Nat.lt_le_trans;
      [|apply (dimensions_fold entities entities (λ st', _ ≤ st'.1));
        [reflexivity|]].
    + unfold dimension_step. rewrite (idemp_L (∩)), (idemp_L (∪)).
      rewrite !bool_decide_eq_true_2 by done. simpl.
      assert (size (entities_get entities t) ≠ 0)
        by (by intros ?%size_empty_iff%leibniz_equiv).
      destruct (0 <? size (entities_get entities t)) eqn:Hs; simpl; [lia|].
      apply Nat.ltb_ge in Hs. lia.
    + intros st' t'' Hle. etrans; [exact Hle|].
      unfold dimension_step. repeat case_match; simpl; lia.
  - eapply Nat.le_lt_trans; [|by apply IH].
    unfold dimension_step. repeat case_match; simpl; lia.
Qed.

Lemma self_dimensions_grow entities types :
  Forall (λ p, p.1 ∈ types ∧ p.2 ≠ ∅) entities →
  (foldl (dimension_step entities entities) (0, []) types).1 = 0 →
  entities = [].
Proof.
  intros He Hz. destruct entities as [|[t es] rest]; [done|].
  apply Forall_cons in He as [[Ht Hne] _].
  pose proof (self_count_grows ((t, es) :: rest) t types (0, []) Ht) as Hlt.
  simpl in Hlt. rewrite decide_True in Hlt by done.
  specialize (Hlt Hne). simpl in Hz. lia.
Qed.

Lemma no_entities_no_dimension st types :
  foldl (dimension_step [] []) st types = st.
Proof.
  revert st. induction types as [|t types IH]; intros st; simpl; [done|].
  rewrite IH. unfold dimension_step. simpl.
  by rewrite bool_decide_eq_false_2 by (by intros []).
Qed.

(** Scored against itself, a text matches no dimension exactly when no
    entity was extracted from it. *)
Lemma self_dimensions_zero text :
  (dimensions (extract_entities text) (extract_entities text)).1 = 0
  ↔ extract_entities text = [].
Proof.
  split.
  - apply self_dimensions_grow, extract_entities_entries.
  - intros ->. unfold dimensions. by rewrite no_entities_no_dimension.
Qed.

(** *** Word overlap *)

Section Overlap.
Context (words1 words2 : gset string).

Lemma word_overlap_sym : word_overlap words1 words2 = word_overlap words2 words1.
Proof.
  unfold word_overlap. by rewrite (comm_L (∩) words1), (comm_L (∪) words1).
Qed.

Lemma word_overlap_le_1 : (word_overlap words1 words2 <= 1)%Q.
Proof.
  unfold word_overlap. apply ratio_le_1; [|lia].
  etrans; [apply (subseteq_size _ (words1 ∪ words2)); set_solver|]. lia.
Qed.


(** The overlap is 1 exactly for two equal, non-empty word sets. *)
Lemma word_overlap_1 :
  (1 <= word_overlap words1 words2)%Q ↔ words1 = words2 ∧ words1 ≠ ∅.
Proof.
  unfold word_overlap. split.
  - intros Hge. apply ratio_ge_1 in Hge; [|lia].
    assert (words1 ∩ words2 = words1 ∪ words2) as Heq.
    { apply set_subseteq_size_eq; [set_solver|].
      etrans; [apply Nat.le_max_l|exact Hge]. }
    split; [set_solver|].
    intros ->. rewrite (left_id_L ∅ (∪)), (left_absorb_L ∅ (∩)) in Hge.
    rewrite size_empty in Hge. lia.
  - intros [<- Hne]. rewrite (idemp_L (∩)), (idemp_L (∪)).
    assert (size words1 ≠ 0) by (by intros ?%size_empty_iff%leibniz_equiv).
    rewrite Nat.max_l by lia. rewrite ratio_self by lia. done.
Qed.
End Overlap.

(** *** The gate and the weighted sum *)

Lemma combine_gate_closed dims overlap :
  dims.1 < 2 → (overlap < 1 # 2)%Q → combine dims overlap = 0%Q.
Proof.
  intros Hd Ho. unfold combine.
  apply Nat.ltb_lt in Hd. apply Qltb_true in Ho. by rewrite Hd, Ho.
Qed.

Lemma combine_gate_open dims overlap :
  (1 # 2 <= overlap)%Q →
  combine dims overlap
  = (match dims.2 with
     | [] => 0
     | _ => Qsum dims.2 / inject_Z (Z.of_nat (length dims.2))
     end * (7 # 10) + overlap * (3 # 10))%Q.
Proof.
  intros Ho. unfold combine. apply Qltb_false in Ho. by rewrite Ho, andb_false_r.
Qed.

(** A story scored against itself, when it has at least one word. *)
Lemma self_similarity (s : story) :
  words (story_text s) ≠ ∅ →
  (calculate_story_similarity s s
   == if decide ((dimensions (extract_entities (story_text s))
                             (extract_entities (story_text s))).1 = 0%nat)
      then 3 # 10 else 1)%Q.
Proof.
  intros Hw. unfold calculate_story_similarity.
  set (e := extract_entities _). set (w := words _) in *.
  assert (word_overlap w w == 1)%Q as Ho.
  { apply Qle_antisym; [apply word_overlap_le_1|]. by apply word_overlap_1. }
  rewrite combine_gate_open by (rewrite Ho; done).
  pose proof (dimensions_length e e) as Hlen.
  pose proof (dimensions_self e) as Hones.
  destruct (dimensions e e) as [m scores]. simpl in *. subst m.
  destruct scores as [|q scores]; simpl.
  { rewrite Ho. done. }
  change (foldl Qplus (0 + q)%Q scores) with (Qsum (q :: scores)).
  unfold Qsum. rewrite Qsum_from by done. rewrite Ho.
  change (Z.pos (Pos.of_succ_nat (length scores)))
    with (Z.of_nat (length (q :: scores))).
  rewrite Qplus_0_l. unfold Qdiv. rewrite Qmult_inv_r; [done|].
  unfold inject_Z, Qeq. simpl. lia.
Qed.

End ScoreFacts.

(** ** The connection index *)

Module ConnectionFacts.
Import Processors.

Lemma split_entity_key t x :
  colon_free t → split_once ":" (entity_key t x) = [t; x].
Proof.
  unfold entity_key. induction t as [|c t IH]; simpl.
  { by intros _. }
  intros [Hc Ht]%andb_prop_elim. apply negb_prop_elim in Hc.
  rewrite decide_False by (intros ->; apply Hc; by apply bool_decide_pack).
  by rewrite (IH Ht).
Qed.

Lemma entity_key_inj t x t' x' :
  colon_free t → colon_free t' → entity_key t x = entity_key t' x' →
  t = t' ∧ x = x'.
Proof.
  intros Ht Ht' Heq. apply (f_equal (split_once ":")) in Heq.
  rewrite !split_entity_key in Heq by done. by simplify_eq.
Qed.

Lemma entity_types :
  entity_patterns.*1
  = ["countries"; "threat_actors"; "malware"; "vulnerabilities"; "techniques";
     "sectors"; "tech"; "cyber_ops"; "supply_chain"; "economic"; "military"].
Proof. reflexivity. Qed.

Lemma entity_patterns_well_typed :
  NoDup entity_patterns.*1 ∧ Forall (λ t, colon_free t) entity_patterns.*1.
Proof.
  rewrite entity_types. split.
  - apply (bool_decide_unpack _). by vm_compute.
  - repeat constructor.
Qed.

Lemma extract_entities_types text :
  (extract_entities text).*1 `sublist_of` entity_patterns.*1.
Proof.
  unfold extract_entities. generalize entity_patterns as patterns.
  induction patterns as [|[t pattern] patterns IH]; simpl; [done|].
  destruct (Re.findall true pattern text); simpl.
  - by apply sublist_cons.
  - by apply sublist_skip.
Qed.

Lemma extract_entities_well_typed text : well_typed (extract_entities text).
Proof.
  destruct entity_patterns_well_typed as [Hnd Hcf].
  pose proof (extract_entities_types text) as Hsub. split.
  - by eapply sublist_NoDup.
  - rewrite Forall_forall in Hcf |- *. intros t Ht.
    apply Hcf. by eapply elem_of_sublist.
Qed.

Lemma elem_of_keys_of entities key :
  key ∈ keys_of entities
  ↔ ∃ t es x, (t, es) ∈ entities ∧ x ∈ es ∧ key = entity_key t x.
Proof.
  unfold keys_of. rewrite list_elem_of_bind. split.
  - intros ([t es] & Hk & Hp). simpl in Hk.
    apply list_elem_of_fmap in Hk as (x & -> & Hx%elem_of_elements).
    by exists t, es, x.
  - intros (t & es & x & Hp & Hx & ->). exists (t, es). split; [|done].
    simpl. apply list_elem_of_fmap_2. by apply elem_of_elements.
Qed.

Lemma entities_get_elem entities t es :
  NoDup entities.*1 → (t, es) ∈ entities → entities_get entities t = es.
Proof.
  induction entities as [|[t' es'] entities IH]; simpl; [by intros _ ?%elem_of_nil|].
  intros [Hnotin Hnd]%NoDup_cons [Heq|Hin]%elem_of_cons.
  - simplify_eq. by rewrite decide_True.
  - rewrite decide_False; [by apply IH|].
    intros ->. apply Hnotin. by apply (list_elem_of_fmap_2 fst _ (t, es)).
Qed.

Lemma entities_get_missing entities t :
  t ∉ entities.*1 → entities_get entities t = ∅.
Proof.
  induction entities as [|[t' es'] entities IH]; simpl; [done|].
  intros Hnotin. rewrite decide_False; [apply IH|]; set_solver.
Qed.

Lemma elem_of_entities_get entities t x :
  NoDup entities.*1 →
  x ∈ entities_get entities t ↔ ∃ es, (t, es) ∈ entities ∧ x ∈ es.
Proof.
  intros Hnd. split.
  - intros Hx. destruct (decide (t ∈ entities.*1)) as [Hin|Hout].
    + apply list_elem_of_fmap in Hin as ([t' es] & -> & Hin). simpl in *.
      exists es. split; [done|]. by rewrite (entities_get_elem _ _ es) in Hx.
    + rewrite entities_get_missing in Hx by done. set_solver.
  - intros (es & Hin & Hx). by rewrite (entities_get_elem _ _ es).
Qed.

Lemma keys_of_lookup entities t x :
  well_typed entities → colon_free t →
  entity_key t x ∈ keys_of entities ↔ x ∈ entities_get entities t.
Proof.
  intros [Hnd Hcf] Ht.
  rewrite elem_of_keys_of, elem_of_entities_get by done. split.
  - intros (t' & es & x' & Hin & Hx & Heq).
    apply entity_key_inj in Heq as [-> ->]; [by exists es|done|].
    rewrite Forall_forall in Hcf. apply Hcf.
    by apply (list_elem_of_fmap_2 fst _ (t', es)).
  - intros (es & Hin & Hx). by exists t, es, x.
Qed.

Lemma keys_of_colon_free entities key :
  well_typed entities → key ∈ keys_of entities →
  ∃ t x, colon_free t ∧ key = entity_key t x.
Proof.
  intros [_ Hcf] (t & es & x & Hin & _ & ->)%elem_of_keys_of.
  exists t, x. split; [|done]. rewrite Forall_forall in Hcf. apply Hcf.
  by apply (list_elem_of_fmap_2 fst _ (t, es)).
Qed.

Lemma keys_of_NoDup entities : well_typed entities → NoDup (keys_of entities).
Proof.
  unfold keys_of.
  induction entities as [|[t es] entities IH]; intros [Hnd Hcf]; [constructor|].
  simpl in *. apply NoDup_cons in Hnd as [Hnotin Hnd].
  apply Forall_cons in Hcf as [Ht Hcf].
  apply NoDup_app. split_and!.
  - apply NoDup_fmap_2; [|apply NoDup_elements].
    intros x x' Heq. by apply entity_key_inj in Heq as [_ ->].
  - intros key (x & -> & _)%list_elem_of_fmap
      (t' & es' & x' & Hin & _ & Heq)%elem_of_keys_of.
    apply entity_key_inj in Heq as [-> _]; [|done|].
    + apply Hnotin. by apply (list_elem_of_fmap_2 fst _ (t', es')).
    + rewrite Forall_forall in Hcf. apply Hcf.
      by apply (list_elem_of_fmap_2 fst _ (t', es')).
  - by apply IH.
Qed.

(** *** The entity map *)

Lemma index_story_keys entity_map s :
  index_story entity_map s
  = foldl (append_story s) entity_map (keys_of (extract_entities (story_text s))).
Proof.
  unfold index_story, keys_of.
  generalize (extract_entities (story_text s)) as entities. intros entities.
  revert entity_map.
  induction entities as [|[t es] entities IH]; intros entity_map; simpl; [done|].
  rewrite foldl_app, foldl_fmap. apply IH.
Qed.

Lemma append_story_all s keys (entity_map : gmap string (list story)) key :
  NoDup keys →
  foldl (append_story s) entity_map keys !! key
  = if decide (key ∈ keys) then Some (default [] (entity_map !! key) ++ [s])
    else entity_map !! key.
Proof.
  revert entity_map.
  induction keys as [|k keys IH]; intros entity_map Hnd.
  { done. }
  apply NoDup_cons in Hnd as [Hk Hnd].
  change (foldl (append_story s) entity_map (k :: keys))
    with (foldl (append_story s) (append_story s entity_map k) keys).
  rewrite IH by done. unfold append_story.
  destruct (decide (key = k)) as [->|Hne].
  - rewrite lookup_insert_eq.
    destruct (decide (k ∈ keys)); [done|].
    destruct (decide (k ∈ k :: keys)) as [_|Hout]; [done|].
    exfalso. apply Hout. by left.
  - rewrite lookup_insert_ne by done.
    destruct (decide (key ∈ keys)) as [Hin|Hout],
             (decide (key ∈ k :: keys)) as [Hin'|Hout']; try done.
    + exfalso. apply Hout'. by right.
    + by apply elem_of_cons in Hin' as [?|?].
Qed.

Lemma entity_map_fold stories (entity_map : gmap string (list story)) key :
  foldl index_story entity_map stories !! key
  = match filter (hits key) stories with
    | [] => entity_map !! key
    | l => Some (default [] (entity_map !! key) ++ l)
    end.
Proof.
  revert entity_map.
  induction stories as [|s stories IH]; intros entity_map; simpl; [done|].
  rewrite IH, index_story_keys,
    append_story_all by apply keys_of_NoDup, extract_entities_well_typed.
  rewrite filter_cons. fold (hits key s).
  destruct (decide (hits key s)) as [Hh|Hh]; [|done].
  simpl. destruct (filter (hits key) stories); [done|].
  by rewrite <-app_assoc.
Qed.

Lemma build_entity_map_lookup stories key :
  build_entity_map stories !! key
  = match filter (hits key) stories with
    | [] => None
    | l => Some l
    end.
Proof.
  unfold build_entity_map. rewrite entity_map_fold, lookup_empty.
  by destruct (filter _ _).
Qed.

Lemma build_entity_map_keys stories key l :
  build_entity_map stories !! key = Some l →
  ∃ t x, colon_free t ∧ key = entity_key t x.
Proof.
  rewrite build_entity_map_lookup.
  destruct (filter (hits key) stories) as [|s l'] eqn:Hf; [done|]. intros _.
  assert (s ∈ filter (hits key) stories) as [Hs _]%list_elem_of_filter
    by (rewrite Hf; by left).
  by eapply keys_of_colon_free; [apply extract_entities_well_typed|].
Qed.

(** *** The loop over the entity map *)

Lemma connect_lookup (connections : gmap string (gmap string connection)) key l :
  (∃ t x, colon_free t ∧ key = entity_key t x) →
  ∃ connections',
    connect (Some connections) (key, l) = Some connections'
    ∧ ∀ t x,
        connection_of connections' t x
        = if decide (colon_free t ∧ key = entity_key t x ∧ 1 < length l)
          then Some (Connection (length l) l)
          else connection_of connections t x.
Proof.
  intros (t0 & x0 & Ht0 & ->). simpl.
  destruct (1 <? length l) eqn:Hlen.
  - apply Nat.ltb_lt in Hlen. rewrite split_entity_key by done.
    eexists. split; [done|]. intros t x. unfold connection_of.
    destruct (decide (t = t0)) as [->|Hne].
    + rewrite lookup_insert_eq. simpl.
      destruct (decide (x = x0)) as [->|Hnx].
      * rewrite lookup_insert_eq. by rewrite decide_True.
      * rewrite lookup_insert_ne by done.
        rewrite decide_False.
        -- by destruct (connections !! t0).
        -- intros (_ & Heq & _). by apply entity_key_inj in Heq as [_ ->].
    + rewrite lookup_insert_ne by done. rewrite decide_False; [done|].
      intros (Ht & Heq & _). by apply entity_key_inj in Heq as [-> _].
  - apply Nat.ltb_ge in Hlen. eexists. split; [done|]. intros t x.
    rewrite decide_False; [done|]. intros (_ & _ & ?). lia.
Qed.

Lemma connect_fold items (connections : gmap string (gmap string connection)) :
  NoDup items.*1 →
  Forall (λ key, ∃ t x, colon_free t ∧ key = entity_key t x) items.*1 →
  ∃ connections',
    foldl connect (Some connections) items = Some connections'
    ∧ ∀ t x,
        connection_of connections' t x
        = match (list_to_map items : gmap string (list story)) !! entity_key t x with
          | Some l =>
              if decide (colon_free t ∧ 1 < length l)
              then Some (Connection (length l) l)
              else connection_of connections t x
          | None => connection_of connections t x
          end.
Proof.
  revert connections.
  induction items as [|[key l] items IH]; intros connections Hnd Hwf.
  { exists connections. split; [done|]. intros t x. simpl. by rewrite lookup_empty. }
  simpl in Hnd, Hwf. apply NoDup_cons in Hnd as [Hkey Hnd].
  apply Forall_cons in Hwf as [Hk Hwf].
  destruct (connect_lookup connections key l Hk) as (c1 & Hc1 & Hl1).
  destruct (IH c1 Hnd Hwf) as (c' & Hc' & Hl').
  exists c'. split.
  { change (foldl connect (Some connections) ((key, l) :: items))
      with (foldl connect (connect (Some connections) (key, l)) items).
    by rewrite Hc1. }
  intros t x. rewrite Hl', Hl1. simpl.
  destruct (decide (key = entity_key t x)) as [->|Hne].
  - rewrite lookup_insert_eq.
    rewrite (not_elem_of_list_to_map_1 items (entity_key t x)) by done.
    destruct (decide (colon_free t ∧ 1 < length l)) as [[? ?]|Hno].
    + by rewrite decide_True.
    + rewrite decide_False; [done|]. intros (? & _ & ?). by apply Hno.
  - rewrite lookup_insert_ne by done.
    rewrite (decide_False (P:=_ ∧ key = _ ∧ _)); [done|]. by intros (_ & ? & _).
Qed.

(** The index, entry by entry. *)
Lemma identify_connections_spec stories :
  ∃ connections,
    identify_connections stories = Some connections
    ∧ ∀ t x,
        connection_of connections t x
        = match build_entity_map stories !! entity_key t x with
          | Some l =>
              if decide (colon_free t ∧ 1 < length l)
              then Some (Connection (length l) l)
              else None
          | None => None
          end.
Proof.
  unfold identify_connections.
  destruct (connect_fold (map_to_list (build_entity_map stories)) ∅)
    as (c & Hc & Hl).
  - apply NoDup_fst_map_to_list.
  - apply Forall_forall. intros key ([key' l] & -> & Hin)%list_elem_of_fmap.
    apply elem_of_map_to_list in Hin. by eapply build_entity_map_keys.
  - exists c. split; [done|]. intros t x. rewrite Hl.
    by rewrite list_to_map_to_list.
Qed.

End ConnectionFacts.

(** ** The fallback entity extractor *)

Module NLPFacts.
Import NLP.

Lemma classify_filter ws :
  classify ws
  = (filter (λ w, is_org w) ws,
     filter (λ w, negb (is_org w) && is_short w) ws).
Proof.
  unfold classify.
  assert (∀ st,
    foldl classify_step st ws
    = (st.1 ++ filter (λ w, is_org w) ws,
       st.2 ++ filter (λ w, negb (is_org w) && is_short w) ws)) as Hgen.
  { induction ws as [|w ws IH]; intros [orgs persons].
    { simpl. by rewrite !app_nil_r. }
    change (foldl classify_step (orgs, persons) (w :: ws))
      with (foldl classify_step (classify_step (orgs, persons) w) ws).
    rewrite IH, !filter_cons. unfold classify_step.
    destruct (is_org w); simpl.
    - by rewrite <-app_assoc.
    - destruct (is_short w); simpl; by rewrite <-?app_assoc. }
  apply (Hgen ([], [])).
Qed.

Section Enumeration.
Context (order : list string → list string) (Horder : enumerates order).

(** What holds of the fallback whatever the enumeration of the sets: the
    labels, the classification, no repetition and the cap. *)
Lemma extract_entities_basic_lists text label names :
  (label, names) ∈ _extract_entities_basic order text →
  let phrases := Re.findall false capitalized text in
  NoDup names ∧ length names ≤ 10
  ∧ ((label = "ORG"
      ∧ ∀ name, name ∈ names → name ∈ phrases ∧ is_org name)
     ∨ (label = "PERSON"
        ∧ ∀ name, name ∈ names →
            name ∈ phrases ∧ ¬ is_org name ∧ is_short name)).
Proof.
  unfold _extract_entities_basic. rewrite classify_filter.
  set (phrases := Re.findall false capitalized text).
  set (orgs := filter _ phrases). set (persons := filter _ phrases).
  intros Hin. cbv zeta.
  assert (∀ xs, NoDup (take 10 (order xs)) ∧ length (take 10 (order xs)) ≤ 10)
    as Htake.
  { intros xs. split.
    - eapply sublist_NoDup; [apply Horder|apply sublist_take].
    - rewrite length_take. lia. }
  assert (∀ xs name, name ∈ take 10 (order xs) → name ∈ xs) as Hsub.
  { intros xs name Hn. apply (Horder xs).
    eapply elem_of_sublist; [exact Hn|apply sublist_take]. }
  apply elem_of_app in Hin as [Hin|Hin].
  - destruct orgs eqn:Ho; [by apply elem_of_nil in Hin|]. rewrite <-Ho in *.
    apply list_elem_of_singleton in Hin as [= -> ->].
    split_and!; [apply Htake..|]. left. split; [done|].
    intros name Hn%Hsub. unfold orgs in Hn.
    by apply list_elem_of_filter in Hn as [? ?].
  - destruct persons eqn:Hp; [by apply elem_of_nil in Hin|]. rewrite <-Hp in *.
    apply list_elem_of_singleton in Hin as [= -> ->].
    split_and!; [apply Htake..|]. right. split; [done|].
    intros name Hn%Hsub. unfold persons in Hn.
    apply list_elem_of_filter in Hn as [[Hno Hs]%andb_prop_elim ?].
    split_and!; [done| |done]. by apply negb_prop_elim.
Qed.
End Enumeration.

(** Listing a set in first-seen order and listing it backwards are both
    enumerations. *)
Lemma remove_dups_enumerates : enumerates remove_dups.
Proof.
  intros xs. split; [apply NoDup_remove_dups|].
  intros x. apply elem_of_remove_dups.
Qed.

Lemma reverse_enumerates : enumerates (λ xs, reverse (remove_dups xs)).
Proof.
  intros xs. split.
  - rewrite reverse_Permutation. apply NoDup_remove_dups.
  - intros x. by rewrite elem_of_reverse, elem_of_remove_dups.
Qed.

End NLPFacts.

(** * The claims of the specification *)

Import Processors.

Lemma simple_similarity_sym text1 text2 :
  NLP._simple_similarity text1 text2 = NLP._simple_similarity text2 text1.
Proof.
  unfold NLP._simple_similarity.
  generalize (list_to_set (C:=gset string)
                (Re.findall false NLP.long_word (Re.lower text1))).
  generalize (list_to_set (C:=gset string)
                (Re.findall false NLP.long_word (Re.lower text2))).
  intros words2 words1. cbv zeta.
  assert (words1 ∩ words2 = words2 ∩ words1) as -> by apply (comm_L (∩)).
  assert (words1 ∪ words2 = words2 ∪ words1) as -> by apply (comm_L (∪)).
  by rewrite orb_comm.
Qed.

Lemma basic_similarity_sym text1 text2 :
  (Correlators.calculate_similarity basic_nlp text1 text2
   == Correlators.calculate_similarity basic_nlp text2 text1)%Q.
Proof.
  simpl. unfold NLP.calculate_similarity.
  rewrite orb_comm. case_match; [done|]. by rewrite simple_similarity_sym.
Qed.

Import Correlators CorrelatorsFacts ProcessorsFacts ScoreFacts ConnectionFacts.
Import NLPFacts.

(** The two pairs of headlines the specification gives for the gate: the
    first shares the country only and scores 0, the second agrees on actor and
    technique and scores 0.625. *)
Example visa_scam_and_rare_earths :
  extract_entities "China restricts rare earth exports "
    = [("countries", {["CHINA"]}); ("supply_chain", {["RARE EARTH"]})]
  ∧ calculate_story_similarity (headline "China-based group runs visa scam")
                               (headline "China restricts rare earth exports")
    = 0%Q.
Proof. split; vm_compute; reflexivity. Qed.

Example salt_typhoon_phishing :
  (calculate_story_similarity
     (headline "China APT Salt Typhoon phishing campaign")
     (headline "Salt Typhoon phishing hits US telecom") == 5 # 8)%Q.
Proof. vm_compute. reflexivity. Qed.

(** The sample of the module's [__main__] block, clustered with the
    defaults: the first two stories share the actor and the sector. *)
Example sample_stories_clusters :
  let story (t c : string) : story := {["Title" := t; "Category" := c]} in
  let s1 := story "China-linked APT group targets US critical infrastructure"
                  "China Cyber" in
  let s2 := story "New APT campaign discovered targeting energy sector"
                  "Critical Infrastructure" in
  let s3 := story "Russia-based hackers exploit zero-day vulnerability"
                  "Russian Cyber" in
  find_story_clusters [s1; s2; s3] default_threshold default_max_cluster_size
  = [[s1; s2]; [s3]].
Proof. vm_compute. reflexivity. Qed.

(** C1. The clusters [find_story_clusters] returns for a positive
    [max_cluster_size] are a partition of the input stories: every story is
    in exactly one cluster and no cluster is empty. So are the clusters of
    [_create_clusters], for relationships between indices of
    [processed_stories] and a recursion depth of at least their number. *)
Theorem clusters_partition_the_input
    (input : list story) (threshold : Q) (max_cluster_size : Z)
    (depth : nat) (processed_stories : list processed)
    (relationships : list (nat * nat * Q)) :
  (0 < max_cluster_size)%Z →
  in_range (length processed_stories) relationships →
  length processed_stories ≤ depth →
  is_partition input (find_story_clusters input threshold max_cluster_size)
  ∧ ∃ clusters,
      _create_clusters depth processed_stories relationships = Some clusters
      ∧ is_partition processed_stories (stories <$> clusters).
Proof.
  intros _ Hr Hd. split.
  - destruct (find_story_clusters_spec calculate_story_similarity
                input threshold max_cluster_size) as [Hp Hb].
    split; [done|]. eapply Forall_impl; [exact Hb|]. by intros c [? _].
  - by apply create_clusters_partition.
Qed.

Lemma clusters_partition_the_input_witness :
  let input :=
    [headline "China APT phishing"; headline "Quiet day";
     headline "China APT phishing campaign"] in
  let processed_stories :=
    processed_of basic_nlp [report "Alpha beta" 0; report "Gamma" 5;
                            report "Alpha beta" 7] in
  let relationships :=
    default [] (_find_relationships basic_nlp (3 # 10) processed_stories) in
  _find_relationships basic_nlp (3 # 10) processed_stories = Some relationships
  ∧ (0 < 15)%Z
  ∧ is_partition input (find_story_clusters input (3 # 10) 15)
  ∧ ∃ clusters,
      _create_clusters 3 processed_stories relationships = Some clusters
      ∧ is_partition processed_stories (stories <$> clusters).
Proof.
  intros input processed_stories relationships.
  split; [vm_compute; reflexivity|].
  split; [done|].
  apply (clusters_partition_the_input input (3 # 10) 15 3
           processed_stories relationships).
  - done.
  - apply (bool_decide_unpack _). vm_compute. exact I.
  - vm_compute. lia.
Defined.

(** Strictly below one half the gate is shut: fewer than two matched
    dimensions and a word overlap under 0.5 score exactly 0. *)
Lemma gate_shut_below_half (story1 story2 : story) :
  (dimensions (extract_entities (story_text story1))
              (extract_entities (story_text story2))).1 < 2 →
  (word_overlap (words (story_text story1)) (words (story_text story2)) < 1 # 2)%Q →
  calculate_story_similarity story1 story2 = 0%Q.
Proof. apply combine_gate_closed. Qed.

(** C2, at the boundary. Two headlines that share only the country and
    whose word overlap is exactly 0.5, which does not exceed 0.5, are scored
    0.85 and not 0: the code shuts the gate for [word_overlap < 0.5] only. *)
Theorem half_overlap_passes_the_gate :
  let story1 := headline "China alpha beta" in
  let story2 := headline "China alpha gamma" in
  (prod_map (λ t, t) elements <$> extract_entities (story_text story1)
     = [("countries", ["CHINA"])]
   ∧ prod_map (λ t, t) elements <$> extract_entities (story_text story2)
     = [("countries", ["CHINA"])])
  ∧ (dimensions (extract_entities (story_text story1))
                (extract_entities (story_text story2))).1 = 1
  ∧ (word_overlap (words (story_text story1)) (words (story_text story2))
     == 1 # 2)%Q
  ∧ (calculate_story_similarity story1 story2 == 85 # 100)%Q.
Proof. by vm_compute. Qed.

(** C3. For a positive [max_cluster_size] no cluster returned by
    [find_story_clusters] has more members than that, and the fragments of
    [_split_large_cluster] are within the bound too. *)
Theorem clusters_respect_max_size
    (input cluster : list story) (threshold higher_threshold : Q)
    (max_cluster_size : Z) :
  (0 < max_cluster_size)%Z →
  Forall (λ c, (Z.of_nat (length c) ≤ max_cluster_size)%Z)
    (find_story_clusters input threshold max_cluster_size)
  ∧ Forall (λ c, (Z.of_nat (length c) ≤ max_cluster_size)%Z)
      (_split_large_cluster cluster higher_threshold max_cluster_size).
Proof.
  intros HK. split.
  - destruct (find_story_clusters_spec calculate_story_similarity
                input threshold max_cluster_size) as [_ Hb].
    eapply Forall_impl; [exact Hb|]. intros c [_ Hc]. by rewrite Z.max_l in Hc by lia.
  - destruct cluster as [|s0 cluster0].
    + unfold _split_large_cluster, _split_large_cluster_with. simpl.
      destruct (Z.of_nat 0 <=? max_cluster_size)%Z eqn:Hle;
        [|apply Z.leb_gt in Hle; lia].
      apply Forall_singleton. simpl. lia.
    + destruct (split_large_cluster_spec calculate_story_similarity
                  (s0 :: cluster0) higher_threshold max_cluster_size) as [_ Hb];
        [done|].
      eapply Forall_impl; [exact Hb|]. intros c [_ Hc]. by rewrite Z.max_l in Hc by lia.
Qed.

Lemma clusters_respect_max_size_witness :
  let input :=
    [headline "China APT phishing"; headline "China APT phishing";
     headline "China APT phishing"; headline "Quiet day"] in
  (0 < 2)%Z
  ∧ Forall (λ c, (Z.of_nat (length c) ≤ 2)%Z)
      (find_story_clusters input (3 # 10) 2)
  ∧ Forall (λ c, (Z.of_nat (length c) ≤ 2)%Z)
      (_split_large_cluster input (4 # 10) 2).
Proof.
  intros input. split; [done|].
  apply (clusters_respect_max_size input input (3 # 10) (4 # 10) 2). done.
Defined.

(** C4. When [process_story] raises for a story, [find_related_stories]
    goes on without it. Given enough recursion depth, and publication dates
    of the stories whose extraction succeeded that are all naive or all
    aware, it returns; the story is left out, and the clusters partition
    the stories whose extraction succeeded. With a naive and an aware date
    among those stories the run ends in the [TypeError] of
    [_temporal_similarity], which no handler catches. *)
Theorem failed_extraction_skips_the_story
    (nlp : nlp_processor) (similarity_threshold : Q) (depth : nat)
    (input : list Story) :
  length input ≤ depth →
  (comparable (dates_of (processed_of nlp input)) →
   ∃ clusters,
     find_related_stories nlp similarity_threshold depth input = Some clusters
     ∧ is_partition (processed_of nlp input) (stories <$> clusters)
     ∧ ∀ story, process_story nlp story = None →
         Forall (λ c, story ∉ (stories c).*1) clusters)
  ∧ (¬ comparable (dates_of (processed_of nlp input)) →
     find_related_stories nlp similarity_threshold depth input = None).
Proof.
  intros Hd. split; [|apply find_related_stories_raises].
  intros Hdates.
  destruct (find_related_stories_spec nlp similarity_threshold depth input
              Hd Hdates) as (clusters & Hc & Hp).
  exists clusters. split_and!; [done..|].
  intros story Hfail. apply Forall_forall. intros c Hc' Hin.
  apply list_elem_of_fmap in Hin as ([story' data] & -> & Hin). simpl in Hfail.
  assert ((story', data) ∈ processed_of nlp input) as Hps.
  { destruct Hp as [<- _]. apply (elem_of_concat _ (stories c)); [done|].
    by apply list_elem_of_fmap_2. }
  apply list_elem_of_omap in Hps as (x & _ & Hx).
  destruct (process_story nlp x) eqn:Hpx; by simplify_eq/=.
Qed.

Lemma failed_extraction_skips_the_story_witness :
  let input := [report "" 0; report "Alpha beta" 5; report "Gamma" 9] in
  length input ≤ 3
  ∧ comparable (dates_of (processed_of flaky_nlp input))
  ∧ ∃ clusters,
      find_related_stories flaky_nlp (3 # 10) 3 input = Some clusters
      ∧ is_partition (processed_of flaky_nlp input) (stories <$> clusters)
      ∧ ∀ story, process_story flaky_nlp story = None →
          Forall (λ c, story ∉ (stories c).*1) clusters.
Proof.
  intros input.
  assert (length input ≤ 3) as Hd by done.
  assert (comparable (dates_of (processed_of flaky_nlp input))) as Hdates.
  { exists false. apply (bool_decide_unpack _). vm_compute. exact I. }
  split; [exact Hd|]. split; [exact Hdates|].
  exact (proj1 (failed_extraction_skips_the_story flaky_nlp (3 # 10) 3 input Hd)
           Hdates).
Defined.

(** The run of C4 with dates that cannot be compared: the extraction fails
    for the first story and is skipped, the two others carry a naive and an
    aware date, and no cluster list is returned. *)
Lemma mixed_dates_end_the_run :
  let input := [report "" 0; report "Alpha beta" 5; aware_report "Gamma" 9] in
  process_story flaky_nlp (report "" 0) = None
  ∧ ¬ comparable (dates_of (processed_of flaky_nlp input))
  ∧ find_related_stories flaky_nlp (3 # 10) 3 input = None.
Proof.
  intros input. split; [reflexivity|]. split; [|vm_compute; reflexivity].
  intros [a Hall]. vm_compute in Hall.
  apply Forall_cons in Hall as [H1 [H2 _]%Forall_cons]. congruence.
Qed.

(** C4, as the specification words it, fails: the story whose extraction
    raised is in no cluster at all. *)
Lemma failed_story_is_dropped :
  let untitled := report "" 0 in
  let titled := report "Alpha beta" 5 in
  process_story flaky_nlp untitled = None
  ∧ (fmap (M:=list) (λ c, (stories c).*1))
      <$> find_related_stories flaky_nlp (3 # 10) 2 [untitled; titled]
    = Some [[titled]].
Proof. split; vm_compute; reflexivity. Qed.

(** C5. Neither the threshold nor the maximal cluster size is validated:
    for every configuration [find_story_clusters] returns a partition of the
    input, for a non-positive size every cluster is a single story, and
    [find_related_stories] returns its clusters whatever threshold the
    configuration holds, when the recursion depth suffices and the
    publication dates of the processed stories are all naive or all aware
    (the two ways in which the run can end in an exception, neither of them
    a check of the configuration). *)
Theorem configuration_is_not_validated
    (input : list story) (threshold : Q) (max_cluster_size : Z)
    (nlp : nlp_processor) (config : gmap string Q) (depth : nat)
    (reports : list Story) :
  is_partition input (find_story_clusters input threshold max_cluster_size)
  ∧ ((max_cluster_size ≤ 0)%Z →
     Forall (λ c, length c = 1)
       (find_story_clusters input threshold max_cluster_size))
  ∧ (length reports ≤ depth →
     comparable (dates_of (processed_of nlp reports)) →
     ∃ clusters,
       find_related_stories nlp (configured_threshold config) depth reports
       = Some clusters).
Proof.
  destruct (find_story_clusters_spec calculate_story_similarity
              input threshold max_cluster_size) as [Hp Hb].
  split_and!.
  - split; [done|]. eapply Forall_impl; [exact Hb|]. by intros c [? _].
  - intros HK. eapply Forall_impl; [exact Hb|]. intros c [Hne Hc].
    rewrite Z.max_r in Hc by lia. destruct c; [done|]. simpl in *. lia.
  - intros Hd Hdates.
    destruct (find_related_stories_spec nlp (configured_threshold config)
                depth reports Hd Hdates) as (clusters & Hc & _).
    by exists clusters.
Qed.

Lemma configuration_is_not_validated_witness :
  let input := [headline "China APT phishing"; headline "China APT phishing"] in
  let config : gmap string Q := {["similarity_threshold" := (-1)%Q]} in
  let reports := [report "Alpha beta" 0; report "Gamma" 5] in
  (0 ≤ 0)%Z ∧ length reports ≤ 2
  ∧ comparable (dates_of (processed_of basic_nlp reports))
  ∧ is_partition input (find_story_clusters input 2 0)
  ∧ Forall (λ c, length c = 1) (find_story_clusters input 2 0)
  ∧ ∃ clusters,
      find_related_stories basic_nlp (configured_threshold config) 2 reports
      = Some clusters.
Proof.
  intros input config reports.
  assert (0 ≤ 0)%Z as HK by done.
  assert (length reports ≤ 2) as Hd by done.
  assert (comparable (dates_of (processed_of basic_nlp reports))) as Hdates.
  { exists false. apply (bool_decide_unpack _). vm_compute. exact I. }
  destruct (configuration_is_not_validated input 2 0 basic_nlp config 2 reports)
    as (Hp & Hs & Hr).
  split; [exact HK|]. split; [exact Hd|]. split; [exact Hdates|].
  split; [exact Hp|]. split; [exact (Hs HK)|exact (Hr Hd Hdates)].
Defined.

(** C5, as the specification words it, fails: with the threshold 2 and the
    maximal size 0 a cluster list is returned, and the correlator configured
    with the threshold -1 returns one cluster of two stories. *)
Lemma invalid_configuration_is_clustered :
  let s := headline "Quiet day" in
  let config : gmap string Q := {["similarity_threshold" := (-1)%Q]} in
  let reports := [report "Alpha beta" 0; report "Gamma" 5] in
  (1 < 2)%Q ∧ (0 ≤ 0)%Z ∧ find_story_clusters [s] 2 0 = [[s]]
  ∧ (configured_threshold config < 0)%Q
  ∧ (fmap (M:=list) (λ c, length (stories c)))
      <$> find_related_stories basic_nlp (configured_threshold config) 2 reports
    = Some [2].
Proof. split_and!; [done..| | |]; vm_compute; reflexivity. Qed.

(** C6. Both scores are symmetric: the entity/regex score of two stories,
    and the weighted score of two processed stories whenever the text
    similarity of the injected processor is. The weighted score is
    returned in both orders or in neither (the [TypeError] of two dates
    that cannot be subtracted does not depend on their order). *)
Theorem similarity_is_symmetric
    (story1 story2 : story) (nlp : nlp_processor) (p1 p2 : processed) :
  (∀ text1 text2,
     calculate_similarity nlp text1 text2 == calculate_similarity nlp text2 text1)%Q →
  calculate_story_similarity story1 story2
    = calculate_story_similarity story2 story1
  ∧ option_Forall2 Qeq (_calculate_story_similarity nlp p1 p2)
                       (_calculate_story_similarity nlp p2 p1).
Proof.
  intros Hsym. split.
  - unfold calculate_story_similarity.
    by rewrite dimensions_sym, word_overlap_sym.
  - unfold _calculate_story_similarity.
    assert (∀ e1 e2, _entity_similarity e1 e2 = _entity_similarity e2 e1) as ->.
    { intros e1 e2. unfold _entity_similarity.
      rewrite (orb_comm (bool_decide (e1 = []))). case_match; [done|].
      generalize (flatten_entities e1), (flatten_entities e2). intros a b.
      assert (a ∩ b = b ∩ a) as -> by apply (comm_L (∩)).
      assert (a ∪ b = b ∪ a) as -> by apply (comm_L (∪)).
      by rewrite orb_comm. }
    assert (∀ k1 k2, _keyword_similarity k1 k2 = _keyword_similarity k2 k1) as ->.
    { intros a b. unfold _keyword_similarity.
      assert (a ∩ b = b ∩ a) as -> by apply (comm_L (∩)).
      assert (a ∪ b = b ∪ a) as -> by apply (comm_L (∪)).
      by rewrite orb_comm. }
    assert (∀ d1 d2, _temporal_similarity d1 d2 = _temporal_similarity d2 d1) as ->.
    { intros d1 d2. unfold _temporal_similarity, sub_datetime.
      destruct (aware d1), (aware d2); simpl; try done.
      all: by replace (Z.abs (instant d1 - instant d2))
             with (Z.abs (instant d2 - instant d1)) by lia. }
    destruct (_temporal_similarity _ _) as [temporal_sim|]; simpl; constructor.
    by rewrite (Hsym (NLP.text_for_similarity p1.2)).
Qed.

Lemma similarity_is_symmetric_witness :
  let story1 := headline "China APT phishing campaign" in
  let story2 := headline "Salt Typhoon phishing hits US telecom" in
  let p1 := (report "Alpha beta" 0, NLP.process_story remove_dups (report "Alpha beta" 0)) in
  let p2 := (report "Beta gamma" 9, NLP.process_story remove_dups (report "Beta gamma" 9)) in
  (∀ text1 text2,
     calculate_similarity basic_nlp text1 text2
     == calculate_similarity basic_nlp text2 text1)%Q
  ∧ calculate_story_similarity story1 story2
    = calculate_story_similarity story2 story1
  ∧ option_Forall2 Qeq (_calculate_story_similarity basic_nlp p1 p2)
                       (_calculate_story_similarity basic_nlp p2 p1).
Proof.
  intros story1 story2 p1 p2. split; [exact basic_similarity_sym|].
  apply (similarity_is_symmetric story1 story2 basic_nlp p1 p2).
  exact basic_similarity_sym.
Defined.

(** C7. A story with at least one word scores 1 against itself when an
    entity was extracted from it and 0.3 when none was; so the score reaches
    every threshold up to 0.3, the default among them. *)
Theorem self_similarity_values (s : story) (threshold : Q) :
  words (story_text s) ≠ ∅ →
  (threshold <= default_threshold)%Q →
  (calculate_story_similarity s s
   == if decide (extract_entities (story_text s) = []) then 3 # 10 else 1)%Q
  ∧ (threshold <= calculate_story_similarity s s)%Q.
Proof.
  intros Hw Hthr.
  assert (calculate_story_similarity s s
          == if decide (extract_entities (story_text s) = []) then 3 # 10 else 1)%Q
    as Hs.
  { rewrite (self_similarity s Hw).
    destruct (decide (_.1 = 0)) as [Hz|Hz], (decide (_ = [])) as [He|He];
      try done; by apply self_dimensions_zero in Hz || apply self_dimensions_zero in He. }
  split; [done|]. rewrite Hs. eapply Qle_trans; [exact Hthr|].
  unfold default_threshold. by case_decide.
Qed.

Lemma self_similarity_values_witness :
  let s := headline "China APT phishing campaign" in
  words (story_text s) ≠ ∅
  ∧ (default_threshold <= default_threshold)%Q
  ∧ (calculate_story_similarity s s
     == if decide (extract_entities (story_text s) = []) then 3 # 10 else 1)%Q
  ∧ (default_threshold <= calculate_story_similarity s s)%Q.
Proof.
  intros s.
  assert (words (story_text s) ≠ ∅) as Hw
    by (apply (bool_decide_unpack _); vm_compute; exact I).
  assert (default_threshold <= default_threshold)%Q as Hthr by apply Qle_refl.
  split; [exact Hw|]. split; [exact Hthr|].
  exact (self_similarity_values s default_threshold Hw Hthr).
Defined.

(** C7, as the specification words it, fails for a threshold above 0.3: a
    headline without entities scores 0.3 against itself. *)
Lemma self_similarity_below_threshold :
  let s := headline "Quiet day" in
  let threshold := (1 # 2)%Q in
  words (story_text s) ≠ ∅
  ∧ (0 <= threshold)%Q ∧ (threshold <= 1)%Q
  ∧ ¬ (threshold <= calculate_story_similarity s s)%Q.
Proof.
  split_and!.
  - apply (bool_decide_unpack _). vm_compute. exact I.
  - done.
  - done.
  - vm_compute. intros H. by apply H.
Qed.

(** C8. The connection index holds an entry for an entity type and name
    exactly when the entity is extracted from at least two stories of the
    input (counted as list entries), and the entry carries those stories, in
    input order, and their number. *)
Theorem connection_index_threshold (input : list story) :
  ∃ connections,
    identify_connections input = Some connections
    ∧ ∀ entity_type entity,
        let mentioning :=
          filter (λ s, entity ∈ entities_get (extract_entities (story_text s))
                                   entity_type) input in
        connection_of connections entity_type entity
        = if decide (2 ≤ length mentioning)
          then Some (Connection (length mentioning) mentioning)
          else None.
Proof.
  destruct (identify_connections_spec input) as (connections & Hc & Hl).
  exists connections. split; [done|]. intros t x mentioning.
  rewrite Hl, build_entity_map_lookup.
  destruct (decide (colon_free t)) as [Ht|Ht].
  - assert (filter (hits (entity_key t x)) input = mentioning) as ->.
    { apply list_filter_iff. intros s. unfold hits.
      by rewrite keys_of_lookup by (done || apply extract_entities_well_typed). }
    destruct mentioning as [|s l] eqn:Hm; [done|].
    destruct (decide (2 ≤ length (s :: l))) as [Hlen|Hlen].
    + by rewrite decide_True.
    + rewrite decide_False; [done|]. intros [_ ?]. by apply Hlen.
  - assert (mentioning = []) as ->.
    { apply filter_none. intros s _ Hx.
      destruct (extract_entities_well_typed (story_text s)) as [Hnd Hcf].
      apply elem_of_entities_get in Hx as (es & Hin & _); [|done].
      apply Ht. rewrite Forall_forall in Hcf. apply Hcf.
      by apply (list_elem_of_fmap_2 fst _ (t, es)). }
    simpl. destruct (filter _ _); [done|]. rewrite decide_False; [done|].
    by intros [? _].
Qed.

(** C9, the order and the cap. The fallback lists [set(...)], whose order
    is that of the set and not that of the text. With eleven names and a set
    that happens to be enumerated backwards, the ten names returned start
    with the last one seen and miss the first one, whereas first-seen order
    would keep the first ten. *)
Theorem fallback_order_follows_the_set :
  let text := "Ann, Bob, Cid, Dan, Eve, Fay, Gus, Hal, Ida, Jon, Kim" in
  let backwards := λ xs : list string, reverse (remove_dups xs) in
  NLP.enumerates backwards
  ∧ Re.findall false NLP.capitalized text
    = ["Ann"; "Bob"; "Cid"; "Dan"; "Eve"; "Fay"; "Gus"; "Hal"; "Ida"; "Jon";
       "Kim"]
  ∧ NLP._extract_entities_basic backwards text
    = [("PERSON", ["Kim"; "Jon"; "Ida"; "Hal"; "Gus"; "Fay"; "Eve"; "Dan";
                   "Cid"; "Bob"])]
  ∧ take 10 (NLP.dedup_preserving (Re.findall false NLP.capitalized text))
    = ["Ann"; "Bob"; "Cid"; "Dan"; "Eve"; "Fay"; "Gus"; "Hal"; "Ida"; "Jon"].
Proof.
  split; [apply reverse_enumerates|]. split_and!; vm_compute; reflexivity.
Qed.

(** C10. When no dimension matches and the word overlap opens the gate, the
    score is 0.3 times the word overlap; it is at most 0.3, and it reaches
    the default threshold exactly when the two word sets are equal. *)
Theorem no_dimension_score (story1 story2 : story) :
  let words1 := words (story_text story1) in
  let words2 := words (story_text story2) in
  (dimensions (extract_entities (story_text story1))
              (extract_entities (story_text story2))).1 = 0 →
  (1 # 2 <= word_overlap words1 words2)%Q →
  (calculate_story_similarity story1 story2
   == (3 # 10) * word_overlap words1 words2)%Q
  ∧ (calculate_story_similarity story1 story2 <= 3 # 10)%Q
  ∧ ((default_threshold <= calculate_story_similarity story1 story2)%Q
     ↔ words1 = words2).
Proof.
  intros words1 words2 Hz Hopen. unfold calculate_story_similarity.
  fold words1 words2. rewrite combine_gate_open by done.
  pose proof (dimensions_length (extract_entities (story_text story1))
                (extract_entities (story_text story2))) as Hlen.
  rewrite Hz in Hlen. symmetry in Hlen. apply nil_length_inv in Hlen.
  rewrite Hlen.
  pose proof (word_overlap_le_1 words1 words2) as Hle.
  set (o := word_overlap words1 words2) in *.
  assert (0 * (7 # 10) + o * (3 # 10) == (3 # 10) * o)%Q as Hs by ring.
  split; [done|]. rewrite Hs. split.
  - by apply scaled_le_weight.
  - unfold default_threshold. rewrite weight_le_scaled. split.
    + intros Hge. by apply (word_overlap_1 words1 words2).
    + intros Heq. apply word_overlap_1. split; [done|].
      intros Hnil. unfold o, word_overlap in Hopen.
      rewrite <-Heq, Hnil, (idemp_L (∩)), size_empty in Hopen.
      by vm_compute in Hopen.
Qed.

Lemma no_dimension_score_witness :
  let story1 := headline "alpha beta gamma" in
  let story2 := headline "alpha beta delta" in
  let words1 := words (story_text story1) in
  let words2 := words (story_text story2) in
  (dimensions (extract_entities (story_text story1))
              (extract_entities (story_text story2))).1 = 0
  ∧ (1 # 2 <= word_overlap words1 words2)%Q
  ∧ (calculate_story_similarity story1 story2
     == (3 # 10) * word_overlap words1 words2)%Q
  ∧ (calculate_story_similarity story1 story2 <= 3 # 10)%Q
  ∧ ((default_threshold <= calculate_story_similarity story1 story2)%Q
     ↔ words1 = words2).
Proof.
  intros story1 story2 words1 words2.
  assert ((dimensions (extract_entities (story_text story1))
                      (extract_entities (story_text story2))).1 = 0) as Hz
    by (vm_compute; reflexivity).
  assert (1 # 2 <= word_overlap words1 words2)%Q as Hopen
    by (vm_compute; discriminate).
  split; [exact Hz|]. split; [exact Hopen|].
  exact (no_dimension_score story1 story2 Hz Hopen).
Defined.

(** * Further properties of the code

    The rest of the development covers the functions around the ones above:
    the report and the graph of the entity/regex mode, the relationships,
    the summaries and the numbering of the general mode, the keyword and
    entity extraction of the NLP processor, and what the aggregator does
    with the stories and the clusters. *)

(** ** Sorting with a stable insertion sort *)

Module OrderFacts.

Lemma insert_desc_head {A} (key : A → nat) (x : A) (l : list A) :
  Forall (λ y, key y ≤ key x) l → insert_desc key x l = x :: l.
Proof.
  destruct l as [|y l]; [done|]. intros [Hy _]%Forall_cons. simpl.
  destruct (key x <? key y) eqn:Hlt; [|done]. apply Nat.ltb_lt in Hlt. lia.
Qed.

Lemma sort_desc_sorted_id {A} (key : A → nat) (l : list A) :
  StronglySorted (λ a b, key b ≤ key a) l → sort_desc key l = l.
Proof.
  induction 1 as [|x l Hl IH Hx]; [done|].
  simpl. fold (sort_desc key l). rewrite IH. by apply insert_desc_head.
Qed.

Lemma insert_desc_sorted {A} (key : A → nat) (x : A) (l : list A) :
  StronglySorted (λ a b, key b ≤ key a) l →
  StronglySorted (λ a b, key b ≤ key a) (insert_desc key x l).
Proof.
  induction 1 as [|y l Hl IH Hy]; simpl.
  { repeat constructor. }
  destruct (key x <? key y) eqn:Hlt.
  - apply Nat.ltb_lt in Hlt. constructor; [done|].
    rewrite insert_desc_perm. constructor; [lia|done].
  - apply Nat.ltb_ge in Hlt. constructor; [by constructor|].
    constructor; [done|]. eapply Forall_impl; [exact Hy|]. simpl. lia.
Qed.

Lemma sort_desc_sorted {A} (key : A → nat) (l : list A) :
  StronglySorted (λ a b, key b ≤ key a) (sort_desc key l).
Proof.
  induction l as [|x l IH]; simpl; [constructor|]. by apply insert_desc_sorted.
Qed.

Lemma singletons_sorted {A} (l : list A) :
  StronglySorted (λ a b : list A, length b ≤ length a) ((λ s, [s]) <$> l).
Proof.
  induction l as [|x l IH]; simpl; constructor; [done|].
  apply Forall_fmap, Forall_true. simpl. lia.
Qed.

Lemma sublist_StronglySorted {A} (R : relation A) (l1 l2 : list A) :
  l1 `sublist_of` l2 → StronglySorted R l2 → StronglySorted R l1.
Proof.
  induction 1 as [|x l1 l2 Hs IH|x l1 l2 Hs IH]; intros Hsorted; [done|..].
  - apply StronglySorted_inv in Hsorted as [Hl2 Hx]. constructor; [by apply IH|].
    rewrite Forall_forall in Hx |- *. intros y Hy. apply Hx.
    by eapply elem_of_sublist.
  - apply StronglySorted_inv in Hsorted as [Hl2 _]. by apply IH.
Qed.

Lemma max_list_bound (ns : list nat) (n : nat) :
  Forall (λ m, m ≤ n) ns → max_list ns ≤ n.
Proof. induction 1; simpl; lia. Qed.

Lemma imap_node_ids {A B} (f : nat → A → B) (g : B → nat) (l : list A) k :
  (∀ i x, g (f i x) = k + i) → g <$> imap f l = seq k (length l).
Proof.
  revert k f. induction l as [|x l IH]; intros k f Hf; simpl; [done|].
  rewrite Hf, Nat.add_0_r. f_equal. apply (IH (S k)).
  intros i y. simpl. rewrite Hf. lia.
Qed.

Lemma string_ltb_asym (a b : string) :
  String.ltb a b = true → String.ltb b a = false.
Proof.
  unfold String.ltb. rewrite (String.compare_antisym b a).
  by destruct (String.compare a b).
Qed.

Lemma string_compare_trans (a b c : string) :
  String.compare a b ≠ Lt → String.compare b c ≠ Lt → String.compare a c ≠ Lt.
Proof.
  revert b c. induction a as [|x a IH]; intros [|y b] [|z c]; simpl; try done.
  unfold Ascii.compare.
  destruct (N.compare_spec (N_of_ascii x) (N_of_ascii y)) as [Hxy|Hxy|Hxy];
    destruct (N.compare_spec (N_of_ascii y) (N_of_ascii z)) as [Hyz|Hyz|Hyz];
    destruct (N.compare_spec (N_of_ascii x) (N_of_ascii z)) as [Hxz|Hxz|Hxz];
    try done; try lia.
  apply IH.
Qed.

Lemma string_ltb_trans (a b c : string) :
  String.ltb a b = false → String.ltb b c = false → String.ltb a c = false.
Proof.
  unfold String.ltb. intros Hab Hbc.
  pose proof (string_compare_trans a b c) as Hac.
  destruct (String.compare a b), (String.compare b c), (String.compare a c);
    try done; by destruct Hac.
Qed.

Section SortBy.
Context {A K : Type} (lt : K → K → bool) (key : A → K).
Hypothesis lt_asym : ∀ a b, lt a b = true → lt b a = false.
Hypothesis lt_trans : ∀ a b c, lt a b = false → lt b c = false → lt a c = false.

Lemma insert_desc_by_perm x l : insert_desc_by lt key x l ≡ₚ x :: l.
Proof.
  induction l as [|y l IH]; simpl; [done|].
  case_match; [|done]. rewrite IH. apply Permutation_swap.
Qed.

Lemma sort_desc_by_perm l : sort_desc_by lt key l ≡ₚ l.
Proof.
  induction l as [|x l IH]; simpl; [done|].
  rewrite insert_desc_by_perm. by rewrite IH.
Qed.

Lemma insert_desc_by_sorted x l :
  StronglySorted (λ a b, lt (key a) (key b) = false) l →
  StronglySorted (λ a b, lt (key a) (key b) = false) (insert_desc_by lt key x l).
Proof.
  induction 1 as [|y l Hl IH Hy]; simpl.
  { repeat constructor. }
  destruct (lt (key x) (key y)) eqn:Hlt.
  - constructor; [done|]. rewrite insert_desc_by_perm.
    constructor; [by apply lt_asym|done].
  - constructor; [by constructor|]. constructor; [done|].
    eapply Forall_impl; [exact Hy|]. simpl. intros z Hz. by eapply lt_trans.
Qed.

Lemma sort_desc_by_sorted l :
  StronglySorted (λ a b, lt (key a) (key b) = false) (sort_desc_by lt key l).
Proof.
  induction l as [|x l IH]; simpl; [constructor|]. by apply insert_desc_by_sorted.
Qed.

(** Stability: among the elements with a given property of the key, the
    order does not change. *)
Lemma insert_desc_by_filter (P : A → Prop) `{!∀ a, Decision (P a)} x l :
  (∀ a b, P a → P b → lt (key a) (key b) = false) →
  filter P (insert_desc_by lt key x l) = filter P (x :: l).
Proof.
  intros HP. induction l as [|y l IH]; simpl; [done|].
  destruct (lt (key x) (key y)) eqn:Hlt; [|done].
  rewrite filter_cons, IH, !filter_cons.
  destruct (decide (P y)) as [Hy|Hy], (decide (P x)) as [Hx|Hx]; try done.
  by rewrite (HP x y) in Hlt.
Qed.

Lemma sort_desc_by_filter (P : A → Prop) `{!∀ a, Decision (P a)} l :
  (∀ a b, P a → P b → lt (key a) (key b) = false) →
  filter P (sort_desc_by lt key l) = filter P l.
Proof.
  intros HP. induction l as [|x l IH]; simpl; [done|].
  rewrite insert_desc_by_filter by done. by rewrite !filter_cons, IH.
Qed.
End SortBy.

End OrderFacts.

(** ** The seeded clusters and the graph of the entity/regex mode *)

Module SeedFacts.
Import Processors ProcessorsFacts ScoreFacts OrderFacts.

Lemma Qgeb_true x y : Qgeb x y = true ↔ (y <= x)%Q.
Proof. apply Qle_bool_iff. Qed.

Lemma Qgeb_false x y : Qgeb x y = false ↔ (x < y)%Q.
Proof.
  unfold Qgeb. rewrite <-not_true_iff_false, Qle_bool_iff.
  split; [apply Qnot_le_lt|apply Qlt_not_le].
Qed.

Lemma ratio_nonneg a b : (0 <= ratio a b)%Q.
Proof. unfold ratio, Qle. simpl. lia. Qed.

Lemma Qsum_bounds (l : list Q) (a : Q) :
  Forall (λ q, 0 <= q ∧ q <= 1)%Q l →
  (a <= foldl Qplus a l ∧ foldl Qplus a l <= a + inject_Z (Z.of_nat (length l)))%Q.
Proof.
  revert a. induction l as [|q l IH]; intros a Hl; simpl.
  { change (inject_Z (Z.of_nat 0)) with 0%Q. lra. }
  apply Forall_cons in Hl as [[Hq0 Hq1] Hl].
  destruct (IH (a + q)%Q Hl) as [Hlo Hhi].
  rewrite Nat2Z.inj_succ, <-Z.add_1_l, inject_Z_plus.
  change (inject_Z 1) with 1%Q. lra.
Qed.

Lemma average_bounds (l : list Q) :
  Forall (λ q, 0 <= q ∧ q <= 1)%Q l →
  (0 <= match l with
        | [] => 0
        | _ => Qsum l / inject_Z (Z.of_nat (length l))
        end <= 1)%Q.
Proof.
  intros Hl. destruct l as [|q l]; [done|].
  destruct (Qsum_bounds (q :: l) 0 Hl) as [Hlo Hhi].
  fold (Qsum (q :: l)) in Hlo, Hhi. rewrite Qplus_0_l in Hhi.
  set (n := inject_Z (Z.of_nat (length (q :: l)))) in *.
  assert (0 < n)%Q as Hn.
  { unfold n, inject_Z, Qlt. simpl. lia. }
  split.
  - apply Qle_shift_div_l; [done|]. by rewrite Qmult_0_l.
  - apply Qle_shift_div_r; [done|]. by rewrite Qmult_1_l.
Qed.

Lemma dimensions_scores entities1 entities2 :
  Forall (λ q, 0 <= q ∧ q <= 1)%Q (dimensions entities1 entities2).2.
Proof.
  apply (dimensions_fold entities1 entities2
           (λ st, Forall (λ q, 0 <= q ∧ q <= 1)%Q st.2)); [done|].
  intros [m scores] t Hst. unfold dimension_step. simpl in *.
  repeat case_match; simpl; try done.
  apply Forall_app. split; [done|]. apply Forall_singleton. split.
  - apply ratio_nonneg.
  - apply ratio_le_1.
    + apply subseteq_size. set_solver.
    + match goal with H : (0 <? _) = true |- _ => apply Nat.ltb_lt in H end.
      etrans; [|apply subseteq_size]; [eassumption|set_solver].
Qed.

Lemma combine_bounds dims overlap :
  Forall (λ q, 0 <= q ∧ q <= 1)%Q dims.2 → (0 <= overlap <= 1)%Q →
  (0 <= combine dims overlap <= 1)%Q.
Proof.
  intros Hd Ho. unfold combine. case_match; [done|].
  pose proof (average_bounds _ Hd) as Ha.
  set (a := match dims.2 with [] => _ | _ => _ end) in *. nra.
Qed.

Lemma word_overlap_nonneg w1 w2 : (0 <= word_overlap w1 w2)%Q.
Proof. apply ratio_nonneg. Qed.

Lemma similarity_bounds story1 story2 :
  (0 <= calculate_story_similarity story1 story2 <= 1)%Q.
Proof.
  apply combine_bounds; [apply dimensions_scores|].
  split; [apply word_overlap_nonneg|apply word_overlap_le_1].
Qed.

Section Seeds.
Context (similarity : story → story → Q).
Context (stories : list story) (threshold : Q) (K : Z).

(** the inner loop, by indices *)
Lemma grow_indices i js cluster assigned :
  ∃ added,
    grow similarity stories threshold K i js cluster assigned
      = (cluster ++ ((λ j, stories !!! j) <$> added), list_to_set added ∪ assigned)
    ∧ added `sublist_of` js
    ∧ Forall (λ j, (threshold <= similarity (stories !!! i) (stories !!! j))%Q) added.
Proof.
  revert cluster assigned.
  induction js as [|j js IH]; intros cluster assigned; simpl.
  { exists []. simpl. rewrite app_nil_r, (left_id_L ∅ (∪)). by repeat split. }
  case_decide as Hj.
  { destruct (IH cluster assigned) as (added & -> & Hs & Hf).
    exists added. split_and!; [done|by apply sublist_cons|done]. }
  destruct (K <=? Z.of_nat (length cluster))%Z.
  { exists []. simpl. rewrite app_nil_r, (left_id_L ∅ (∪)).
    split_and!; [done|apply sublist_nil_l|done]. }
  destruct (Qgeb _ _) eqn:Hq.
  - destruct (IH (cluster ++ [stories !!! j]) ({[j]} ∪ assigned))
      as (added & -> & Hs & Hf).
    exists (j :: added). split_and!.
    + simpl. rewrite <-app_assoc. simpl. f_equal. set_solver.
    + by apply sublist_skip.
    + constructor; [by apply Qgeb_true|done].
  - destruct (IH cluster assigned) as (added & -> & Hs & Hf).
    exists added. split_and!; [done|by apply sublist_cons|done].
Qed.


Lemma seed_loop_seeded indices clusters assigned :
  (∀ x, x ∈ indices → x < length stories) →
  Forall (seeded similarity stories threshold) clusters →
  Forall (seeded similarity stories threshold) (seed_loop similarity stories threshold K indices clusters assigned).
Proof.
  revert clusters assigned.
  induction indices as [|i indices IH]; intros clusters assigned Hi Hc; simpl; [done|].
  case_decide.
  { apply IH; [|done]. intros x Hx. apply Hi. by right. }
  destruct (grow_indices i (seq (S i) (length stories - S i)) [stories !!! i]
              ({[i]} ∪ assigned)) as (added & -> & Hs & Hf).
  apply IH; [intros x Hx; apply Hi; by right|].
  apply Forall_app. split; [done|]. apply Forall_singleton.
  exists i, added. split_and!; [done| |done].
  assert (i < length stories) as Hlt by (apply Hi; by left).
  replace (seq 0 (length stories))
    with (seq 0 i ++ i :: seq (S i) (length stories - S i)).
  - apply sublist_inserts_l. by apply sublist_skip.
  - replace (length stories) with (i + S (length stories - S i)) at 2 by lia.
    by rewrite seq_app.
Qed.

Lemma seeded_clusters_seeded :
  Forall (seeded similarity stories threshold) (seeded_clusters similarity stories threshold K).
Proof.
  apply seed_loop_seeded; [|done]. intros x Hx. apply elem_of_seq in Hx. lia.
Qed.
End Seeds.

Lemma seeded_singleton similarity (s : story) threshold K :
  seeded_clusters similarity [s] threshold K = [[s]].
Proof. reflexivity. Qed.

Lemma refinement_is_identity similarity threshold K (clusters : list (list story)) :
  Forall (bounded_cluster K) clusters →
  clusters ≫= (λ cluster,
    if (K <? Z.of_nat (length cluster))%Z
    then _split_large_cluster_with similarity cluster threshold K
    else [cluster]) = clusters.
Proof.
  induction 1 as [|c clusters [Hne Hlen] _ IH]; [done|].
  rewrite bind_cons, IH.
  destruct (K <? Z.of_nat (length c))%Z eqn:Hlt; [|done].
  apply Z.ltb_lt in Hlt.
  destruct c as [|s [|s' c]]; [done| |simpl in *; lia].
  unfold _split_large_cluster_with.
  destruct (Z.of_nat (length [s]) <=? K)%Z eqn:Hle; [done|].
  by rewrite seeded_singleton.
Qed.

Lemma find_story_clusters_sorted_seeded similarity stories threshold K :
  find_story_clusters_with similarity stories threshold K
  = sort_desc length (seeded_clusters similarity stories threshold K).
Proof.
  unfold find_story_clusters_with. destruct stories as [|s0 stories0]; [done|].
  apply refinement_is_identity. rewrite sort_desc_perm. apply seeded_clusters_spec.
Qed.

Section Isolation.
Context (similarity : story → story → Q).
Context (stories : list story) (threshold : Q) (K : Z).
Hypothesis below : ∀ s1 s2, Qgeb (similarity s1 s2) threshold = false.

Lemma grow_nothing i js cluster assigned :
  grow similarity stories threshold K i js cluster assigned = (cluster, assigned).
Proof.
  induction js as [|j js IH]; simpl; [done|].
  rewrite below, IH. by repeat case_match.
Qed.

Lemma seed_loop_nothing k m clusters assigned :
  (∀ x, x ∈ assigned → x < k) →
  seed_loop similarity stories threshold K (seq k m) clusters assigned
  = clusters ++ ((λ i, [stories !!! i]) <$> seq k m).
Proof.
  revert k clusters assigned.
  induction m as [|m IH]; intros k clusters assigned Ha; simpl.
  { by rewrite app_nil_r. }
  rewrite decide_False by (intros ?%Ha; lia).
  rewrite grow_nothing, IH.
  - by rewrite <-app_assoc.
  - intros x [->%elem_of_singleton|?%Ha]%elem_of_union; lia.
Qed.

Lemma seeded_clusters_nothing :
  seeded_clusters similarity stories threshold K = (λ s, [s]) <$> stories.
Proof.
  unfold seeded_clusters. rewrite seed_loop_nothing by set_solver. simpl.
  rewrite <-(lookup_total_seq stories) at 2. by rewrite <-list_fmap_compose.
Qed.
End Isolation.

Lemma isolation similarity stories threshold K :
  (∀ s1 s2, Qgeb (similarity s1 s2) threshold = false) →
  find_story_clusters_with similarity stories threshold K = (λ s, [s]) <$> stories.
Proof.
  intros Hb. rewrite find_story_clusters_sorted_seeded.
  rewrite seeded_clusters_nothing by done.
  apply sort_desc_sorted_id, singletons_sorted.
Qed.

Lemma seeded_sublist similarity stories threshold c :
  seeded similarity stories threshold c → c `sublist_of` stories.
Proof.
  intros (i & added & -> & Hs & _).
  apply (fmap_sublist (λ j, stories !!! j)) in Hs.
  by rewrite lookup_total_seq in Hs.
Qed.

Lemma seeded_increasing i added n :
  i :: added `sublist_of` seq 0 n → Forall (λ j, i < j < n) added.
Proof.
  intros Hs. apply Forall_forall. intros j Hj.
  assert (StronglySorted lt (i :: added)) as Hsorted.
  { eapply (sublist_StronglySorted lt); [exact Hs|].
    clear. generalize 0. induction n as [|n IH]; intros k; simpl; constructor.
    - apply IH.
    - apply Forall_forall. intros x Hx%elem_of_seq. lia. }
  apply StronglySorted_inv in Hsorted as [_ Hall].
  rewrite Forall_forall in Hall. split; [by apply Hall|].
  assert (j ∈ seq 0 n) as Hin%elem_of_seq.
  { eapply elem_of_sublist; [|exact Hs]. by right. }
  lia.
Qed.

Lemma find_story_clusters_seeded stories threshold K :
  Forall (seeded calculate_story_similarity stories threshold)
    (find_story_clusters stories threshold K).
Proof.
  unfold find_story_clusters. rewrite find_story_clusters_sorted_seeded.
  rewrite sort_desc_perm. apply seeded_clusters_seeded.
Qed.

Lemma elem_of_graph_edges stories threshold i j w :
  (i, j, w) ∈ (Reports.generate_graph_data stories threshold).2
  ↔ i < j < length stories
    ∧ w = calculate_story_similarity (stories !!! i) (stories !!! j)
    ∧ (threshold <= w)%Q.
Proof.
  unfold Reports.generate_graph_data. cbv zeta. simpl.
  rewrite list_elem_of_bind. split.
  - intros (i' & Hin & Hi'). apply elem_of_seq in Hi'.
    apply list_elem_of_bind in Hin as (j' & Hin & Hj'). apply elem_of_seq in Hj'.
    destruct (Qgeb _ _) eqn:Hq; [|by apply elem_of_nil in Hin].
    apply list_elem_of_singleton in Hin. simplify_eq.
    split; [lia|]. split; [done|]. by apply Qgeb_true.
  - intros (Hij & -> & Hq). exists i. split; [|apply elem_of_seq; lia].
    apply list_elem_of_bind. exists j. split; [|apply elem_of_seq; lia].
    apply Qgeb_true in Hq. rewrite Hq. by apply list_elem_of_singleton.
Qed.

End SeedFacts.

(** ** Relationships and scores of the general mode *)

Module RelationFacts.
Import Correlators CorrelatorsFacts ScoreFacts SeedFacts.

Section Pairs.
Context (nlp : nlp_processor) (similarity_threshold : Q).

Lemma elem_of_pairs_from i story1 j rest relationships a b s :
  pairs_from nlp similarity_threshold i story1 j rest = Some relationships →
  (a, b, s) ∈ relationships
  ↔ a = i ∧ j ≤ b
    ∧ ∃ story2, rest !! (b - j) = Some story2
        ∧ _calculate_story_similarity nlp story1 story2 = Some s
        ∧ (similarity_threshold <= s)%Q.
Proof.
  revert j relationships.
  induction rest as [|story2 rest IH]; intros j relationships; simpl.
  { intros [= <-]. split; [by intros ?%elem_of_nil|].
    by intros (_ & _ & ? & ? & _). }
  destruct (_calculate_story_similarity nlp story1 story2)
    as [similarity|] eqn:Hsim; simpl; [|done].
  destruct (pairs_from nlp similarity_threshold i story1 (S j) rest)
    as [later|] eqn:Hlater; simpl; [|done].
  intros [= <-]. rewrite elem_of_app, (IH _ _ Hlater). split.
  - intros [Hin|(-> & Hj & q & Hq & Hs)].
    + destruct (Qgeb _ _) eqn:Hge; [|by apply elem_of_nil in Hin].
      apply list_elem_of_singleton in Hin. simplify_eq.
      split; [done|]. split; [done|]. exists story2.
      rewrite Nat.sub_diag. split; [done|]. split; [done|]. by apply Qgeb_true.
    + split; [done|]. split; [lia|]. exists q.
      replace (b - j) with (S (b - S j)) by lia. done.
  - intros (-> & Hj & q & Hq & Hsq & Hs).
    destruct (decide (b = j)) as [->|Hne].
    + left. rewrite Nat.sub_diag in Hq. simplify_eq/=.
      apply Qgeb_true in Hs. rewrite Hs. by apply list_elem_of_singleton.
    + right. split; [done|]. split; [lia|]. exists q.
      replace (b - j) with (S (b - S j)) in Hq by lia. done.
Qed.

Lemma elem_of_relationships_from i ps relationships a b s :
  relationships_from nlp similarity_threshold i ps = Some relationships →
  (a, b, s) ∈ relationships
  ↔ i ≤ a < b
    ∧ ∃ story1 story2,
        ps !! (a - i) = Some story1 ∧ ps !! (b - i) = Some story2
        ∧ _calculate_story_similarity nlp story1 story2 = Some s
        ∧ (similarity_threshold <= s)%Q.
Proof.
  revert i relationships.
  induction ps as [|story1 rest IH]; intros i relationships; simpl.
  { intros [= <-]. split; [by intros ?%elem_of_nil|].
    by intros (_ & ? & ? & ? & _). }
  destruct (pairs_from nlp similarity_threshold i story1 (S i) rest)
    as [pairs|] eqn:Hpairs; simpl; [|done].
  destruct (relationships_from nlp similarity_threshold (S i) rest)
    as [later|] eqn:Hlater; simpl; [|done].
  intros [= <-].
  rewrite elem_of_app, (elem_of_pairs_from _ _ _ _ _ _ _ _ Hpairs),
    (IH _ _ Hlater). split.
  - intros [(-> & Hb & q & Hq & Hs)|(Hab & p & q & Hp & Hq & Hs)].
    + split; [lia|]. exists story1, q. rewrite Nat.sub_diag.
      replace (b - i) with (S (b - S i)) by lia. done.
    + split; [lia|]. exists p, q.
      replace (a - i) with (S (a - S i)) by lia.
      replace (b - i) with (S (b - S i)) by lia. done.
  - intros (Hab & p & q & Hp & Hq & Hs).
    replace (b - i) with (S (b - S i)) in Hq by lia.
    destruct (decide (a = i)) as [->|Hne].
    + left. rewrite Nat.sub_diag in Hp. simplify_eq/=.
      split; [done|]. split; [lia|]. by exists q.
    + right. replace (a - i) with (S (a - S i)) in Hp by lia.
      split; [lia|]. by exists p, q.
Qed.
End Pairs.

Lemma jaccard_bounds (a b : gset string) :
  (0 <= (if (0 <? size (a ∪ b))%nat then ratio (size (a ∩ b)) (size (a ∪ b)) else 0) <= 1)%Q.
Proof.
  destruct (0 <? size (a ∪ b)) eqn:Hu; [|done]. apply Nat.ltb_lt in Hu. split.
  - apply ratio_nonneg.
  - apply ratio_le_1; [|lia]. apply subseteq_size. set_solver.
Qed.

Lemma entity_similarity_bounds e1 e2 : (0 <= _entity_similarity e1 e2 <= 1)%Q.
Proof.
  unfold _entity_similarity. do 2 (case_match; [done|]). apply jaccard_bounds.
Qed.

Lemma keyword_similarity_bounds k1 k2 : (0 <= _keyword_similarity k1 k2 <= 1)%Q.
Proof.
  unfold _keyword_similarity. case_match; [done|]. apply jaccard_bounds.
Qed.

Lemma temporal_similarity_bounds d1 d2 s :
  _temporal_similarity d1 d2 = Some s → (0 <= s <= 1)%Q.
Proof.
  unfold _temporal_similarity.
  destruct (sub_datetime d1 d2) as [time_diff|]; simpl; [|done].
  intros [= <-]. by repeat case_match.
Qed.

End RelationFacts.

(** ** The depth-first search reaches the connected component *)

Module SearchFacts.
Import Correlators CorrelatorsFacts ScoreFacts.

Lemma adjacent_add_edge graph a b s i j :
  adjacent (add_edge graph (a, b, s)) i j
  ↔ adjacent graph i j ∨ (i = a ∧ j = b) ∨ (i = b ∧ j = a).
Proof.
  unfold adjacent, add_edge.
  destruct (decide (i = b)) as [->|Hib].
  - rewrite lookup_insert_eq. simpl. rewrite elem_of_union, elem_of_singleton.
    destruct (decide (b = a)) as [->|Hba].
    + rewrite lookup_insert_eq. simpl. rewrite elem_of_union, elem_of_singleton.
      naive_solver.
    + rewrite lookup_insert_ne by done. naive_solver.
  - rewrite lookup_insert_ne by done.
    destruct (decide (i = a)) as [->|Hia].
    + rewrite lookup_insert_eq. simpl. rewrite elem_of_union, elem_of_singleton.
      naive_solver.
    + rewrite lookup_insert_ne by done. naive_solver.
Qed.

Lemma adjacent_build_graph relationships i j :
  adjacent (build_graph relationships) i j ↔ related relationships i j.
Proof.
  unfold build_graph.
  assert (∀ g, adjacent (foldl add_edge g relationships) i j
               ↔ adjacent g i j ∨ related relationships i j) as Hgen.
  { induction relationships as [|[[a b] s] rels IH]; intros g.
    { simpl. split; [by left|]. intros [?|[s [?%elem_of_nil|?%elem_of_nil]]]; done. }
    change (foldl add_edge g ((a, b, s) :: rels))
      with (foldl add_edge (add_edge g (a, b, s)) rels).
    rewrite IH, adjacent_add_edge. unfold related. split.
    - intros [[?|[[-> ->]|[-> ->]]]|[s' [?|?]]].
      + by left.
      + right. exists s. left. by left.
      + right. exists s. right. by left.
      + right. exists s'. left. by right.
      + right. exists s'. right. by right.
    - intros [?|[s' [Hin|Hin]]]; [by left; left|..];
        apply elem_of_cons in Hin as [?|?]; simplify_eq.
      + left. right. by left.
      + right. exists s'. by left.
      + left. right. by right.
      + right. exists s'. by right. }
  rewrite Hgen. unfold adjacent at 1. rewrite lookup_empty. simpl. set_solver.
Qed.

Lemma related_sym relationships i j :
  related relationships i j → related relationships j i.
Proof. intros [s [?|?]]; exists s; [by right|by left]. Qed.

Lemma connected_sym relationships i j :
  connected relationships i j → connected relationships j i.
Proof.
  induction 1 as [|i k j Hik _ IH]; [done|].
  eapply rtc_r; [exact IH|]. by apply related_sym.
Qed.

Section Search.
Context (graph : gmap nat (gset nat)).

Lemma visit_failed depth nbs : foldl (visit graph depth) None nbs = None.
Proof. by induction nbs. Qed.

Lemma visit_explores depth visited cur nbs :
  explores graph depth →
  ∀ D0 visited' cur',
    foldl (visit graph depth) (Some (visited ∪ D0, cur ∪ D0)) nbs
      = Some (visited', cur') →
    ∃ D, visited' = visited ∪ D ∧ cur' = cur ∪ D ∧ D0 ⊆ D
         ∧ (∀ x, x ∈ D → x ∈ D0 ∨ ∃ nb, nb ∈ nbs ∧ rtc (adjacent graph) nb x)
         ∧ (∀ x y, x ∈ D → x ∉ D0 → adjacent graph x y → y ∈ visited ∪ D)
         ∧ (∀ nb, nb ∈ nbs → nb ∈ visited ∪ D).
Proof.
  intros IH. induction nbs as [|nb nbs IHn]; intros D0 visited' cur'; simpl.
  { intros [= <- <-]. exists D0. split_and!; try done.
    - by left.
    - by intros nb ?%elem_of_nil. }
  case_decide as Hv.
  { intros Hf. destruct (IHn _ _ _ Hf) as (D & -> & -> & Hsub & Hr & Hc & Hn).
    exists D. split_and!; try done.
    - intros x Hx. destruct (Hr x Hx) as [?|(nb' & ? & ?)]; [by left|].
      right. exists nb'. split; [by right|done].
    - intros nb' [->|?]%elem_of_cons; [set_solver|by apply Hn]. }
  destruct (dfs depth graph nb (visited ∪ D0, cur ∪ D0)) as [[v1 c1]|] eqn:Hd;
    [|by rewrite visit_failed].
  destruct (IH _ _ _ _ _ Hd) as (D1 & -> & -> & Hnb & Hr1 & Hc1).
  rewrite <-!(assoc_L (∪)). intros Hf.
  destruct (IHn _ _ _ Hf) as (D & -> & -> & Hsub & Hr & Hc & Hn).
  exists D. split_and!; try done.
  - set_solver.
  - intros x Hx. destruct (Hr x Hx) as [[?|?]%elem_of_union|(nb' & ? & ?)].
    + by left.
    + right. exists nb. split; [by left|by apply Hr1].
    + right. exists nb'. split; [by right|done].
  - intros x y Hx Hx0 Hxy. destruct (decide (x ∈ D1)) as [Hx1|Hx1].
    + specialize (Hc1 x y Hx1 Hxy). set_solver.
    + apply (Hc x y); [done|set_solver|done].
  - intros nb' [->|?]%elem_of_cons; [set_solver|by apply Hn].
Qed.

Lemma dfs_explores depth : explores graph depth.
Proof.
  induction depth as [|depth IH]; intros node visited cur visited' cur'; [done|].
  simpl. fold (visit graph depth).
  replace ({[node]} ∪ visited) with (visited ∪ {[node]}) by set_solver.
  replace ({[node]} ∪ cur) with (cur ∪ {[node]}) by set_solver.
  intros Hf.
  destruct (visit_explores depth visited cur _ IH _ _ _ Hf)
    as (D & -> & -> & Hsub & Hr & Hc & Hn).
  exists D. split_and!; try done.
  - set_solver.
  - intros x Hx. destruct (Hr x Hx) as [->%elem_of_singleton|(nb & Hnb & Hx')]; [done|].
    eapply rtc_l; [|exact Hx']. by apply elem_of_elements in Hnb.
  - intros x y Hx Hxy. destruct (decide (x = node)) as [->|Hne].
    + apply Hn. by apply elem_of_elements.
    + apply (Hc x y); [done|set_solver|done].
Qed.
End Search.

End SearchFacts.

Module ComponentFacts.
Import Correlators CorrelatorsFacts ScoreFacts.
Import OrderFacts SearchFacts.

Section Components.
Context (processed_stories : list processed).
Context (graph : gmap nat (gset nat)) (depth : nat).
Hypothesis symmetric : ∀ i j, adjacent graph i j → adjacent graph j i.

Lemma reach_sym i j : rtc (adjacent graph) i j → rtc (adjacent graph) j i.
Proof.
  induction 1 as [|i k j Hik _ IH]; [done|].
  eapply rtc_r; [exact IH|]. by apply symmetric.
Qed.

Lemma cluster_fold_stories c0 (nodes : list nat) c :
  foldl (λ acc node,
           cluster ← acc;
           ps ← processed_stories !! node;
           Some (add_story cluster ps)) (Some c0) nodes = Some c →
  stories c = stories c0 ++ ((λ i, processed_stories !!! i) <$> nodes)
  ∧ cluster_id c = cluster_id c0.
Proof.
  revert c0. induction nodes as [|x nodes IH]; intros c0; simpl.
  { intros [= <-]. by rewrite app_nil_r. }
  destruct (processed_stories !! x) as [ps|] eqn:Hps; simpl.
  - intros [-> ->]%IH. simpl. rewrite <-app_assoc. simpl.
    by rewrite (list_lookup_total_correct _ _ _ Hps).
  - intros Hf. exfalso. revert Hf. clear. by induction nodes.
Qed.

Lemma component_step_failed indices :
  foldl (component_step depth graph processed_stories) None indices = None.
Proof. by induction indices. Qed.

Lemma component_loop_components indices visited clusters visited' clusters' :
  foldl (component_step depth graph processed_stories)
        (Some (visited, clusters)) indices = Some (visited', clusters') →
  (∀ x, x ∈ indices → x < length processed_stories) →
  (∀ x y, x ∈ visited → adjacent graph x y → y ∈ visited) →
  (∀ i, i ∈ visited → i < length processed_stories →
     ∃ c, c ∈ clusters
          ∧ component_of processed_stories (rtc (adjacent graph)) c i) →
  Forall (λ c, ∃ i, component_of processed_stories (rtc (adjacent graph)) c i)
    clusters →
  (∀ i, i ∈ visited ∨ i ∈ indices → i < length processed_stories →
     ∃ c, c ∈ clusters'
          ∧ component_of processed_stories (rtc (adjacent graph)) c i)
  ∧ Forall (λ c, ∃ i, component_of processed_stories (rtc (adjacent graph)) c i)
      clusters'.
Proof.
  revert visited clusters.
  induction indices as [|i indices IH]; intros visited clusters; simpl.
  { intros [= <- <-] _ _ Hcov Hall. split; [|done].
    intros i [?|?%elem_of_nil]; [by apply Hcov|done]. }
  case_decide as Hin.
  { intros Hf Hlt Hcl Hcov Hall.
    destruct (IH _ _ Hf) as [Hcov' Hall']; try done.
    { intros x Hx. apply Hlt. by right. }
    split; [|done]. intros k [?|[->|?]%elem_of_cons]; apply Hcov'; auto. }
  destruct (dfs depth graph i (visited, ∅)) as [[v1 c1]|] eqn:Hd; simpl;
    [|by rewrite component_step_failed].
  destruct (dfs_explores graph depth _ _ _ _ _ Hd) as (D & -> & -> & HiD & Hr & Hc).
  rewrite (left_id_L ∅ (∪)).
  destruct (cluster_of processed_stories (length clusters) D) as [c|] eqn:Hcl;
    simpl; [|by rewrite component_step_failed].
  apply cluster_fold_stories in Hcl as [Hst _].
  intros Hf Hlt Hclosed Hcov Hall.
  assert (∀ x, rtc (adjacent graph) i x → x ∈ D ∧ x ∉ visited) as Hreach.
  { intros x Hx. apply rtc_nsteps in Hx as [n Hx]. revert x Hx.
    induction n as [|n IHn]; intros x Hx.
    - inv Hx. done.
    - apply nsteps_inv_r in Hx as (z & Hz & Hzx).
      destruct (IHn z Hz) as [HzD Hzv].
      assert (x ∉ visited) as Hxv.
      { intros Hxv. apply Hzv. eapply Hclosed; [exact Hxv|]. by apply symmetric. }
      split; [|done]. specialize (Hc z x HzD Hzx). set_solver. }
  assert (∀ k, k ∈ D → k < length processed_stories →
            component_of processed_stories (rtc (adjacent graph)) c k)
    as Hcomp.
  { intros k Hk Hkn. split; [done|].
    exists D. split; [by rewrite Hst|]. intros j. split.
    - intros Hj. transitivity i; [by apply reach_sym, Hr|by apply Hr].
    - intros Hj. destruct (Hreach j) as [? _]; [|done].
      transitivity k; [by apply Hr|done]. }
  assert (i < length processed_stories) as Hi by (apply Hlt; by left).
  destruct (IH _ _ Hf) as [Hcov' Hall'].
  - intros x Hx. apply Hlt. by right.
  - intros x y [Hx|Hx]%elem_of_union Hxy; [|by apply (Hc x)].
    apply elem_of_union. left. by eapply Hclosed.
  - intros k [Hk|Hk]%elem_of_union Hkn.
    + destruct (Hcov k Hk Hkn) as (c' & ? & ?). exists c'. split; [|done].
      apply elem_of_app. by left.
    + exists c. split; [apply elem_of_app; right; by left|by apply Hcomp].
  - apply Forall_app. split; [done|]. apply Forall_singleton. exists i. by apply Hcomp.
  - split; [|done]. intros k [?|[->|?]%elem_of_cons]; apply Hcov'; auto.
    + left. apply elem_of_union. by left.
    + left. apply elem_of_union. by right.
Qed.
End Components.

Lemma singleton_clusters_lookup (ps : list processed) k i p :
  ps !! i = Some p →
  ∃ c, c ∈ imap (λ i p, add_story (new_cluster (k + i)) p) ps
       ∧ stories c = [p] ∧ cluster_id c = k + i.
Proof.
  revert k i. induction ps as [|q ps IH]; intros k i; [done|]. simpl.
  destruct i as [|i]; simpl.
  - intros [= ->]. eexists. split; [by left|]. by rewrite Nat.add_0_r.
  - intros Hp. destruct (IH (S k) i Hp) as (c & Hc & Hs & Hid).
    exists c. split; [|split; [done|lia]]. right.
    erewrite imap_ext; [exact Hc|]. intros j x _. simpl. do 2 f_equal. lia.
Qed.

Lemma connected_nil i j : connected [] i j ↔ i = j.
Proof.
  split; [|by intros ->].
  induction 1 as [|i k j [s [?%elem_of_nil|?%elem_of_nil]] _ _]; done.
Qed.

Lemma create_clusters_components depth processed_stories relationships clusters :
  _create_clusters depth processed_stories relationships = Some clusters →
  (∀ i, i < length processed_stories →
     ∃ c, c ∈ clusters
          ∧ component_of processed_stories (connected relationships) c i)
  ∧ Forall (λ c, ∃ i, component_of processed_stories (connected relationships) c i)
      clusters.
Proof.
  unfold _create_clusters. destruct relationships as [|r rels].
  { intros [= <-].
    assert (∀ i p, processed_stories !! i = Some p → ∀ c : StoryCluster,
              stories c = [p] →
              component_of processed_stories (connected []) c i) as Hone.
    { intros i p Hp c Hs. split; [by eapply lookup_lt_Some|]. exists {[i]}. split.
      - rewrite Hs. unfold members. rewrite elements_singleton. simpl.
        by rewrite (list_lookup_total_correct _ _ _ Hp).
      - intros j. rewrite connected_nil. set_solver. }
    split.
    - intros i Hi. destruct (lookup_lt_is_Some_2 _ _ Hi) as [p Hp].
      destruct (singleton_clusters_lookup processed_stories 0 i p Hp)
        as (c & Hc & Hs & _).
      exists c. split; [done|]. by eapply Hone.
    - apply Forall_forall. intros c Hc.
      apply elem_of_lookup_imap in Hc as (i & p & -> & Hp).
      exists i. by eapply Hone. }
  set (relationships := r :: rels).
  destruct (foldl _ _ _) as [[v' c']|] eqn:Hf; [|done]. simpl. intros [= <-].
  assert (∀ i j, adjacent (build_graph relationships) i j
                 ↔ related relationships i j) as Hadj
    by apply adjacent_build_graph.
  assert (∀ i j, rtc (adjacent (build_graph relationships)) i j
                 ↔ connected relationships i j) as Hrtc.
  { intros i j. unfold connected. split; apply rtc_subrel; intros ? ?; apply Hadj. }
  assert (∀ i j, adjacent (build_graph relationships) i j
                 → adjacent (build_graph relationships) j i) as Hsym.
  { intros i j ?%Hadj. by apply Hadj, related_sym. }
  destruct (component_loop_components processed_stories
              (build_graph relationships) depth Hsym _ _ _ _ _ Hf) as [Hcov Hall].
  - intros x Hx%elem_of_seq. lia.
  - set_solver.
  - set_solver.
  - done.
  - assert (∀ c i,
      component_of processed_stories (rtc (adjacent (build_graph relationships))) c i
      → component_of processed_stories (connected relationships) c i) as Hto.
    { intros c i (? & D & ? & HD). split; [done|]. exists D. split; [done|].
      intros j. by rewrite HD, Hrtc. }
    split.
    + intros i Hi. destruct (Hcov i) as (c & Hc & Hcomp); [|done|].
      { right. apply elem_of_seq. lia. }
      exists c. split; [|by apply Hto]. by rewrite sort_desc_perm.
    + rewrite sort_desc_perm. eapply Forall_impl; [exact Hall|].
      intros c [i ?]. exists i. by apply Hto.
Qed.

(** The numbering and the order of the clusters *)
Section Numbering.
Context (processed_stories : list processed).
Context (graph : gmap nat (gset nat)) (depth : nat).

Lemma component_loop_ids indices visited clusters visited' clusters' :
  foldl (component_step depth graph processed_stories)
        (Some (visited, clusters)) indices = Some (visited', clusters') →
  cluster_id <$> clusters = seq 0 (length clusters) →
  cluster_id <$> clusters' = seq 0 (length clusters').
Proof.
  revert visited clusters.
  induction indices as [|i indices IH]; intros visited clusters; simpl.
  { by intros [= <- <-]. }
  case_decide as Hin; [apply IH|].
  destruct (dfs depth graph i (visited, ∅)) as [[v1 c1]|]; simpl;
    [|by rewrite component_step_failed].
  destruct (cluster_of processed_stories (length clusters) c1) as [c|] eqn:Hcl;
    simpl; [|by rewrite component_step_failed].
  apply cluster_fold_stories in Hcl as [_ Hid]. simpl in Hid.
  intros Hf Hids. apply (IH _ _ Hf).
  rewrite fmap_app, length_app, Hids. simpl. rewrite Hid.
  by rewrite Nat.add_1_r, seq_S.
Qed.
End Numbering.

Lemma singletons_sorted_by (clusters : list StoryCluster) :
  Forall (λ c, length (stories c) = 1) clusters →
  StronglySorted (λ c1 c2, length (stories c2) ≤ length (stories c1)) clusters.
Proof.
  induction 1 as [|c clusters Hc Hall IH]; constructor; [done|].
  eapply Forall_impl; [exact Hall|]. simpl. lia.
Qed.

Lemma create_clusters_numbered_sorted
    (depth : nat) (processed_stories : list processed)
    (relationships : list (nat * nat * Q)) (clusters : list StoryCluster) :
  _create_clusters depth processed_stories relationships = Some clusters →
  cluster_id <$> clusters ≡ₚ seq 0 (length clusters)
  ∧ StronglySorted (λ c1 c2, length (stories c2) ≤ length (stories c1)) clusters.
Proof.
  unfold _create_clusters. destruct relationships as [|r rels].
  - intros [= <-]. split.
    + rewrite length_imap. by rewrite (imap_node_ids _ _ _ 0).
    + apply singletons_sorted_by, Forall_forall.
      by intros c (i & p & -> & _)%elem_of_lookup_imap.
  - destruct (foldl _ _ _) as [[v' c']|] eqn:Hf; [|done]. simpl. intros [= <-].
    split; [|apply sort_desc_sorted].
    apply component_loop_ids in Hf; [|done].
    rewrite sort_desc_perm at 1. rewrite Hf.
    by rewrite (Permutation_length (sort_desc_perm _ c')).
Qed.

Lemma create_clusters_sorted depth processed_stories relationships clusters :
  _create_clusters depth processed_stories relationships = Some clusters →
  StronglySorted (λ c1 c2, length (stories c2) ≤ length (stories c1)) clusters.
Proof. by intros [_ ?]%create_clusters_numbered_sorted. Qed.

End ComponentFacts.

(** ** What a cluster pools *)

Module ClusterFacts.
Import Correlators CorrelatorsFacts ScoreFacts.
Import OrderFacts SearchFacts ComponentFacts.

Lemma add_entities_lookup (se : gmap string (gset string))
    (t : string) (es : list string) entity_type entity :
  entity ∈ default ∅
    (foldl (λ se entity, <[t := {[entity]} ∪ default ∅ (se !! t)]> se)
           se es !! entity_type)
  ↔ entity ∈ default ∅ (se !! entity_type)
    ∨ (entity_type = t ∧ entity ∈ es).
Proof.
  revert se. induction es as [|e es IH]; intros se; simpl.
  { split; [by left|]. by intros [?|[_ ?%elem_of_nil]]. }
  rewrite IH. destruct (decide (t = entity_type)) as [->|Hne].
  - rewrite lookup_insert_eq. simpl. rewrite elem_of_union, elem_of_singleton.
    split.
    + intros [[->|?]|[_ ?]].
      * right. split; [done|by left].
      * by left.
      * right. split; [done|by right].
    + intros [?|[_ [->|?]%elem_of_cons]].
      * left. by right.
      * left. by left.
      * by right.
  - rewrite lookup_insert_ne by done. split.
    + intros [?|[? ?]]; [by left|by simplify_eq].
    + intros [?|[? ?]]; [by left|by simplify_eq].
Qed.

Lemma shared_entities_fold (se : gmap string (gset string))
    (es : list (string * list string)) entity_type entity :
  entity ∈ default ∅
    (foldl (λ se '(entity_type, es),
              foldl (λ se entity,
                       <[entity_type :=
                          {[entity]} ∪ default ∅ (se !! entity_type)]> se)
                    se es)
           se es !! entity_type)
  ↔ entity ∈ default ∅ (se !! entity_type)
    ∨ ∃ l, (entity_type, l) ∈ es ∧ entity ∈ l.
Proof.
  revert se. induction es as [|[t l] es IH]; intros se; simpl.
  { split; [by left|]. by intros [?|(? & ?%elem_of_nil & _)]. }
  rewrite IH, add_entities_lookup. split.
  - intros [[?|[-> ?]]|(l' & ? & ?)].
    + by left.
    + right. exists l. split; [by left|done].
    + right. exists l'. split; [by right|done].
  - intros [?|(l' & [?|?]%elem_of_cons & ?)].
    + left. by left.
    + simplify_eq. left. by right.
    + right. by exists l'.
Qed.

Lemma new_cluster_pools i : pools_its_stories (new_cluster i).
Proof.
  split.
  - intros k. simpl. split; [set_solver|]. by intros (? & ?%elem_of_nil & _).
  - intros t e. simpl. rewrite lookup_empty. simpl.
    split; [set_solver|]. by intros (? & ? & ?%elem_of_nil & _).
Qed.

Lemma add_story_pools c ps :
  pools_its_stories c → pools_its_stories (add_story c ps).
Proof.
  intros [Hk He]. split.
  - intros k. simpl. rewrite elem_of_union, elem_of_list_to_set, Hk. split.
    + intros [(p & ? & ?)|?].
      * exists p. split; [|done]. apply elem_of_app. by left.
      * exists ps. split; [|done]. apply elem_of_app. right. by left.
    + intros (p & [?|Hp%list_elem_of_singleton]%elem_of_app & ?).
      * left. by exists p.
      * subst p. by right.
  - intros t e. unfold add_story at 1. cbn [shared_entities stories].
    rewrite shared_entities_fold, He. split.
    + intros [(p & es & ? & ? & ?)|(l & ? & ?)].
      * exists p, es. split; [|done]. apply elem_of_app. by left.
      * exists ps, l. split; [|done]. apply elem_of_app. right. by left.
    + intros (p & es & [?|Hp%list_elem_of_singleton]%elem_of_app & ? & ?).
      * left. by exists p, es.
      * subst p. right. by exists es.
Qed.

Lemma cluster_of_pools processed_stories cid nodes c :
  cluster_of processed_stories cid nodes = Some c → pools_its_stories c.
Proof.
  unfold cluster_of.
  pose proof (new_cluster_pools cid) as Hc0. revert Hc0.
  generalize (new_cluster cid) as c0. generalize (elements nodes) as l.
  induction l as [|x l IH]; intros c0 Hc0; simpl.
  { by intros [= <-]. }
  destruct (processed_stories !! x) as [ps|]; simpl.
  - apply IH. by apply add_story_pools.
  - intros Hf. exfalso. revert Hf. clear. by induction l.
Qed.

Lemma component_loop_pools processed_stories graph depth
    indices visited clusters visited' clusters' :
  foldl (component_step depth graph processed_stories)
        (Some (visited, clusters)) indices = Some (visited', clusters') →
  Forall pools_its_stories clusters → Forall pools_its_stories clusters'.
Proof.
  revert visited clusters.
  induction indices as [|i indices IH]; intros visited clusters; simpl.
  { by intros [= <- <-]. }
  case_decide as Hin; [apply IH|].
  destruct (dfs depth graph i (visited, ∅)) as [[v1 c1]|]; simpl;
    [|by rewrite component_step_failed].
  destruct (cluster_of processed_stories (length clusters) c1) as [c|] eqn:Hcl;
    simpl; [|by rewrite component_step_failed].
  apply cluster_of_pools in Hcl.
  intros Hf Hall. apply (IH _ _ Hf). apply Forall_app. split; [done|].
  by apply Forall_singleton.
Qed.

(** [min(dates)] and [max(dates)] of dates that can be compared. *)
Lemma min_datetime_spec first rest :
  comparable (first :: rest) →
  ∃ least,
    min_datetime first rest = Some least
    ∧ least ∈ first :: rest
    ∧ Forall (λ date, (instant least ≤ instant date)%Z) (first :: rest).
Proof.
  induction rest as [|date rest IH] using rev_ind; intros Hdates.
  { exists first. split; [done|]. split; [by left|]. by apply Forall_singleton. }
  destruct Hdates as [a Hall].
  rewrite app_comm_cons in Hall. apply Forall_app in Hall as [Hall Hd].
  rewrite Forall_singleton in Hd.
  destruct IH as (least & Hmin & Hin & Hle); [by exists a|].
  unfold min_datetime in *. rewrite foldl_app, Hmin. simpl.
  assert (aware least = a) as Hleast
    by (rewrite Forall_forall in Hall; by apply Hall).
  unfold lt_datetime. rewrite Hd, Hleast.
  assert (Bool.eqb a a = true) as -> by (by destruct a). simpl.
  rewrite !app_comm_cons.
  destruct (instant date <? instant least)%Z eqn:Hlt.
  - apply Z.ltb_lt in Hlt. exists date. split; [done|]. split.
    + apply elem_of_app. right. by left.
    + apply Forall_app. split; [|by apply Forall_singleton].
      eapply Forall_impl; [exact Hle|]. simpl. intros. lia.
  - apply Z.ltb_ge in Hlt. exists least. split; [done|]. split.
    + apply elem_of_app. by left.
    + apply Forall_app. split; [done|]. by apply Forall_singleton.
Qed.

Lemma max_datetime_spec first rest :
  comparable (first :: rest) →
  ∃ greatest,
    max_datetime first rest = Some greatest
    ∧ greatest ∈ first :: rest
    ∧ Forall (λ date, (instant date ≤ instant greatest)%Z) (first :: rest).
Proof.
  induction rest as [|date rest IH] using rev_ind; intros Hdates.
  { exists first. split; [done|]. split; [by left|]. by apply Forall_singleton. }
  destruct Hdates as [a Hall].
  rewrite app_comm_cons in Hall. apply Forall_app in Hall as [Hall Hd].
  rewrite Forall_singleton in Hd.
  destruct IH as (greatest & Hmax & Hin & Hle); [by exists a|].
  unfold max_datetime in *. rewrite foldl_app, Hmax. simpl.
  assert (aware greatest = a) as Hgreatest
    by (rewrite Forall_forall in Hall; by apply Hall).
  unfold gt_datetime. rewrite Hd, Hgreatest.
  assert (Bool.eqb a a = true) as -> by (by destruct a). simpl.
  rewrite !app_comm_cons.
  destruct (instant greatest <? instant date)%Z eqn:Hlt.
  - apply Z.ltb_lt in Hlt. exists date. split; [done|]. split.
    + apply elem_of_app. right. by left.
    + apply Forall_app. split; [|by apply Forall_singleton].
      eapply Forall_impl; [exact Hle|]. simpl. intros. lia.
  - apply Z.ltb_ge in Hlt. exists greatest. split; [done|]. split.
    + apply elem_of_app. by left.
    + apply Forall_app. split; [done|]. by apply Forall_singleton.
Qed.

End ClusterFacts.

(** ** The aggregator's dict of stories *)

Module AggregatorFacts.
Import Correlators CorrelatorsFacts.
Import Aggregator.

Lemma dict_set_keys {V} key (value : V) d :
  (dict_set key value d).*1
  = if decide (key ∈ d.*1) then d.*1 else d.*1 ++ [key].
Proof.
  induction d as [|[k v] d IH]; csimpl; [done|].
  destruct (decide (k = key)) as [->|Hne]; csimpl.
  - by rewrite decide_True by (by left).
  - rewrite IH. destruct (decide (key ∈ d.*1)) as [Hin|Hout].
    + by rewrite decide_True by (by right).
    + rewrite decide_False; [done|]. by intros [?|?]%elem_of_cons.
Qed.

Lemma dict_set_NoDup {V} key (value : V) d :
  NoDup d.*1 → NoDup (dict_set key value d).*1.
Proof.
  intros Hnd. rewrite dict_set_keys. case_decide; [done|].
  apply NoDup_app. split_and!; [done| |apply NoDup_singleton].
  by intros x Hx ->%list_elem_of_singleton.
Qed.

Lemma elem_of_dict_set {V} key (value : V) d k v :
  NoDup d.*1 →
  (k, v) ∈ dict_set key value d
  ↔ (k = key ∧ v = value) ∨ (k ≠ key ∧ (k, v) ∈ d).
Proof.
  induction d as [|[k' v'] d IH]; simpl.
  { intros _. rewrite list_elem_of_singleton. split.
    - intros [= -> ->]. by left.
    - intros [[-> ->]|[_ ?%elem_of_nil]]; done. }
  intros [Hk' Hnd]%NoDup_cons.
  destruct (decide (k' = key)) as [->|Hne].
  - rewrite !elem_of_cons. split.
    + intros [[= -> ->]|Hin]; [by left|]. right. split; [|by right].
      intros ->. apply Hk'. by apply (list_elem_of_fmap_2 fst _ (key, v)).
    + intros [[-> ->]|[Hne [?|?]]]; [by left|by simplify_eq|by right].
  - rewrite !elem_of_cons, IH by done. split.
    + intros [[= -> ->]|[[-> ->]|[? ?]]]; [right|by left|right]; split; auto.
    + intros [[-> ->]|[? [?|?]]]; [right; by left|by left|right; by right].
Qed.

Lemma unique_stories_spec (all_stories : list Story) :
  let unique_stories :=
    foldl (λ d story, dict_set (url story) story d) [] all_stories in
  NoDup unique_stories.*1
  ∧ ∀ k story,
      (k, story) ∈ unique_stories
      ↔ last (filter (λ s, url s = k) all_stories) = Some story.
Proof.
  induction all_stories as [|s all_stories IH] using rev_ind; simpl.
  { split; [constructor|]. intros k story. split; [by intros ?%elem_of_nil|done]. }
  destruct IH as [Hnd IH]. rewrite foldl_app. simpl. split.
  - by apply dict_set_NoDup.
  - intros k story. rewrite elem_of_dict_set, IH by done.
    rewrite filter_app, filter_cons, filter_nil.
    destruct (decide (url s = k)) as [<-|Hne].
    + rewrite last_snoc. split.
      * intros [[_ ->]|[? _]]; done.
      * intros [= ->]. by left.
    + rewrite app_nil_r. split.
      * by intros [[-> _]|[_ ?]].
      * intros Hl. right. split; [|done]. intros ->.
        apply last_Some_elem_of, list_elem_of_filter in Hl as [? _]. done.
Qed.

End AggregatorFacts.

(** ** Counting words: [Counter] and [most_common] *)

Module KeywordFacts.
Import OrderFacts.
Import NLP.

Lemma bump_keys w counts :
  (bump w counts).*1 = if decide (w ∈ counts.*1) then counts.*1 else counts.*1 ++ [w].
Proof.
  induction counts as [|[k c] counts IH]; csimpl; [done|].
  destruct (decide (k = w)) as [->|Hne]; csimpl.
  - by rewrite decide_True by (by left).
  - rewrite IH. destruct (decide (w ∈ counts.*1)) as [Hin|Hout].
    + by rewrite decide_True by (by right).
    + rewrite decide_False; [done|]. by intros [?|?]%elem_of_cons.
Qed.

Lemma bump_absent w counts :
  w ∉ counts.*1 → bump w counts = counts ++ [(w, 1)].
Proof.
  induction counts as [|[k c] counts IH]; csimpl; [done|].
  intros Hout. rewrite decide_False by (intros ->; apply Hout; by left).
  rewrite IH; [done|]. intros ?. apply Hout. by right.
Qed.

Lemma bump_present w c counts k c' :
  NoDup counts.*1 → (w, c) ∈ counts →
  (k, c') ∈ bump w counts ↔ (k = w ∧ c' = S c) ∨ (k ≠ w ∧ (k, c') ∈ counts).
Proof.
  induction counts as [|[k0 c0] counts IH]; csimpl; [by intros _ ?%elem_of_nil|].
  intros [Hk0 Hnd]%NoDup_cons Hin.
  assert (∀ x, (k0, x) ∉ counts) as Hout.
  { intros x Hx. apply Hk0. by apply (list_elem_of_fmap_2 fst _ (k0, x)). }
  destruct (decide (k0 = w)) as [->|Hne].
  - apply elem_of_cons in Hin as [Hin|Hin]; [|by apply Hout in Hin].
    simplify_eq. rewrite !elem_of_cons. split.
    + intros [?|Hin]; [left; by simplify_eq|].
      right. split; [|by right]. intros ->. by apply Hout in Hin.
    + intros [[-> ->]|[? [?|?]]]; [by left|by simplify_eq|by right].
  - apply elem_of_cons in Hin as [?|Hin]; [by simplify_eq|].
    rewrite !elem_of_cons, (IH Hnd Hin). split.
    + intros [?|[?|[? ?]]]; [right|by left|right].
      * simplify_eq. split; [done|by left].
      * split; [done|by right].
    + intros [?|[? [?|?]]]; [right; by left|by left|right; by right].
Qed.

Lemma occurrences_snoc w xs x :
  occurrences w (xs ++ [x])
  = if decide (x = w) then S (occurrences w xs) else occurrences w xs.
Proof.
  unfold occurrences. rewrite filter_app, length_app, filter_cons, filter_nil.
  case_decide; simpl; lia.
Qed.

Lemma occurrences_pos w xs : w ∈ xs ↔ 0 < occurrences w xs.
Proof.
  unfold occurrences. split.
  - intros Hin. assert (w ∈ filter (λ x, x = w) xs) as Hf
      by (by apply list_elem_of_filter).
    destruct (filter _ xs); [by apply elem_of_nil in Hf|simpl; lia].
  - intros Hpos. destruct (filter (λ x, x = w) xs) as [|y l] eqn:Hf; [simpl in *; lia|].
    assert (y ∈ filter (λ x, x = w) xs) as [-> ?]%list_elem_of_filter
      by (rewrite Hf; by left). done.
Qed.

Lemma counter_spec xs :
  NoDup (counter xs).*1
  ∧ ∀ w c, (w, c) ∈ counter xs ↔ w ∈ xs ∧ c = occurrences w xs.
Proof.
  unfold counter.
  induction xs as [|x xs IH] using rev_ind; simpl.
  { split; [constructor|]. intros w c. split; [by intros ?%elem_of_nil|].
    by intros [?%elem_of_nil _]. }
  destruct IH as [Hnd IH]. rewrite foldl_app. simpl. split.
  { rewrite bump_keys. case_decide; [done|].
    apply NoDup_app. split_and!; [done| |apply NoDup_singleton].
    by intros y Hy ->%list_elem_of_singleton. }
  intros w c. rewrite elem_of_app, list_elem_of_singleton, occurrences_snoc.
  destruct (decide (x ∈ xs)) as [Hx|Hx].
  - assert ((x, occurrences x xs) ∈ foldl (λ counts w, bump w counts) [] xs)
      as Hin by (by apply IH).
    rewrite (bump_present _ _ _ _ _ Hnd Hin). split.
    + intros [[-> ->]|[Hne [? ->]%IH]].
      * rewrite decide_True by done. split; [by right|done].
      * rewrite decide_False by done. split; [by left|done].
    + intros [Hw ->]. destruct (decide (x = w)) as [->|Hne]; [by left|].
      right. split; [done|]. apply IH. by destruct Hw.
  - rewrite bump_absent.
    2:{ intros ([w' c'] & -> & [? _]%IH)%list_elem_of_fmap. done. }
    rewrite elem_of_app, list_elem_of_singleton. split.
    + intros [[? ->]%IH|?].
      * rewrite decide_False by (by intros ->). split; [by left|done].
      * simplify_eq. rewrite decide_True by done. split; [by right|].
        destruct (occurrences x xs) eqn:Ho; [done|].
        exfalso. apply Hx, occurrences_pos. lia.
    + intros [Hw ->]. destruct (decide (x = w)) as [->|Hne].
      * right. destruct (occurrences w xs) eqn:Ho; [done|].
        exfalso. apply Hx, occurrences_pos. lia.
      * left. apply IH. by destruct Hw.
Qed.

Lemma sorted_by_counts (f : string → nat) (l : list (string * nat)) :
  Forall (λ p, p.2 = f p.1) l →
  StronglySorted (λ a b : string * nat, b.2 ≤ a.2) l →
  StronglySorted (λ k1 k2, f k2 ≤ f k1) l.*1.
Proof.
  intros Hocc Hsorted.
  induction Hsorted as [|p l Hl IH Hp]; csimpl; constructor.
  - apply Forall_cons in Hocc as [_ Hocc]. by apply IH.
  - apply Forall_cons in Hocc as [Hp1 Hocc]. apply Forall_fmap.
    rewrite Forall_forall in Hp, Hocc |- *. intros q Hq. simpl.
    rewrite <-Hp1, <-(Hocc q Hq). by apply Hp.
Qed.

Lemma most_common_counter xs n :
  most_common xs n (take n (sort_desc snd (NLP.counter xs))).
Proof.
  destruct (counter_spec xs) as [Hnd Hspec].
  set (counts := NLP.counter xs) in *.
  pose proof (sort_desc_perm snd counts) as Hperm.
  pose proof (sort_desc_sorted snd counts) as Hsorted.
  set (sorted := sort_desc snd counts) in *.
  assert (∀ w c, (w, c) ∈ sorted ↔ w ∈ xs ∧ c = occurrences w xs) as Hspec'.
  { intros w c. by rewrite Hperm. }
  assert (NoDup sorted.*1) as Hnd' by (by rewrite Hperm).
  rewrite <-(take_drop n sorted) in Hsorted, Hnd'.
  rewrite fmap_app in Hnd'. apply NoDup_app in Hnd' as (Hnd1 & Hdisj & _).
  assert (∀ p, p ∈ take n sorted → p ∈ sorted) as Htake.
  { intros p Hp. eapply elem_of_sublist; [exact Hp|apply sublist_take]. }
  split_and!.
  - rewrite length_take. lia.
  - done.
  - apply Forall_forall. intros [k c] Hin%Htake. by apply Hspec' in Hin.
  - by apply StronglySorted_app_1_l in Hsorted.
  - intros p w Hin Hw Hout.
    assert ((w, occurrences w xs) ∈ sorted) as Hws by (by apply Hspec').
    rewrite <-(take_drop n sorted) in Hws.
    apply elem_of_app in Hws as [Hws|Hws].
    { exfalso. apply Hout. by apply (list_elem_of_fmap_2 fst _ (w, occurrences w xs)). }
    apply (StronglySorted_app_1_elem_of _ _ _ _ _ Hsorted Hin Hws).
  - intros Hlt w Hw.
    assert (take n sorted = sorted) as ->.
    { apply take_ge. rewrite length_take in Hlt. lia. }
    apply (list_elem_of_fmap_2 fst _ (w, occurrences w xs)). by apply Hspec'.
Qed.

Lemma extract_keywords_most_common (text : string) (top_n : nat) :
  let filtered_words :=
    filter (λ w, w ∉ NLP.stopwords)
           (Re.findall false NLP.long_word (Re.lower text)) in
  ∃ top,
    NLP.extract_keywords text top_n = top.*1
    ∧ most_common filtered_words top_n top.
Proof.
  intros filtered_words.
  exists (take top_n (sort_desc snd (NLP.counter filtered_words))).
  split; [|apply most_common_counter].
  unfold NLP.extract_keywords. case_bool_decide as Ht; [|done].
  subst text. assert (filtered_words = []) as -> by reflexivity.
  by destruct top_n.
Qed.

End KeywordFacts.

(** ** Removing duplicates and grouping the spaCy entities *)

Module DedupFacts.
Import NLP Re.

Lemma dedup_spec xs :
  let st := foldl dedup_step (∅, []) xs in
  st.1 = list_to_set (lower <$> xs)
  ∧ st.2 `sublist_of` xs
  ∧ NoDup (lower <$> st.2)
  ∧ (∀ x, x ∈ xs → lower x ∈ lower <$> st.2)
  ∧ (∀ x, x ∈ st.2 →
       ∃ before after, xs = before ++ x :: after ∧ lower x ∉ lower <$> before).
Proof.
  induction xs as [|x xs IH] using rev_ind.
  { simpl. split_and!; [done|done|constructor|by intros ? ?%elem_of_nil..]. }
  cbv zeta in *. rewrite foldl_app. simpl.
  destruct (foldl dedup_step (∅, []) xs) as [seen unique]. simpl in *.
  destruct IH as (-> & Hsub & Hnd & Hcov & Hfirst).
  unfold dedup_step. simpl. case_decide as Hin; simpl.
  - split_and!.
    + rewrite fmap_app. set_solver.
    + by apply sublist_inserts_r.
    + done.
    + intros y [Hy|Hy%list_elem_of_singleton]%elem_of_app; [by apply Hcov|].
      subst y. apply elem_of_list_to_set, list_elem_of_fmap in Hin as (z & -> & Hz).
      by apply Hcov.
    + intros y Hy. destruct (Hfirst y Hy) as (before & after & -> & Hb).
      exists before, (after ++ [x]). split; [|done]. by rewrite <-app_assoc.
  - split_and!.
    + rewrite fmap_app. set_solver.
    + by apply sublist_app.
    + rewrite fmap_app. apply NoDup_app. split_and!; [done| |apply NoDup_singleton].
      intros y Hy Hy'%list_elem_of_singleton. subst y. apply Hin, elem_of_list_to_set.
      apply list_elem_of_fmap in Hy as (z & -> & Hz). apply list_elem_of_fmap_2.
      by eapply elem_of_sublist.
    + intros y [Hy|Hy%list_elem_of_singleton]%elem_of_app; rewrite fmap_app, elem_of_app.
      * left. by apply Hcov.
      * subst y. right. by left.
    + intros y [Hy|Hy%list_elem_of_singleton]%elem_of_app.
      * destruct (Hfirst y Hy) as (before & after & -> & Hb).
        exists before, (after ++ [x]). split; [|done]. by rewrite <-app_assoc.
      * subst y. exists xs, []. split; [done|].
        intros Hx. by apply Hin, elem_of_list_to_set.
Qed.

End DedupFacts.

Module SpacyFacts.
Import DedupFacts.
Import NLP.

Lemma append_entity_keys label text entities :
  (append_entity label text entities).*1
  = if decide (label ∈ entities.*1) then entities.*1 else entities.*1 ++ [label].
Proof.
  induction entities as [|[k l] entities IH]; csimpl; [done|].
  destruct (decide (k = label)) as [->|Hne]; csimpl.
  - by rewrite decide_True by (by left).
  - rewrite IH. destruct (decide (label ∈ entities.*1)) as [Hin|Hout].
    + by rewrite decide_True by (by right).
    + rewrite decide_False; [done|]. by intros [?|?]%elem_of_cons.
Qed.

Lemma append_entity_absent label text entities :
  label ∉ entities.*1 →
  append_entity label text entities = entities ++ [(label, [text])].
Proof.
  induction entities as [|[k l] entities IH]; csimpl; [done|].
  intros Hout. rewrite decide_False by (intros ->; apply Hout; by left).
  rewrite IH; [done|]. intros ?. apply Hout. by right.
Qed.

Lemma append_entity_present label text l entities k l' :
  NoDup entities.*1 → (label, l) ∈ entities →
  (k, l') ∈ append_entity label text entities
  ↔ (k = label ∧ l' = l ++ [text]) ∨ (k ≠ label ∧ (k, l') ∈ entities).
Proof.
  induction entities as [|[k0 l0] entities IH]; csimpl; [by intros _ ?%elem_of_nil|].
  intros [Hk0 Hnd]%NoDup_cons Hin.
  assert (∀ x, (k0, x) ∉ entities) as Hout.
  { intros x Hx. apply Hk0. by apply (list_elem_of_fmap_2 fst _ (k0, x)). }
  destruct (decide (k0 = label)) as [->|Hne].
  - apply elem_of_cons in Hin as [Hin|Hin]; [|by apply Hout in Hin].
    simplify_eq. rewrite !elem_of_cons. split.
    + intros [?|Hin]; [left; by simplify_eq|].
      right. split; [|by right]. intros ->. by apply Hout in Hin.
    + intros [[-> ->]|[? [?|?]]]; [by left|by simplify_eq|by right].
  - apply elem_of_cons in Hin as [?|Hin]; [by simplify_eq|].
    rewrite !elem_of_cons, (IH Hnd Hin). split.
    + intros [?|[?|[? ?]]]; [right|by left|right].
      * simplify_eq. split; [done|by left].
      * split; [done|by right].
    + intros [?|[? [?|?]]]; [right; by left|by left|right; by right].
Qed.

Section Grouping.
Context (entity_types : list string).

Lemma group_spec ents :
  NoDup (group_entities entity_types ents).*1
  ∧ ∀ label l,
      (label, l) ∈ group_entities entity_types ents
      ↔ label ∈ entity_types ∧ l ≠ []
        ∧ l = (filter (λ e, e.2 = label) ents).*1.
Proof.
  unfold group_entities. induction ents as [|[text label_] ents IH] using rev_ind.
  { simpl. split; [constructor|]. intros label l.
    split; [by intros ?%elem_of_nil|]. by intros (_ & ? & ->). }
  destruct IH as [Hnd IH]. rewrite foldl_app. simpl.
  set (entities := foldl _ [] ents) in *.
  assert (∀ label,
    (filter (λ e : string * string, e.2 = label) (ents ++ [(text, label_)])).*1
    = (filter (λ e : string * string, e.2 = label) ents).*1
      ++ if decide (label_ = label) then [text] else []) as Hfilter.
  { intros label. rewrite filter_app, fmap_app, filter_cons, filter_nil. simpl.
    by case_decide. }
  destruct (decide (label_ ∈ entity_types)) as [Hty|Hty].
  2:{ split; [done|]. intros label l. rewrite IH, Hfilter.
      destruct (decide (label_ = label)) as [->|?]; [|by rewrite app_nil_r].
      split; [by intros [? _]|by intros [? _]]. }
  split.
  { rewrite append_entity_keys. case_decide; [done|].
    apply NoDup_app. split_and!; [done| |apply NoDup_singleton].
    by intros y Hy ->%list_elem_of_singleton. }
  intros label l. rewrite Hfilter.
  destruct (decide (label_ ∈ entities.*1)) as [Hin|Hout].
  - apply list_elem_of_fmap in Hin as ([k l0] & -> & Hin). simpl.
    rewrite (append_entity_present _ _ _ _ _ _ Hnd Hin).
    pose proof Hin as (_ & Hne0 & Hl0)%IH. split.
    + intros [[-> ->]|[Hne (? & ? & ->)%IH]].
      * rewrite decide_True by done. split; [done|]. split; [by destruct l0|].
        by rewrite Hl0.
      * rewrite decide_False by done. by rewrite app_nil_r.
    + intros (? & Hne & ->). destruct (decide (k = label)) as [->|Hkl].
      * left. by rewrite Hl0.
      * right. split; [done|]. rewrite app_nil_r in Hne |- *. by apply IH.
  - rewrite append_entity_absent by done.
    rewrite elem_of_app, list_elem_of_singleton.
    assert ((filter (λ e : string * string, e.2 = label_) ents).*1 = []) as Hnone.
    { destruct (filter _ ents).*1 as [|x l'] eqn:Hf; [done|]. exfalso. apply Hout.
      apply (list_elem_of_fmap_2 fst _ (label_, x :: l')). apply IH.
      by rewrite Hf. }
    split.
    + intros [(? & ? & ->)%IH|[= -> ->]].
      * destruct (decide (label_ = label)) as [->|?]; [|by rewrite app_nil_r].
        by rewrite Hnone in *.
      * rewrite decide_True by done. by rewrite Hnone.
    + intros (? & Hne & ->). destruct (decide (label_ = label)) as [->|?].
      * right. by rewrite Hnone.
      * left. rewrite app_nil_r in Hne |- *. by apply IH.
Qed.
End Grouping.

End SpacyFacts.

(** ** The intelligence report *)

Module ReportFacts.
Import OrderFacts KeywordFacts.
Import Processors ProcessorsFacts ConnectionFacts Reports.

Lemma themes_counter stories :
  themes stories
  = NLP.counter ((λ story : story, default "Unknown" (story !! "Category")) <$> stories).
Proof. unfold themes, NLP.counter. by rewrite foldl_fmap. Qed.

Lemma sum_list_take_le (l : list nat) n : sum_list (take n l) ≤ sum_list l.
Proof.
  revert n. induction l as [|x l IH]; intros [|n]; simpl; try lia.
  specialize (IH n). lia.
Qed.

Lemma length_concat_sum {A} (ls : list (list A)) :
  length (concat ls) = sum_list (length <$> ls).
Proof. induction ls as [|l ls IH]; simpl; [done|]. by rewrite length_app, IH. Qed.

End ReportFacts.

(** ** What the regular expressions match *)

Module ReFacts.
Import Re.

Lemma after_nil prev : after prev [] = prev.
Proof. done. Qed.

Lemma after_app prev w1 w2 : after (after prev w1) w2 = after prev (w1 ++ w2).
Proof.
  unfold after. destruct w2 as [|c w2 _] using rev_ind.
  - by rewrite app_nil_r.
  - by rewrite (assoc_L (++)), !last_snoc.
Qed.

Lemma after_cons prev a w : after prev (a :: w) = after (Some a) w.
Proof. symmetry. apply (after_app prev [a] w). Qed.

Section Soundness.
Context (ignorecase : bool).

Lemma rmatch_sound r prev s k e :
  rmatch ignorecase r prev s k = Some e →
  ∃ w rest,
    s = w ++ rest ∧ matches ignorecase r prev w rest
    ∧ k (after prev w) rest = Some e.
Proof.
  revert prev s k e.
  induction r as [c|p| | |r1 IH1 r2 IH2|r1 IH1 r2 IH2|r0 IH0 lo hi];
    intros prev s k e; simpl.
  - destruct s as [|a s]; [done|]. destruct (chr_eq ignorecase c a) eqn:Hc; [|done].
    intros Hk. exists [a], s. split; [done|]. split; [by constructor|done].
  - destruct s as [|a s]; [done|]. destruct (p a) eqn:Hp; [|done].
    intros Hk. exists [a], s. split; [done|]. split; [by constructor|done].
  - destruct (at_boundary prev s) eqn:Hb; [|done].
    intros Hk. exists [], s. split; [done|]. split; [by constructor|done].
  - intros Hk. exists [], s. split; [done|]. split; [by constructor|done].
  - intros (w1 & rest1 & -> & Hm1 & Hk)%IH1.
    apply IH2 in Hk as (w2 & rest & -> & Hm2 & Hk).
    exists (w1 ++ w2), rest. rewrite <-app_assoc. split; [done|].
    split; [by constructor|]. by rewrite <-after_app.
  - destruct (rmatch ignorecase r1 prev s k) as [e'|] eqn:H1.
    + intros [= ->]. apply IH1 in H1 as (w & rest & -> & Hm & Hk).
      exists w, rest. split; [done|]. split; [by apply matches_or_l|done].
    + intros (w & rest & -> & Hm & Hk)%IH2.
      exists w, rest. split; [done|]. split; [by apply matches_or_r|done].
  - generalize (length s) as fuel. intros fuel. revert lo hi prev s e.
    induction fuel as [|fuel IHf]; intros lo hi prev s e.
    { destruct (lo =? 0) eqn:Hlo; [|done]. apply Nat.eqb_eq in Hlo as ->.
      intros Hk. exists [], s. split; [done|]. split; [constructor|done]. }
    assert (∀ once,
      (once = None ∨
       ∃ w1 rest1, s = w1 ++ rest1 ∧ w1 ≠ [] ∧ hi_allows hi = true
         ∧ matches ignorecase r0 prev w1 rest1
         ∧ ∃ w2 rest, rest1 = w2 ++ rest
             ∧ matches ignorecase (Repeat r0 (pred lo) (hi_pred hi))
                 (after prev w1) w2 rest
             ∧ k (after (after prev w1) w2) rest = once) →
      match once with
      | Some e0 => Some e0
      | None => if lo =? 0 then k prev s else None
      end = Some e →
      ∃ w rest, s = w ++ rest ∧ matches ignorecase (Repeat r0 lo hi) prev w rest
                ∧ k (after prev w) rest = Some e) as Hfinish.
    { intros once [->|(w1 & rest1 & -> & Hne & Hhi & Hm1 & w2 & rest & -> & Hm2 & Hk)].
      - destruct (lo =? 0) eqn:Hlo; [|done]. apply Nat.eqb_eq in Hlo as ->.
        intros Hk. exists [], s. split; [done|]. split; [constructor|done].
      - destruct once as [e0|].
        + intros [= ->]. exists (w1 ++ w2), rest. rewrite <-app_assoc.
          split; [done|]. split; [by apply matches_repeat_more|].
          by rewrite <-after_app.
        + destruct (lo =? 0) eqn:Hlo; [|done]. apply Nat.eqb_eq in Hlo as ->.
          intros Hk'. exists [], (w1 ++ w2 ++ rest).
          split; [done|]. split; [constructor|done]. }
    cbn beta iota delta [hi_allows]. fold (hi_allows hi).
    destruct (hi_allows hi) eqn:Hhi; [|apply (Hfinish None); by left].
    match goal with
    | |- match ?o with Some _ => _ | None => _ end = _ → _ =>
        destruct o as [e0|] eqn:Honce
    end; [|apply (Hfinish None); by left].
    apply IH0 in Honce as (w1 & rest1 & -> & Hm1 & Hk).
    destruct (length rest1 <? length (w1 ++ rest1)) eqn:Hlen; [|done].
    apply Nat.ltb_lt in Hlen.
    apply IHf in Hk as (w2 & rest & -> & Hm2 & Hk).
    apply (Hfinish (Some e0)). right.
    exists w1, (w2 ++ rest). split; [done|]. split.
    { intros ->. simpl in Hlen. lia. }
    split; [done|]. split; [done|]. by exists w2, rest.
Qed.

Lemma match_here_sound r prev s s' :
  match_here ignorecase r prev s = Some s' →
  ∃ w, s = w ++ s' ∧ matches ignorecase r prev w s'.
Proof.
  intros (w & rest & -> & Hm & [= <-])%rmatch_sound. by exists w.
Qed.

Lemma match_here_take r prev s s' :
  match_here ignorecase r prev s = Some s' →
  s = take (length s - length s') s ++ s'
  ∧ matches ignorecase r prev (take (length s - length s') s) s'.
Proof.
  intros (w & -> & Hm)%match_here_sound.
  rewrite length_app, Nat.add_sub, take_app_length. done.
Qed.

Lemma findall_from_sound fuel r prev s m :
  m ∈ findall_from ignorecase fuel r prev s →
  ∃ before rest,
    s = before ++ m ++ rest ∧ matches ignorecase r (after prev before) m rest.
Proof.
  revert prev s. induction fuel as [|fuel IH]; intros prev s; simpl.
  { by intros ?%elem_of_nil. }
  destruct (match_here ignorecase r prev s) as [s'|] eqn:Hm.
  - apply match_here_take in Hm as [Hs Hm].
    assert (m = take (length s - length s') s →
            ∃ before rest,
              s = before ++ m ++ rest
              ∧ matches ignorecase r (after prev before) m rest) as Hhere.
    { intros ->. exists [], s'. done. }
    destruct (take (length s - length s') s) as [|c w] eqn:Hw.
    + destruct s as [|a s0].
      * intros ->%list_elem_of_singleton. by apply Hhere.
      * intros [->|Hin]%elem_of_cons; [by apply Hhere|].
        apply IH in Hin as (before & rest & -> & Hin).
        exists (a :: before), rest. split; [done|]. by rewrite after_cons.
    + intros [->|Hin]%elem_of_cons; [by apply Hhere|].
      apply IH in Hin as (before & rest & Hs' & Hin).
      exists ((c :: w) ++ before), rest. rewrite Hs, Hs', <-app_assoc.
      split; [done|]. rewrite <-after_app.
      replace (after prev (c :: w)) with (last (c :: w)); [done|].
      unfold after. by destruct (last (c :: w)) eqn:Hl;
        [|apply last_None in Hl].
  - destruct s as [|a s0]; [by intros ?%elem_of_nil|].
    intros (before & rest & -> & Hin)%IH.
    exists (a :: before), rest. split; [done|]. by rewrite after_cons.
Qed.

Lemma findall_sound r (s m : string) :
  m ∈ findall ignorecase r s →
  ∃ before rest,
    chars s = before ++ chars m ++ rest
    ∧ matches ignorecase r (last before) (chars m) rest.
Proof.
  unfold findall. intros (w & -> & Hin)%list_elem_of_fmap.
  apply findall_from_sound in Hin as (before & rest & Hs & Hm).
  exists before, rest. unfold chars, text in *.
  rewrite String.list_ascii_of_string_of_list_ascii. split; [done|].
  replace (last before) with (after None before); [done|].
  unfold after. by destruct (last before).
Qed.
End Soundness.

(** Repetitions of a character class *)
Lemma matches_class_run ignorecase (p : ascii → bool) lo hi prev w rest :
  matches ignorecase (Repeat (Class p) lo hi) prev w rest →
  Forall (λ c, p c) w ∧ lo ≤ length w.
Proof.
  remember (Repeat (Class p) lo hi) as r eqn:Hr. intros Hm.
  revert lo hi Hr.
  induction Hm as [| | | | | | |r hi' prev rest
                   |r lo' hi' prev w1 w2 rest Hhi Hne Hm1 _ Hm2 IH];
    intros lo hi Hr; try done.
  - simplify_eq. split; [done|]. simpl. lia.
  - simplify_eq. inv Hm1. destruct (IH _ _ eq_refl) as [Hall Hlen].
    split; [constructor; [by apply Is_true_true|done]|]. simpl. lia.
Qed.

End ReFacts.

Module ShapeFacts.
Import Re ReFacts.

Lemma chars_text l : chars (text l) = l.
Proof. apply String.list_ascii_of_string_of_list_ascii. Qed.

Lemma text_chars s : text (chars s) = s.
Proof. apply String.string_of_list_ascii_of_string. Qed.

Lemma is_lower_word c : is_lower c = true → is_word c = true.
Proof. unfold is_word. intros ->. by rewrite orb_true_r. Qed.

Lemma to_lower_not_upper c : is_upper (to_lower c) = false.
Proof.
  unfold to_lower. destruct (is_upper c) eqn:Hu; [|done].
  unfold is_upper, code in *. apply andb_true_iff in Hu as [H1 H2].
  apply N.leb_le in H1, H2.
  rewrite N_ascii_embedding by lia.
  apply andb_false_iff. right. apply N.leb_gt. lia.
Qed.

Lemma to_upper_not_lower c : is_lower (to_upper c) = false.
Proof.
  unfold to_upper. destruct (is_lower c) eqn:Hl; [|done].
  unfold is_lower, code in *. apply andb_true_iff in Hl as [H1 H2].
  apply N.leb_le in H1, H2.
  rewrite N_ascii_embedding by lia.
  apply andb_false_iff. left. apply N.leb_gt. lia.
Qed.

Lemma matches_cat_inv ignorecase r1 r2 prev w rest :
  matches ignorecase (Cat r1 r2) prev w rest →
  ∃ w1 w2, w = w1 ++ w2 ∧ matches ignorecase r1 prev w1 (w2 ++ rest)
           ∧ matches ignorecase r2 (after prev w1) w2 rest.
Proof. inversion 1; simplify_eq. by eexists _, _. Qed.

Lemma matches_boundary_inv ignorecase prev w rest :
  matches ignorecase WordBoundary prev w rest →
  w = [] ∧ at_boundary prev rest = true.
Proof. by inversion 1. Qed.

Lemma long_word_shape prev w rest :
  matches false NLP.long_word prev w rest →
  3 ≤ length w ∧ Forall (λ c, is_lower c) w
  ∧ from_option is_word false prev = false
  ∧ from_option is_word false (head rest) = false.
Proof.
  unfold NLP.long_word. intros Hm.
  apply matches_cat_inv in Hm as (w1 & w' & -> & [-> H2]%matches_boundary_inv & Hm).
  apply matches_cat_inv in Hm as (w2 & w3 & -> & Hrun & [-> H1]%matches_boundary_inv).
  rewrite app_nil_r in *. simpl in *. rewrite after_nil in *.
  apply matches_class_run in Hrun as [Hall Hlen].
  destruct w2 as [|c w2]; [simpl in Hlen; lia|].
  split; [done|]. split; [done|].
  apply Forall_cons in Hall as [Hc Hall].
  unfold at_boundary in *. simpl in *.
  rewrite (is_lower_word c) in H2 by (by apply Is_true_true).
  split; [by destruct (from_option is_word false prev)|].
  assert (from_option is_word false (after prev (c :: w2)) = true) as Hlast.
  { unfold after. destruct (last (c :: w2)) as [d|] eqn:Hl;
      [|by apply last_None in Hl].
    simpl. apply is_lower_word, Is_true_true.
    apply last_Some_elem_of in Hl.
    rewrite Forall_forall in Hall. apply elem_of_cons in Hl as [->|?]; auto. }
  rewrite Hlast in H1. by destruct (from_option is_word false (head rest)).
Qed.

Lemma word_shape prev w rest :
  matches false (plus word_char) prev w rest →
  w ≠ [] ∧ Forall (λ c, is_word c) w.
Proof.
  intros [Hall Hlen]%matches_class_run. split; [|done].
  intros ->. simpl in Hlen. lia.
Qed.

End ShapeFacts.

Module NormalFacts.
Import Re ReFacts ShapeFacts.

Lemma single_spaced_cons a l :
  single_spaced (a :: l)
  ↔ (a = " "%char → head l ≠ Some " "%char) ∧ single_spaced l.
Proof.
  unfold single_spaced. split.
  - intros Hl. split.
    + intros -> Hh. destruct l as [|b l]; simplify_eq/=. by apply (Hl [] l).
    + intros l1 l2 ->. by apply (Hl (a :: l1) l2).
  - intros [Hh Hl] [|b l1] l2; simpl; intros [= -> ->].
    + by apply Hh.
    + by apply (Hl l1 l2).
Qed.

Lemma single_spaced_suffix l1 l2 : single_spaced (l1 ++ l2) → single_spaced l2.
Proof. intros Hl k1 k2 ->. apply (Hl (l1 ++ k1) k2). by rewrite <-app_assoc. Qed.

Lemma single_spaced_reverse l : single_spaced l → single_spaced (reverse l).
Proof.
  intros Hl l1 l2 Hr. apply (Hl (reverse l2) (reverse l1)).
  apply (f_equal reverse) in Hr. rewrite reverse_involutive in Hr. rewrite Hr.
  rewrite reverse_app, !reverse_cons, <-!app_assoc. done.
Qed.

(** [lstrip] and [strip] *)
Lemma lstrip_suffix l : ∃ l1, l = l1 ++ lstrip l.
Proof.
  induction l as [|c l [l1 IH]]; simpl; [by exists []|].
  destruct (is_space c); [|by exists []]. exists (c :: l1). by rewrite IH at 1.
Qed.

Lemma lstrip_head l c : head (lstrip l) = Some c → is_space c = false.
Proof.
  induction l as [|a l IH]; simpl; [done|].
  destruct (is_space a) eqn:Ha; [done|]. by intros [= <-].
Qed.

Lemma strip_spec s :
  ∃ l1 l2,
    chars s = l1 ++ chars (strip s) ++ l2
    ∧ (∀ c, head (chars (strip s)) = Some c → is_space c = false)
    ∧ (∀ c, last (chars (strip s)) = Some c → is_space c = false).
Proof.
  unfold strip. rewrite chars_text.
  destruct (lstrip_suffix (chars s)) as [l1 H1].
  set (l := lstrip (chars s)) in *.
  destruct (lstrip_suffix (reverse l)) as [l2 H2].
  set (l' := lstrip (reverse l)) in *.
  exists l1, (reverse l2). split_and!.
  - rewrite H1 at 1. f_equal. rewrite <-reverse_app, <-H2.
    by rewrite reverse_involutive.
  - intros c. rewrite head_reverse. intros Hl.
    assert (last (reverse l) = Some c) as Hlast.
    { rewrite H2. destruct l' as [|d l'] using rev_ind; [done|].
      rewrite last_snoc in Hl. rewrite (assoc_L (++)), last_snoc. done. }
    rewrite last_reverse in Hlast. by eapply lstrip_head.
  - intros c. rewrite last_reverse. apply lstrip_head.
Qed.

(** Where the characters of a substitution come from. *)
Lemma sub_from_chars ignorecase fuel r repl prev s c :
  c ∈ sub_from ignorecase fuel r repl prev s → c ∈ repl ∨ c ∈ s.
Proof.
  revert prev s. induction fuel as [|fuel IH]; intros prev s; simpl; [by right|].
  destruct (match_here ignorecase r prev s) as [s'|] eqn:Hm.
  - apply match_here_take in Hm as [Hs _].
    destruct (take (length s - length s') s) as [|d w].
    + destruct s as [|a s0]; [by left|].
      intros [?|[->|Hin]%elem_of_cons]%elem_of_app; [by left|right; by left|].
      destruct (IH _ _ Hin); [by left|right; by right].
    + intros [?|Hin]%elem_of_app; [by left|].
      destruct (IH _ _ Hin); [by left|right]. rewrite Hs.
      apply elem_of_app. by right.
  - destruct s as [|a s0]; [by intros ?%elem_of_nil|].
    intros [->|Hin]%elem_of_cons; [right; by left|].
    destruct (IH _ _ Hin); [by left|right; by right].
Qed.

Lemma sub_chars ignorecase r repl s c :
  c ∈ chars (sub ignorecase r repl s) → c ∈ chars repl ∨ c ∈ chars s.
Proof. unfold sub. rewrite chars_text. apply sub_from_chars. Qed.

(** Runs of a character class *)
Section Runs.
Context (p : ascii → bool).

Lemma repeat_class_cons lo prev a s0 k :
  rmatch false (Repeat (Class p) lo None) prev (a :: s0) k
  = match (if p a
           then rmatch false (Repeat (Class p) (pred lo) None) (Some a) s0 k
           else None) with
    | Some e => Some e
    | None => if (lo =? 0)%nat then k prev (a :: s0) else None
    end.
Proof.
  simpl. destruct (p a); [|done].
  by rewrite (proj2 (Nat.ltb_lt _ _) (Nat.lt_succ_diag_r (length s0))).
Qed.

Lemma star_class prev s :
  ∃ w s',
    s = w ++ s' ∧ (∀ c, head s' = Some c → p c = false)
    ∧ rmatch false (Repeat (Class p) 0 None) prev s (λ _ s', Some s') = Some s'.
Proof.
  revert prev. induction s as [|a s0 IH]; intros prev.
  { by exists [], []. }
  rewrite repeat_class_cons. simpl pred. destruct (p a) eqn:Ha.
  - destruct (IH (Some a)) as (w & s' & -> & Hh & ->).
    by exists (a :: w), s'.
  - exists [], (a :: s0). split; [done|]. split; [|done].
    by intros c [= <-].
Qed.

Lemma plus_class prev s :
  match s with
  | [] => match_here false (plus (Class p)) prev s = None
  | a :: s0 =>
      if p a then
        ∃ w s', s0 = w ++ s' ∧ (∀ c, head s' = Some c → p c = false)
                ∧ match_here false (plus (Class p)) prev s = Some s'
      else match_here false (plus (Class p)) prev s = None
  end.
Proof.
  destruct s as [|a s0]; [done|].
  unfold match_here, plus. rewrite repeat_class_cons.
  destruct (p a) eqn:Ha; [|done].
  destruct (star_class (Some a) s0) as (w & s' & -> & Hh & Hm).
  exists w, s'. simpl pred. by rewrite Hm.
Qed.

(** Every run is replaced by one space. *)
Lemma sub_runs fuel prev s :
  p " "%char = true → length s < fuel →
  let out := sub_from false fuel (plus (Class p)) [" "%char] prev s in
  Forall (λ c, p c = true → c = " "%char) out
  ∧ single_spaced out
  ∧ (∀ a, head s = Some a → p a = false → head out = Some a)
  ∧ (s = [] → out = []).
Proof.
  intros Hsp. revert prev s. induction fuel as [|fuel IH]; intros prev s Hlen;
    [lia|].
  pose proof (plus_class prev s) as Hm. cbv zeta. simpl.
  destruct s as [|a s0].
  { rewrite Hm. split_and!; try done. by intros [|? ?] ?. }
  destruct (p a) eqn:Ha.
  - destruct Hm as (w & s' & -> & Hh & ->).
    assert (take (length (a :: w ++ s') - length s') (a :: w ++ s') = a :: w) as ->.
    { rewrite (app_comm_cons w s' a), length_app, Nat.add_sub.
      by rewrite take_app_length. }
    destruct (IH (last (a :: w)) s') as (Hall & Hss & Hhead & Hnil).
    { simpl in Hlen. rewrite length_app in Hlen. lia. }
    cbv zeta in *. split_and!.
    + constructor; [done|exact Hall].
    + apply single_spaced_cons. split; [|done]. intros _ Hout.
      destruct s' as [|b s'].
      * by rewrite Hnil in Hout.
      * destruct (p b) eqn:Hb; [by rewrite (Hh b) in Hb|].
        rewrite (Hhead b) in Hout by done. simplify_eq. congruence.
    + intros b [= <-] Hb. congruence.
    + done.
  - rewrite Hm.
    destruct (IH (Some a) s0) as (Hall & Hss & Hhead & Hnil).
    { simpl in Hlen. lia. }
    cbv zeta in *. split_and!.
    + constructor; [congruence|exact Hall].
    + apply single_spaced_cons. split; [|done]. intros ->. congruence.
    + by intros b [= <-] _.
    + done.
Qed.
End Runs.

Lemma length_chars s : length (chars s) = String.length s.
Proof. induction s as [|c s IH]; simpl; [done|]. by rewrite <-IH. Qed.

Lemma collapse_spec (s : string) :
  let out := chars (sub false (plus space_or_hyphen) " " s) in
  Forall (λ c, c ≠ "-"%char ∧ (is_space c = true → c = " "%char)) out
  ∧ single_spaced out.
Proof.
  unfold sub. rewrite chars_text. cbv zeta.
  destruct (sub_runs (λ c, is_space c || bool_decide (c = "-"%char))
              (S (String.length s)) None (chars s)) as (Hall & Hss & _).
  { done. }
  { rewrite length_chars. lia. }
  split; [|done]. eapply Forall_impl; [exact Hall|].
  intros c Hc. split.
  - intros ->. by specialize (Hc eq_refl).
  - intros Hs. apply Hc. by rewrite Hs.
Qed.

Lemma normalize_canonical (m : string) : canonical (Processors.normalize m).
Proof.
  unfold Processors.normalize.
  set (s1 := upper m). set (s2 := sub false Processors.rare_earth "RARE EARTH" s1).
  set (s3 := sub false (plus space_or_hyphen) " " s2).
  destruct (collapse_spec s2) as [Hall Hss]. fold s3 in Hall, Hss.
  destruct (strip_spec s3) as (l1 & l2 & Hs & Hhead & Hlast).
  assert (∀ c, c ∈ chars (strip s3) → c ∈ chars s3) as Hsub.
  { intros c Hc. rewrite Hs. apply elem_of_app. right. apply elem_of_app. by left. }
  assert (∀ c, c ∈ chars s3 → is_lower c = false) as Hupper.
  { intros c [Hc|Hc]%sub_chars.
    { revert c Hc. apply Forall_forall. by repeat constructor. }
    apply sub_chars in Hc as [Hc|Hc].
    { revert c Hc. apply Forall_forall. by repeat constructor. }
    unfold s1, upper in Hc. rewrite chars_text in Hc.
    apply list_elem_of_fmap in Hc as (c0 & -> & _). apply to_upper_not_lower. }
  split_and!.
  - apply Forall_forall. intros c Hc%Hsub.
    rewrite Forall_forall in Hall. destruct (Hall c Hc) as [? ?].
    split_and!; [by apply Hupper|done..].
  - rewrite Hs in Hss. apply single_spaced_suffix, single_spaced_reverse in Hss.
    rewrite reverse_app in Hss.
    apply single_spaced_suffix, single_spaced_reverse in Hss.
    by rewrite reverse_involutive in Hss.
  - intros Hh. by apply Hhead in Hh.
  - intros Hl. by apply Hlast in Hl.
Qed.

End NormalFacts.

Module CaseFacts.
Import Re ReFacts ShapeFacts.
Import Correlators CorrelatorsFacts ScoreFacts.

Lemma to_lower_to_upper c : to_lower (to_upper c) = to_lower c.
Proof.
  unfold to_upper. destruct (is_lower c) eqn:Hl; [|done].
  unfold to_lower.
  assert (is_upper c = false) as ->.
  { unfold is_lower, is_upper, code in *. apply andb_true_iff in Hl as [H1 H2].
    apply N.leb_le in H1, H2. apply andb_false_iff. right. apply N.leb_gt. lia. }
  unfold is_lower, is_upper, code in *. apply andb_true_iff in Hl as [H1 H2].
  apply N.leb_le in H1, H2.
  rewrite N_ascii_embedding by lia.
  assert ((65 <=? N_of_ascii c - 32)%N && (N_of_ascii c - 32 <=? 90)%N = true) as ->.
  { apply andb_true_iff. split; apply N.leb_le; lia. }
  replace (N_of_ascii c - 32 + 32)%N with (N_of_ascii c) by lia.
  apply ascii_N_embedding.
Qed.

Lemma lower_upper s : lower (upper s) = lower s.
Proof.
  unfold lower, upper. rewrite chars_text, <-list_fmap_compose. f_equal.
  apply list_fmap_ext. intros i c _. apply to_lower_to_upper.
Qed.

Lemma flatten_entities_relabel (f : string → string) (g : string → string)
    (es : list (string * list string)) :
  (∀ e, lower (g e) = lower e) →
  flatten_entities (prod_map f (fmap (M:=list) g) <$> es) = flatten_entities es.
Proof.
  intros Hg. unfold flatten_entities. f_equal.
  induction es as [|[t l] es IH]; csimpl; [done|].
  rewrite !fmap_app, IH. f_equal.
  rewrite <-list_fmap_compose. apply list_fmap_ext. intros i e _. apply Hg.
Qed.

End CaseFacts.

(** * Properties of the surrounding code *)

Import OrderFacts SeedFacts RelationFacts SearchFacts ComponentFacts ClusterFacts.
Import AggregatorFacts KeywordFacts DedupFacts SpacyFacts ReportFacts.
Import ReFacts ShapeFacts NormalFacts CaseFacts.

(** ** [src/processors/story_correlator.py] *)

(** X1. The score of [calculate_story_similarity] lies between 0 and 1, for
    any two story dicts. *)
Theorem score_within_unit_interval (story1 story2 : story) :
  (0 <= calculate_story_similarity story1 story2 <= 1)%Q.
Proof. apply similarity_bounds. Qed.

(** X2. The refinement pass of [find_story_clusters] never changes the
    result, which is the seeded clusters in their sorted order. For a
    positive [max_cluster_size] the seeded loop stops every cluster at that
    size: the test [len(cluster) > max_cluster_size] fails for each of them
    and none is handed to [_split_large_cluster]. For any other size the
    clusters handed over are single stories, and [_split_large_cluster]
    returns every cluster of the list as it is. *)
Theorem refinement_pass_never_splits (stories : list story) (threshold : Q) (K : Z) :
  let clusters :=
    sort_desc length
      (seeded_clusters calculate_story_similarity stories threshold K) in
  find_story_clusters stories threshold K = clusters
  ∧ ((0 < K)%Z →
     Forall (λ cluster, (K <? Z.of_nat (length cluster))%Z = false) clusters)
  ∧ ((K ≤ 0)%Z → Forall (λ cluster, length cluster = 1) clusters)
  ∧ Forall (λ cluster,
              _split_large_cluster cluster (threshold + (1 # 10)) K = [cluster])
      clusters.
Proof.
  intros clusters.
  assert (Forall (bounded_cluster K) clusters) as Hb.
  { unfold clusters. rewrite sort_desc_perm. apply seeded_clusters_spec. }
  split; [apply find_story_clusters_sorted_seeded|]. split_and!.
  - intros HK. eapply Forall_impl; [exact Hb|]. intros c [_ Hlen].
    apply Z.ltb_ge. lia.
  - intros HK. eapply Forall_impl; [exact Hb|]. intros c [Hne Hlen].
    destruct c; [done|]. simpl in *. lia.
  - eapply Forall_impl; [exact Hb|]. intros c [Hne Hlen].
    unfold _split_large_cluster, _split_large_cluster_with.
    destruct (Z.of_nat (length c) <=? K)%Z eqn:Hle; [done|].
    apply Z.leb_gt in Hle.
    destruct c as [|s [|s' c]]; [done| |simpl in *; lia].
    apply seeded_singleton.
Qed.

(** X3. [find_story_clusters] returns its clusters largest first. *)
Theorem clusters_are_sorted_by_size (stories : list story) (threshold : Q) (K : Z) :
  StronglySorted (λ c1 c2 : list story, length c2 ≤ length c1)
    (find_story_clusters stories threshold K).
Proof.
  unfold find_story_clusters. rewrite find_story_clusters_sorted_seeded.
  apply sort_desc_sorted.
Qed.

(** X4. Every cluster of [find_story_clusters] is a seed followed by stories
    that score at least [threshold] against that seed (not against each
    other), in the order of the input. *)
Theorem clusters_grow_from_a_seed (stories : list story) (threshold : Q) (K : Z) :
  Forall (λ cluster,
            ∃ seed rest,
              cluster = seed :: rest
              ∧ Forall (λ s, (threshold <= calculate_story_similarity seed s)%Q) rest
              ∧ cluster `sublist_of` stories)
    (find_story_clusters stories threshold K).
Proof.
  eapply Forall_impl; [apply find_story_clusters_seeded|].
  intros c Hc. pose proof (seeded_sublist _ _ _ _ Hc) as Hsub.
  destruct Hc as (i & added & -> & _ & Hq).
  eexists _, _. split; [done|]. split; [|done].
  by apply Forall_fmap.
Qed.

(** X5. With a threshold above 1 no two stories are ever clustered:
    [find_story_clusters] returns every story alone, in input order. *)
Theorem threshold_above_one_isolates stories threshold K :
  (1 < threshold)%Q →
  find_story_clusters stories threshold K = (λ s, [s]) <$> stories.
Proof.
  intros Hthr. apply isolation. intros s1 s2. apply Qgeb_false.
  pose proof (similarity_bounds s1 s2). lra.
Qed.

Lemma threshold_above_one_isolates_witness :
  let stories := [headline "China APT phishing"; headline "China APT phishing"] in
  (1 < 2)%Q ∧ find_story_clusters stories 2 15 = (λ s, [s]) <$> stories.
Proof.
  intros stories. split; [done|].
  apply (threshold_above_one_isolates stories 2 15). done.
Defined.

(** X6. [_split_large_cluster] loses and invents no story: its sub-clusters,
    read together, are the stories of the cluster, and none is empty when
    the cluster is not. *)
Theorem split_large_cluster_partitions (cluster : list story) (higher_threshold : Q) (max_size : Z) :
  concat (_split_large_cluster cluster higher_threshold max_size) ≡ₚ cluster
  ∧ (cluster ≠ [] →
     Forall (λ c, c ≠ []) (_split_large_cluster cluster higher_threshold max_size)).
Proof.
  destruct cluster as [|s cluster].
  - split; [|done]. unfold _split_large_cluster, _split_large_cluster_with.
    by case_match.
  - destruct (split_large_cluster_spec calculate_story_similarity (s :: cluster)
                higher_threshold max_size) as [Hp Hb]; [done|].
    split; [done|]. intros _. eapply Forall_impl; [exact Hb|]. by intros c [? _].
Qed.

(** X7. [generate_graph_data] numbers the nodes by position and has an edge
    [(i, j)] with weight [w] exactly for the positions [i < j] whose stories
    score [w >= threshold]. *)
Theorem graph_edges_are_the_similar_pairs (stories : list story) (threshold : Q) :
  let '(nodes, edges) := Reports.generate_graph_data stories threshold in
  Reports.node_id <$> nodes = seq 0 (length stories)
  ∧ ∀ i j w,
      (i, j, w) ∈ edges
      ↔ i < j < length stories
        ∧ w = calculate_story_similarity (stories !!! i) (stories !!! j)
        ∧ (threshold <= w)%Q.
Proof.
  destruct (Reports.generate_graph_data stories threshold) as [nodes edges] eqn:Hg.
  split.
  - apply (f_equal fst) in Hg. simpl in Hg. subst nodes.
    by apply imap_node_ids.
  - intros i j w. apply (f_equal snd) in Hg. simpl in Hg. subst edges.
    apply elem_of_graph_edges.
Qed.

(** X8. The clusters and the graph agree: every story added to a cluster is
    joined to the seed of the cluster by an edge of [generate_graph_data]
    at the same threshold. *)
Theorem cluster_members_are_linked_to_their_seed
    (stories : list story) (threshold : Q) (K : Z) :
  Forall (λ cluster,
            ∃ i added,
              cluster = (λ j, stories !!! j) <$> i :: added
              ∧ ∀ j, j ∈ added →
                  (i, j, calculate_story_similarity (stories !!! i) (stories !!! j))
                  ∈ (Reports.generate_graph_data stories threshold).2)
    (find_story_clusters stories threshold K).
Proof.
  eapply Forall_impl; [apply find_story_clusters_seeded|].
  intros c (i & added & -> & Hs & Hq). exists i, added. split; [done|].
  intros j Hj. apply elem_of_graph_edges.
  pose proof (seeded_increasing i added _ Hs) as Hlt.
  rewrite Forall_forall in Hlt, Hq. split; [by apply Hlt|]. split; [done|].
  by apply Hq.
Qed.

(** X9. [build_intelligence_report] returns a report for every input, and
    its counts agree: [total_stories] is the number of stories,
    [story_clusters] the number of clusters, at most 20 clusters are
    listed, each with its 1 to 15 stories, largest first, and they hold
    all stories when there are at most 20 clusters. *)
Theorem report_never_raises_and_counts_agree
    (now : string)
    (items : string → gmap string connection → list (string * connection))
    (stories : list story) (threshold : Q) :
  ∃ report,
    Reports.build_intelligence_report now items stories threshold = Some report
    ∧ let summary := Reports.summary report in
      let sizes := Reports.entry_size <$> Reports.clusters report in
      Reports.total_stories summary = length stories
      ∧ Reports.story_clusters summary
        = length (find_story_clusters stories threshold default_max_cluster_size)
      ∧ length (Reports.clusters report) = Reports.story_clusters summary `min` 20
      ∧ Forall (λ e, Reports.entry_size e = length (Reports.entry_stories e)
                     ∧ 1 ≤ Reports.entry_size e ≤ 15)
          (Reports.clusters report)
      ∧ StronglySorted (λ n1 n2, n2 ≤ n1) sizes
      ∧ sum_list sizes ≤ Reports.total_stories summary
      ∧ (Reports.story_clusters summary ≤ 20 →
         sum_list sizes = Reports.total_stories summary).
Proof.
  unfold Reports.build_intelligence_report.
  destruct (identify_connections_spec stories) as (connections & -> & _).
  eexists. split; [reflexivity|]. cbv zeta.
  cbn [Reports.summary Reports.clusters Reports.total_stories Reports.story_clusters].
  destruct (find_story_clusters_spec calculate_story_similarity stories threshold
              default_max_cluster_size) as [Hperm Hbounded].
  fold (find_story_clusters stories threshold default_max_cluster_size) in *.
  assert (StronglySorted (λ c1 c2 : list story, length c2 ≤ length c1)
            (find_story_clusters stories threshold default_max_cluster_size))
    as Hsorted.
  { unfold find_story_clusters. rewrite find_story_clusters_sorted_seeded.
    apply sort_desc_sorted. }
  set (clusters := find_story_clusters _ _ _) in *.
  rewrite <-list_fmap_compose.
  assert (Reports.entry_size ∘
            (λ cluster : list story,
               {| Reports.entry_size := length cluster;
                  Reports.entry_stories := Reports.story_entry <$> cluster |})
          = length) as -> by done.
  assert (sum_list (length <$> clusters) = length stories) as Hsum.
  { by rewrite <-length_concat_sum, Hperm. }
  split_and!.
  - done.
  - done.
  - rewrite length_fmap, length_take. lia.
  - apply Forall_fmap, Forall_forall. intros c Hc. simpl.
    rewrite length_fmap. split; [done|].
    assert (c ∈ clusters) as Hin
      by (eapply elem_of_sublist; [exact Hc|apply sublist_take]).
    rewrite Forall_forall in Hbounded. destruct (Hbounded c Hin) as [Hne Hle].
    unfold default_max_cluster_size in Hle. destruct c; [done|]. simpl in *. lia.
  - rewrite <-(take_drop 20 clusters) in Hsorted.
    apply StronglySorted_app_1_l in Hsorted.
    eapply StronglySorted_fmap; [|exact Hsorted]. done.
  - rewrite <-Hsum, fmap_take. apply sum_list_take_le.
  - intros Hle. by rewrite take_ge.
Qed.

(** X10. [top_themes] of the report are the (at most 10) most common values
    of [Category] with their counts, [Unknown] standing for a missing
    category. *)
Theorem report_themes_are_the_most_common_categories
    (now : string)
    (items : string → gmap string connection → list (string * connection))
    (stories : list story) (threshold : Q) :
  ∃ report,
    Reports.build_intelligence_report now items stories threshold = Some report
    ∧ most_common (category_of <$> stories) 10
        (Reports.top_themes (Reports.summary report)).
Proof.
  unfold Reports.build_intelligence_report.
  destruct (identify_connections_spec stories) as (connections & -> & _).
  eexists. split; [reflexivity|]. simpl.
  rewrite themes_counter. apply most_common_counter.
Qed.

(** X11. The [timeline] of the report holds the 50 stories with the greatest
    [Scraped_At], greatest first; stories with the same [Scraped_At] keep
    their input order. *)
Theorem report_timeline_is_most_recent_first
    (now : string)
    (items : string → gmap string connection → list (string * connection))
    (stories : list story) (threshold : Q) :
  ∃ report ordered,
    Reports.build_intelligence_report now items stories threshold = Some report
    ∧ Reports.timeline report = Reports.timeline_entry <$> take 50 ordered
    ∧ ordered ≡ₚ stories
    ∧ StronglySorted
        (λ s1 s2, String.ltb (scraped_at s1) (scraped_at s2) = false) ordered
    ∧ ∀ t, filter (λ s, scraped_at s = t) ordered
           = filter (λ s, scraped_at s = t) stories.
Proof.
  unfold Reports.build_intelligence_report.
  destruct (identify_connections_spec stories) as (connections & -> & _).
  eexists. exists (sort_desc_by String.ltb scraped_at stories).
  split; [reflexivity|]. simpl. split_and!.
  - by rewrite fmap_take.
  - apply sort_desc_by_perm.
  - apply sort_desc_by_sorted; [apply string_ltb_asym|apply string_ltb_trans].
  - intros t. apply sort_desc_by_filter. intros a b -> ->.
    destruct (String.ltb t t) eqn:Hlt; [|done].
    by rewrite (string_ltb_asym _ _ Hlt) in Hlt.
Qed.

(** X12. The [connections] of the report list, for every entity type of
    [identify_connections], at most 10 entities with their mention counts
    (all at least 2) and their first 5 titles, most mentioned first; an
    entity left out is mentioned no more often than a listed one. *)
Theorem report_connections_rank_the_entities
    (now : string)
    (items : string → gmap string connection → list (string * connection))
    (stories : list story) (threshold : Q) :
  lists_items items →
  ∃ report connections,
    Reports.build_intelligence_report now items stories threshold = Some report
    ∧ identify_connections stories = Some connections
    ∧ ∀ entity_type,
        match Reports.connections report !! entity_type,
              connections !! entity_type with
        | Some listed, Some entities =>
            length listed ≤ 10
            ∧ NoDup listed.*1
            ∧ Forall (λ p,
                ∃ data,
                  entities !! p.1 = Some data
                  ∧ Reports.mention_count p.2 = count data
                  ∧ 2 ≤ Reports.mention_count p.2
                  ∧ Reports.story_titles p.2
                    = (λ s : story, s !! "Title") <$> take 5 (mentions data))
                listed
            ∧ StronglySorted
                (λ p1 p2, Reports.mention_count p2.2 ≤ Reports.mention_count p1.2)
                listed
            ∧ (∀ name data p,
                 entities !! name = Some data → name ∉ listed.*1 → p ∈ listed →
                 count data ≤ Reports.mention_count p.2)
        | None, None => True
        | _, _ => False
        end.
Proof.
  intros Hitems. unfold Reports.build_intelligence_report.
  destruct (identify_connections_spec stories) as (connections & Hc & Hspec).
  rewrite Hc. eexists. exists connections. split; [reflexivity|]. split; [done|].
  intros t. cbn [Reports.connections]. rewrite map_lookup_imap.
  destruct (connections !! t) as [entities|] eqn:Ht; simpl; [|done].
  set (entry := λ '(name, data),
         (name, {| Reports.mention_count := count data;
                   Reports.story_titles :=
                     (λ s : story, s !! "Title") <$> take 5 (mentions data) |})).
  assert (∀ p, (entry p).1 = p.1 ∧ Reports.mention_count (entry p).2 = count p.2)
    as Hentry by (by intros [name data]).
  pose proof (sort_desc_perm (λ x : string * connection, count x.2) (items t entities))
    as Hperm.
  pose proof (sort_desc_sorted (λ x : string * connection, count x.2) (items t entities))
    as Hsorted.
  set (sorted := sort_desc _ (items t entities)) in *.
  rewrite (Hitems t entities) in Hperm.
  assert (∀ name data, (name, data) ∈ sorted ↔ entities !! name = Some data) as Hin.
  { intros name data. by rewrite Hperm, elem_of_map_to_list. }
  assert (NoDup sorted.*1) as Hnd.
  { rewrite Hperm. apply NoDup_fst_map_to_list. }
  assert (∀ p, p ∈ take 10 sorted → p ∈ sorted) as Htake.
  { intros p Hp. eapply elem_of_sublist; [exact Hp|apply sublist_take]. }
  rewrite <-(take_drop 10 sorted) in Hsorted, Hnd.
  rewrite fmap_app in Hnd. apply NoDup_app in Hnd as (Hnd1 & _ & _).
  assert ((entry <$> take 10 sorted).*1 = (take 10 sorted).*1) as Hnames.
  { rewrite <-list_fmap_compose. apply list_fmap_ext. intros i p _. apply Hentry. }
  split_and!.
  - rewrite length_fmap, length_take. lia.
  - by rewrite Hnames.
  - apply Forall_fmap, Forall_forall. intros [name data] Hp%Htake%Hin.
    exists data. simpl. split_and!; try done.
    assert (connection_of connections t name = Some data) as Hconn.
    { unfold connection_of. by rewrite Ht. }
    rewrite Hspec in Hconn.
    destruct (build_entity_map stories !! entity_key t name) as [l|]; [|done].
    case_decide as Hl; [|done]. simplify_eq. simpl. lia.
  - apply StronglySorted_app_1_l in Hsorted.
    eapply StronglySorted_fmap; [|exact Hsorted].
    intros p1 p2 Hle. by rewrite !(proj2 (Hentry _)).
  - intros name data p Hdata Hout ([name' data'] & -> & Hp)%list_elem_of_fmap.
    simpl. apply Hin in Hdata. rewrite <-(take_drop 10 sorted) in Hdata.
    apply elem_of_app in Hdata as [Hdata|Hdata].
    { exfalso. apply Hout. rewrite Hnames.
      by apply (list_elem_of_fmap_2 fst _ (name, data)). }
    apply (StronglySorted_app_1_elem_of _ _ _ _ _ Hsorted Hp Hdata).
Qed.

Lemma report_connections_rank_the_entities_witness :
  let stories :=
    [headline "China APT phishing"; headline "China sanctions";
     headline "Quiet day"] in
  let items := λ (_ : string) (entities : gmap string connection),
                 map_to_list entities in
  lists_items items
  ∧ ∃ report connections,
      Reports.build_intelligence_report "" items stories (3 # 10) = Some report
      ∧ identify_connections stories = Some connections
      ∧ ∀ entity_type,
          match Reports.connections report !! entity_type,
                connections !! entity_type with
          | Some listed, Some entities =>
              length listed ≤ 10
              ∧ NoDup listed.*1
              ∧ Forall (λ p,
                  ∃ data,
                    entities !! p.1 = Some data
                    ∧ Reports.mention_count p.2 = count data
                    ∧ 2 ≤ Reports.mention_count p.2
                    ∧ Reports.story_titles p.2
                      = (λ s : story, s !! "Title") <$> take 5 (mentions data))
                  listed
              ∧ StronglySorted
                  (λ p1 p2, Reports.mention_count p2.2 ≤ Reports.mention_count p1.2)
                  listed
              ∧ (∀ name data p,
                   entities !! name = Some data → name ∉ listed.*1 → p ∈ listed →
                   count data ≤ Reports.mention_count p.2)
          | None, None => True
          | _, _ => False
          end.
Proof.
  intros stories items.
  assert (lists_items items) as Hitems by (intros t m; reflexivity).
  split; [exact Hitems|].
  exact (report_connections_rank_the_entities "" items stories (3 # 10) Hitems).
Defined.

(** ** [src/correlators/story_correlator.py] *)

(** X13. [_find_relationships] returns a list exactly when the publication
    dates of the processed stories are all naive or all aware, and the list
    holds [(i, j, s)] exactly for the positions [i < j] of processed stories
    whose score [s] reaches the threshold. *)
Theorem relationships_are_the_similar_pairs
    (nlp : nlp_processor) (similarity_threshold : Q)
    (processed_stories : list processed) :
  (is_Some (_find_relationships nlp similarity_threshold processed_stories)
   ↔ comparable (dates_of processed_stories))
  ∧ ∀ relationships,
      _find_relationships nlp similarity_threshold processed_stories
      = Some relationships →
      ∀ i j s,
        (i, j, s) ∈ relationships
        ↔ i < j
          ∧ ∃ story1 story2,
              processed_stories !! i = Some story1
              ∧ processed_stories !! j = Some story2
              ∧ _calculate_story_similarity nlp story1 story2 = Some s
              ∧ (similarity_threshold <= s)%Q.
Proof.
  split; [apply find_relationships_is_Some|].
  intros relationships Hrel i j s. unfold _find_relationships in Hrel.
  rewrite (elem_of_relationships_from _ _ _ _ _ _ _ _ Hrel).
  rewrite !Nat.sub_0_r. split; intros (? & ?); (split; [lia|done]).
Qed.

(** X14. The weighted score [_calculate_story_similarity], when the call
    returns one, lies between 0 and 1 whenever the text similarity of the
    NLP processor does. *)
Theorem weighted_score_within_unit_interval
    (nlp : nlp_processor) (story1 story2 : processed) (s : Q) :
  (0 <= calculate_similarity nlp (NLP.text_for_similarity story1.2)
                                 (NLP.text_for_similarity story2.2) <= 1)%Q →
  _calculate_story_similarity nlp story1 story2 = Some s →
  (0 <= s <= 1)%Q.
Proof.
  intros Ht. unfold _calculate_story_similarity.
  destruct (_temporal_similarity _ _) as [temporal_sim|] eqn:Htemporal;
    simpl; [|done].
  intros [= <-].
  pose proof (entity_similarity_bounds (NLP.entities story1.2) (NLP.entities story2.2)).
  pose proof (keyword_similarity_bounds (list_to_set (NLP.keywords story1.2))
                (list_to_set (NLP.keywords story2.2))).
  pose proof (temporal_similarity_bounds _ _ _ Htemporal).
  lra.
Qed.

Lemma weighted_score_within_unit_interval_witness :
  let story1 := (report "Alpha beta" 0, NLP.process_story remove_dups (report "Alpha beta" 0)) in
  let story2 := (report "Alpha gamma" 7, NLP.process_story remove_dups (report "Alpha gamma" 7)) in
  let s := default 0%Q (_calculate_story_similarity basic_nlp story1 story2) in
  (0 <= calculate_similarity basic_nlp (NLP.text_for_similarity story1.2)
                                       (NLP.text_for_similarity story2.2) <= 1)%Q
  ∧ _calculate_story_similarity basic_nlp story1 story2 = Some s
  ∧ (0 <= s <= 1)%Q.
Proof.
  intros story1 story2 s.
  assert (0 <= calculate_similarity basic_nlp (NLP.text_for_similarity story1.2)
                                              (NLP.text_for_similarity story2.2) <= 1)%Q
    as Htext by (split; vm_compute; discriminate).
  assert (_calculate_story_similarity basic_nlp story1 story2 = Some s) as Hs
    by (vm_compute; reflexivity).
  split; [exact Htext|]. split; [exact Hs|].
  exact (weighted_score_within_unit_interval basic_nlp story1 story2 s Htext Hs).
Defined.

(** X15. [_temporal_similarity] depends only on the distance of the two dates
    and never grows with it: of two pairs of dates that can be subtracted,
    the pair further apart is no more similar. *)
Theorem temporal_similarity_decays
    (date1 date2 date3 date4 : datetime) (near far : Z) :
  sub_datetime date1 date2 = Some near →
  sub_datetime date3 date4 = Some far →
  (Z.abs near ≤ Z.abs far)%Z →
  ∃ s_near s_far,
    _temporal_similarity date1 date2 = Some s_near
    ∧ _temporal_similarity date3 date4 = Some s_far
    ∧ (s_far <= s_near)%Q.
Proof.
  intros Hnear Hfar Hle. unfold _temporal_similarity. rewrite Hnear, Hfar.
  simpl. eexists _, _. split; [done|]. split; [done|].
  repeat case_match; try done; lia.
Qed.

Lemma temporal_similarity_decays_witness :
  let date1 := naive 0 in
  let date2 := naive 1800000000 in
  let date3 := utc 90000000000 in
  let date4 := utc 0 in
  sub_datetime date1 date2 = Some (-1800000000)%Z
  ∧ sub_datetime date3 date4 = Some 90000000000%Z
  ∧ (Z.abs (-1800000000) ≤ Z.abs 90000000000)%Z
  ∧ ∃ s_near s_far,
      _temporal_similarity date1 date2 = Some s_near
      ∧ _temporal_similarity date3 date4 = Some s_far
      ∧ (s_far <= s_near)%Q.
Proof.
  intros date1 date2 date3 date4.
  assert (sub_datetime date1 date2 = Some (-1800000000)%Z) as Hnear by reflexivity.
  assert (sub_datetime date3 date4 = Some 90000000000%Z) as Hfar by reflexivity.
  assert (Z.abs (-1800000000) ≤ Z.abs 90000000000)%Z as Hle by lia.
  split; [exact Hnear|]. split; [exact Hfar|]. split; [exact Hle|].
  exact (temporal_similarity_decays date1 date2 date3 date4 _ _ Hnear Hfar Hle).
Defined.

(** X16. With relationships between existing positions and enough recursion
    depth, [_create_clusters] returns the connected components of the
    relationship graph: every story lies in a cluster that holds exactly
    the stories connected to it, and every cluster is such a component. *)
Theorem clusters_are_the_connected_components
    (depth : nat) (processed_stories : list processed)
    (relationships : list (nat * nat * Q)) :
  in_range (length processed_stories) relationships →
  length processed_stories ≤ depth →
  ∃ clusters,
    _create_clusters depth processed_stories relationships = Some clusters
    ∧ (∀ i, i < length processed_stories →
         ∃ c, c ∈ clusters
              ∧ component_of processed_stories (connected relationships) c i)
    ∧ Forall (λ c, ∃ i, component_of processed_stories (connected relationships) c i)
        clusters.
Proof.
  intros Hr Hd.
  destruct (create_clusters_partition depth processed_stories relationships Hr Hd)
    as (clusters & Hc & _).
  exists clusters. split; [done|]. by apply create_clusters_components in Hc.
Qed.

Lemma clusters_are_the_connected_components_witness :
  let processed_stories :=
    processed_of basic_nlp [report "Alpha beta" 0; report "Gamma" 5;
                            report "Alpha beta" 7] in
  let relationships :=
    default [] (_find_relationships basic_nlp (3 # 10) processed_stories) in
  _find_relationships basic_nlp (3 # 10) processed_stories = Some relationships
  ∧ in_range (length processed_stories) relationships
  ∧ length processed_stories ≤ 3
  ∧ ∃ clusters,
      _create_clusters 3 processed_stories relationships = Some clusters
      ∧ (∀ i, i < length processed_stories →
           ∃ c, c ∈ clusters
                ∧ component_of processed_stories (connected relationships) c i)
      ∧ Forall (λ c, ∃ i, component_of processed_stories (connected relationships) c i)
          clusters.
Proof.
  intros processed_stories relationships.
  split; [vm_compute; reflexivity|].
  assert (in_range (length processed_stories) relationships) as Hr
    by (apply (bool_decide_unpack _); vm_compute; exact I).
  assert (length processed_stories ≤ 3) as Hd by (vm_compute; lia).
  split; [exact Hr|]. split; [exact Hd|].
  exact (clusters_are_the_connected_components 3 processed_stories relationships Hr Hd).
Defined.

(** X17. The clusters [_create_clusters] returns carry the ids
    [0 .. len(clusters) - 1], each once, and are ordered largest first. *)
Theorem clusters_are_numbered_and_sorted
    (depth : nat) (processed_stories : list processed)
    (relationships : list (nat * nat * Q)) (clusters : list StoryCluster) :
  _create_clusters depth processed_stories relationships = Some clusters →
  cluster_id <$> clusters ≡ₚ seq 0 (length clusters)
  ∧ StronglySorted (λ c1 c2, length (stories c2) ≤ length (stories c1)) clusters.
Proof. apply create_clusters_numbered_sorted. Qed.

Lemma clusters_are_numbered_and_sorted_witness :
  let processed_stories :=
    processed_of basic_nlp [report "Alpha beta" 0; report "Gamma" 5;
                            report "Alpha beta" 7] in
  let relationships :=
    default [] (_find_relationships basic_nlp (3 # 10) processed_stories) in
  _find_relationships basic_nlp (3 # 10) processed_stories = Some relationships
  ∧ ∃ clusters,
    _create_clusters 3 processed_stories relationships = Some clusters
    ∧ cluster_id <$> clusters ≡ₚ seq 0 (length clusters)
    ∧ StronglySorted (λ c1 c2, length (stories c2) ≤ length (stories c1)) clusters.
Proof.
  intros processed_stories relationships.
  split; [vm_compute; reflexivity|].
  destruct (_create_clusters 3 processed_stories relationships) as [clusters|] eqn:Hc.
  - exists clusters. split; [reflexivity|].
    exact (clusters_are_numbered_and_sorted 3 processed_stories relationships
             clusters Hc).
  - exfalso. vm_compute in Hc. discriminate Hc.
Defined.

(** X18. In every cluster [_create_clusters] returns, [shared_keywords] and
    [shared_entities] are the unions of the keywords and of the entities
    of its stories: nothing is missing and nothing comes from elsewhere. *)
Theorem clusters_pool_keywords_and_entities
    (depth : nat) (processed_stories : list processed)
    (relationships : list (nat * nat * Q)) (clusters : list StoryCluster) :
  _create_clusters depth processed_stories relationships = Some clusters →
  Forall pools_its_stories clusters.
Proof.
  unfold _create_clusters. destruct relationships as [|r rels].
  - intros [= <-]. apply Forall_forall.
    intros c (i & p & -> & _)%elem_of_lookup_imap.
    apply add_story_pools, new_cluster_pools.
  - destruct (foldl _ _ _) as [[v' c']|] eqn:Hf; [|done]. simpl. intros [= <-].
    rewrite sort_desc_perm. by eapply component_loop_pools.
Qed.

Lemma clusters_pool_keywords_and_entities_witness :
  let processed_stories :=
    processed_of basic_nlp [report "Alpha beta" 0; report "Gamma" 5;
                            report "Alpha beta" 7] in
  let relationships :=
    default [] (_find_relationships basic_nlp (3 # 10) processed_stories) in
  _find_relationships basic_nlp (3 # 10) processed_stories = Some relationships
  ∧ ∃ clusters,
    _create_clusters 3 processed_stories relationships = Some clusters
    ∧ Forall pools_its_stories clusters.
Proof.
  intros processed_stories relationships.
  split; [vm_compute; reflexivity|].
  destruct (_create_clusters 3 processed_stories relationships) as [clusters|] eqn:Hc.
  - exists clusters. split; [reflexivity|].
    exact (clusters_pool_keywords_and_entities 3 processed_stories relationships
             clusters Hc).
  - exfalso. vm_compute in Hc. discriminate Hc.
Defined.

(** X19. [get_summary] of a cluster with stories, whose publication dates
    are all naive or all aware, describes that cluster: the story count, one
    entry per story, the earliest and the latest publication date, the
    sources without repetition, at most 10 of the shared keywords, and for
    every entity type at most 5 of its entities. *)
Theorem summary_describes_the_cluster
    (order : listed_set → gset string → list string) (c : StoryCluster) :
  lists_sets order →
  stories c ≠ [] →
  comparable (dates_of (stories c)) →
  ∃ s,
    get_summary order c = Some (Some s)
    ∧ story_count s = length (stories c)
    ∧ length (summary_stories s) = story_count s
    ∧ (let dates := dates_of (stories c) in
       (date_range s).1 ∈ dates ∧ (date_range s).2 ∈ dates
       ∧ Forall (λ d, (instant (date_range s).1 ≤ instant d
                       ≤ instant (date_range s).2)%Z) dates)
    ∧ (NoDup (sources s)
       ∧ ∀ x, x ∈ sources s ↔ ∃ ps, ps ∈ stories c ∧ source ps.1 = x)
    ∧ (length (top_keywords s) ≤ 10
       ∧ ∀ k, k ∈ top_keywords s → k ∈ shared_keywords c)
    ∧ ∀ entity_type,
        match top_entities s !! entity_type, shared_entities c !! entity_type with
        | Some l, Some entities =>
            length l ≤ 5 ∧ NoDup l ∧ ∀ e, e ∈ l → e ∈ entities
        | None, None => True
        | _, _ => False
        end.
Proof.
  intros Horder Hne Hdates. unfold get_summary.
  destruct (stories c) as [|p rest] eqn:Hs; [done|].
  change (dates_of (p :: rest)) with (published_date p.1 :: dates_of rest) in *.
  destruct (min_datetime_spec _ _ Hdates) as (lo & Hlo & Hmin' & Hmin).
  destruct (max_datetime_spec _ _ Hdates) as (hi & Hhi & Hmax' & Hmax).
  unfold dates_of in Hlo, Hhi. rewrite Hlo, Hhi. cbn [mbind option_bind].
  eexists. split; [done|]. cbn [story_count summary_stories date_range sources
                                  top_keywords top_entities].
  cbv zeta. split; [done|]. split; [by rewrite length_fmap|].
  split; [|split; [|split]].
  - cbn [fst snd]. split_and!; [done..|].
    rewrite Forall_forall in Hmin, Hmax |- *. intros d Hd.
    split; [by apply Hmin|by apply Hmax].
  - destruct (Horder Sources (list_to_set ((λ s, source s.1) <$> p :: rest)))
      as [Hnd Hin].
    split; [done|]. intros x. rewrite Hin, elem_of_list_to_set, list_elem_of_fmap.
    naive_solver.
  - split.
    + rewrite length_take. lia.
    + intros k Hk. apply (Horder Keywords).
      eapply elem_of_sublist; [exact Hk|apply sublist_take].
  - intros t. rewrite map_lookup_imap.
    destruct (shared_entities c !! t) as [entities|]; simpl; [|done].
    split_and!.
    + rewrite length_take. lia.
    + eapply sublist_NoDup; [apply (Horder (EntitiesOf t))|apply sublist_take].
    + intros e He. apply (Horder (EntitiesOf t)).
      eapply elem_of_sublist; [exact He|apply sublist_take].
Qed.

Lemma summary_describes_the_cluster_witness :
  let order : listed_set → gset string → list string := λ _ X, elements X in
  let first := report "Alpha beta" 5 in
  let second := report "Gamma delta" 2 in
  let c :=
    add_story
      (add_story (new_cluster 0) (first, NLP.process_story remove_dups first))
      (second, NLP.process_story remove_dups second) in
  lists_sets order
  ∧ stories c ≠ []
  ∧ comparable (dates_of (stories c))
  ∧ ∃ s,
      get_summary order c = Some (Some s)
      ∧ story_count s = length (stories c)
      ∧ length (summary_stories s) = story_count s
      ∧ (let dates := dates_of (stories c) in
         (date_range s).1 ∈ dates ∧ (date_range s).2 ∈ dates
         ∧ Forall (λ d, (instant (date_range s).1 ≤ instant d
                         ≤ instant (date_range s).2)%Z) dates)
      ∧ (NoDup (sources s)
         ∧ ∀ x, x ∈ sources s ↔ ∃ ps, ps ∈ stories c ∧ source ps.1 = x)
      ∧ (length (top_keywords s) ≤ 10
         ∧ ∀ k, k ∈ top_keywords s → k ∈ shared_keywords c)
      ∧ ∀ entity_type,
          match top_entities s !! entity_type, shared_entities c !! entity_type with
          | Some l, Some entities =>
              length l ≤ 5 ∧ NoDup l ∧ ∀ e, e ∈ l → e ∈ entities
          | None, None => True
          | _, _ => False
          end.
Proof.
  intros order first second c.
  assert (lists_sets order) as Horder.
  { intros which X. split; [apply NoDup_elements|]. intros x. apply elem_of_elements. }
  assert (stories c ≠ []) as Hne by (vm_compute; discriminate).
  assert (comparable (dates_of (stories c))) as Hdates.
  { exists false. apply (bool_decide_unpack _). vm_compute. exact I. }
  split; [exact Horder|]. split; [exact Hne|]. split; [exact Hdates|].
  exact (summary_describes_the_cluster order c Horder Hne Hdates).
Defined.

(** ** [src/aggregator.py] *)

(** X20. [collect_stories] returns one story per URL: of the stories all
    collectors returned (a failed collector counting as none), the last
    one with each URL. *)
Theorem collected_stories_are_unique_by_url
    (collected : list (option (list Story))) :
  let all_stories := collected ≫= default [] in
  NoDup (url <$> Aggregator.collect_stories collected)
  ∧ ∀ story,
      story ∈ Aggregator.collect_stories collected
      ↔ last (filter (λ s, url s = url story) all_stories) = Some story.
Proof.
  intros all_stories. unfold Aggregator.collect_stories. fold all_stories.
  destruct (unique_stories_spec all_stories) as [Hnd Hspec].
  set (unique_stories := foldl _ _ _) in *.
  assert (∀ k story, (k, story) ∈ unique_stories → url story = k) as Hkey.
  { intros k story Hin%Hspec.
    by apply last_Some_elem_of, list_elem_of_filter in Hin as [? _]. }
  split.
  - assert (url <$> unique_stories.*2 = unique_stories.*1) as ->; [|done].
    rewrite <-list_fmap_compose. apply list_fmap_ext.
    intros i [k story] Hi. simpl. apply Hkey. by eapply list_elem_of_lookup_2.
  - intros story. rewrite <-Hspec. rewrite list_elem_of_fmap. split.
    + intros ([k story'] & -> & Hin). simpl. by rewrite (Hkey _ _ Hin).
    + intros Hin. by exists (url story, story).
Qed.

(** X21. On the clusters of [find_related_stories] the aggregator's reports
    re-sort nothing and need no maximum: the top clusters of the HTML
    report are the first 5, and [largest_cluster_size] of the JSON output
    is the size of the first cluster (0 without clusters). *)
Theorem reports_keep_the_cluster_order
    (nlp : nlp_processor) (similarity_threshold : Q) (depth : nat)
    (input : list Story) (clusters : list StoryCluster) :
  find_related_stories nlp similarity_threshold depth input = Some clusters →
  Aggregator.top_clusters clusters = take 5 clusters
  ∧ Aggregator.largest_cluster_size clusters
    = from_option (λ c, length (stories c)) 0 (head clusters).
Proof.
  intros Hf.
  assert (StronglySorted (λ c1 c2, length (stories c2) ≤ length (stories c1)) clusters)
    as Hsorted.
  { unfold find_related_stories in Hf. destruct input; [by simplify_eq; constructor|].
    destruct (_find_relationships _ _ _) as [relationships|]; [|done].
    by apply create_clusters_sorted in Hf. }
  split.
  - unfold Aggregator.top_clusters. by rewrite sort_desc_sorted_id.
  - unfold Aggregator.largest_cluster_size.
    destruct clusters as [|c clusters]; [done|]. simpl.
    apply StronglySorted_inv in Hsorted as [_ Hall].
    apply Nat.max_l, max_list_bound. by apply Forall_fmap.
Qed.

Lemma reports_keep_the_cluster_order_witness :
  let input := [report "Alpha beta" 0; report "Gamma" 5; report "Alpha beta" 7] in
  ∃ clusters,
    find_related_stories basic_nlp (3 # 10) 3 input = Some clusters
    ∧ Aggregator.top_clusters clusters = take 5 clusters
    ∧ Aggregator.largest_cluster_size clusters
      = from_option (λ c, length (stories c)) 0 (head clusters).
Proof.
  intros input.
  destruct (find_related_stories basic_nlp (3 # 10) 3 input) as [clusters|] eqn:Hc.
  - exists clusters. split; [reflexivity|].
    exact (reports_keep_the_cluster_order basic_nlp (3 # 10) 3 input clusters Hc).
  - exfalso. vm_compute in Hc. discriminate Hc.
Defined.

(** ** [src/processors/nlp_processor.py] *)

(** X22. [extract_keywords] returns what [Counter(filtered_words)
    .most_common(top_n)] names: at most [top_n] distinct words that are no
    stop words, the more frequent first, none less frequent than a word
    left out. *)
Theorem keywords_are_the_most_frequent_words (text : string) (top_n : nat) :
  let filtered_words :=
    filter (λ w, w ∉ NLP.stopwords)
           (Re.findall false NLP.long_word (Re.lower text)) in
  ∃ top,
    NLP.extract_keywords text top_n = top.*1
    ∧ most_common filtered_words top_n top.
Proof. apply extract_keywords_most_common. Qed.

(** X23. The order-preserving deduplication of the entity lists keeps the
    first occurrence of every text, compared without case: the result is
    a sublist of the input, no two of its texts agree up to case, and
    every input text is represented. *)
Theorem deduplication_keeps_first_occurrences (xs : list string) :
  let unique := NLP.dedup_preserving xs in
  unique `sublist_of` xs
  ∧ NoDup (Re.lower <$> unique)
  ∧ (∀ x, x ∈ xs → Re.lower x ∈ Re.lower <$> unique)
  ∧ (∀ x, x ∈ unique →
       ∃ before after,
         xs = before ++ x :: after ∧ Re.lower x ∉ Re.lower <$> before).
Proof. intros unique. by destruct (dedup_spec xs) as (_ & ? & ? & ? & ?). Qed.

(** X24. [_extract_entities_spacy] groups the entities of the model by
    label: it has one entry for every requested label that occurs, holding
    the deduplicated texts of the entities with that label in document
    order, and no entry for other labels. *)
Theorem spacy_entities_are_grouped_by_label
    (nlp : string → list (string * string)) (entity_types : list string)
    (text : string) :
  let ents := nlp (NLP.truncate 1000000 text) in
  let entities := NLP._extract_entities_spacy nlp entity_types text in
  NoDup entities.*1
  ∧ ∀ label names,
      (label, names) ∈ entities
      ↔ label ∈ entity_types
        ∧ (∃ e, e ∈ ents ∧ e.2 = label)
        ∧ names = NLP.dedup_preserving (filter (λ e, e.2 = label) ents).*1.
Proof.
  intros ents entities. unfold entities, NLP._extract_entities_spacy.
  fold ents. 
  destruct (group_spec entity_types ents) as [Hnd Hspec]. split.
  - rewrite <-list_fmap_compose.
    erewrite list_fmap_ext; [exact Hnd|]. by intros i [label l] _.
  - intros label names. rewrite list_elem_of_fmap. split.
    + intros ([label' l] & [= -> ->] & (? & Hne & ->)%Hspec). simpl.
      split; [done|]. split; [|done].
      destruct (filter _ ents) as [|e l'] eqn:Hf; [done|].
      exists e. assert (e ∈ filter (λ e, e.2 = label') ents) as Hin
        by (rewrite Hf; by left).
      by apply list_elem_of_filter in Hin as [? ?].
    + intros (? & (e & He & Hl) & ->).
      exists (label, (filter (λ e, e.2 = label) ents).*1). split; [done|].
      apply Hspec. split; [done|]. split; [|done].
      intros Hnil%fmap_nil_inv.
      assert (e ∈ filter (λ e, e.2 = label) ents) as Hin
        by (by apply list_elem_of_filter).
      rewrite Hnil in Hin. by apply elem_of_nil in Hin.
Qed.

(** ** Properties that rest on what the regular expressions match *)

Import Re.

(** X25. Every entity [extract_entities] returns is in canonical form: upper
    case, without hyphens, with single spaces as its only whitespace and
    none at either end. *)
Theorem extracted_entities_are_canonical (text : string) :
  Forall (λ p : string * gset string, ∀ entity, entity ∈ p.2 → canonical entity)
    (Processors.extract_entities text).
Proof.
  unfold Processors.extract_entities. generalize Processors.entity_patterns.
  intros patterns. induction patterns as [|[t pattern] patterns IH]; simpl; [done|].
  destruct (findall true pattern text) as [|m matches] eqn:Hf; [done|].
  constructor; [|done]. intros entity Hin. cbn [snd] in Hin.
  apply elem_of_list_to_set, list_elem_of_fmap in Hin as (m' & -> & _).
  apply normalize_canonical.
Qed.

(** X26. The words the score compares are non-empty runs of word characters
    without upper-case letters, and none of them is a stop word. *)
Theorem compared_words_are_lowercase_tokens (text : string) (w : string) :
  w ∈ Processors.words text →
  w ≠ ""
  ∧ Forall (λ c, is_word c ∧ ¬ is_upper c) (chars w)
  ∧ w ∉ Processors.stop_words.
Proof.
  unfold Processors.words.
  intros [Hin Hstop]%elem_of_difference. apply elem_of_list_to_set in Hin.
  apply findall_sound in Hin as (before & rest & Hchars & Hm).
  apply word_shape in Hm as [Hne Hall].
  split_and!; [|..|done].
  - intros ->. by apply Hne.
  - apply Forall_forall. intros c Hc. split.
    + rewrite Forall_forall in Hall. by apply Hall.
    + assert (c ∈ chars (lower text)) as Hin.
      { rewrite Hchars. apply elem_of_app. right. apply elem_of_app. by left. }
      unfold lower in Hin. rewrite chars_text in Hin.
      apply list_elem_of_fmap in Hin as (c0 & -> & _).
      rewrite to_lower_not_upper. by intros [].
Qed.

Lemma compared_words_are_lowercase_tokens_witness :
  let text := "The China APT" in
  let w := "china" in
  w ∈ Processors.words text
  ∧ w ≠ ""
  ∧ Forall (λ c, is_word c ∧ ¬ is_upper c) (chars w)
  ∧ w ∉ Processors.stop_words.
Proof.
  intros text w.
  assert (w ∈ Processors.words text) as Hw
    by (apply (bool_decide_unpack _); vm_compute; exact I).
  split; [exact Hw|].
  exact (compared_words_are_lowercase_tokens text w Hw).
Defined.

(** X27. Every keyword of [extract_keywords] is a whole word of the lowered
    text: at least three lower-case letters, no stop word, and with no
    word character next to it in the text. *)
Theorem keywords_are_whole_lowercase_words (text : string) (top_n : nat) :
  Forall (λ keyword,
            3 ≤ length (chars keyword)
            ∧ Forall (λ c, is_lower c) (chars keyword)
            ∧ (keyword ∉ NLP.stopwords)
            ∧ whole_word_of (lower text) keyword)
    (NLP.extract_keywords text top_n).
Proof.
  destruct (extract_keywords_most_common text top_n)
    as (top & -> & _ & _ & Hin & _).
  apply Forall_fmap. eapply Forall_impl; [exact Hin|].
  intros [k c] [[Hs Hk]%list_elem_of_filter _]. simpl in *.
  apply findall_sound in Hk as (before & rest & Hchars & Hm).
  apply long_word_shape in Hm as (Hlen & Hall & Hprev & Hnext).
  split_and!; try done. by exists before, rest.
Qed.

(** X28. [_simple_similarity] is the Jaccard index of the two word sets: it
    lies between 0 and 1, is 1 exactly for equal non-empty word sets and 0
    exactly for disjoint ones. *)
Theorem simple_similarity_is_a_jaccard_index (text1 text2 : string) :
  let words1 : gset string :=
    list_to_set (findall false NLP.long_word (lower text1)) in
  let words2 : gset string :=
    list_to_set (findall false NLP.long_word (lower text2)) in
  (0 <= NLP._simple_similarity text1 text2 <= 1)%Q
  ∧ ((NLP._simple_similarity text1 text2 == 1)%Q ↔ words1 = words2 ∧ words1 ≠ ∅)
  ∧ ((NLP._simple_similarity text1 text2 == 0)%Q ↔ words1 ## words2).
Proof.
  intros words1 words2. unfold NLP._simple_similarity. fold words1 words2.
  cbv zeta. clearbody words1 words2.
  destruct (decide (words1 = ∅)) as [->|Hne1].
  { rewrite bool_decide_eq_true_2 by done. simpl. split; [done|]. split.
    - split; [done|]. by intros [_ ?].
    - split; [set_solver|done]. }
  destruct (decide (words2 = ∅)) as [->|Hne2].
  { rewrite bool_decide_eq_false_2, bool_decide_eq_true_2 by done. simpl.
    split; [done|]. split.
    - split; [done|]. by intros [<- ?].
    - split; [set_solver|done]. }
  rewrite !bool_decide_eq_false_2 by done. simpl.
  assert (0 < size (words1 ∪ words2)) as Hu.
  { assert (size (words1 ∪ words2) ≠ 0); [|lia].
    intros ?%size_empty_iff%leibniz_equiv. set_solver. }
  rewrite (proj2 (Nat.ltb_lt _ _) Hu).
  assert (size (words1 ∩ words2) ≤ size (words1 ∪ words2)) as Hle
    by (apply subseteq_size; set_solver).
  split; [|split].
  - split; [apply ratio_nonneg|by apply ratio_le_1].
  - split.
    + intros Heq. assert (1 <= ratio (size (words1 ∩ words2)) (size (words1 ∪ words2)))%Q
        as Hge by (rewrite Heq; done).
      apply ratio_ge_1 in Hge; [|done].
      assert (words1 ∩ words2 = words1 ∪ words2) as Hsets
        by (apply set_subseteq_size_eq; [set_solver|done]).
      split; [set_solver|done].
    + intros [<- _]. rewrite (idemp_L (∩)), (idemp_L (∪)).
      apply ratio_self. by rewrite (idemp_L (∪)) in Hu.
  - unfold ratio, Qeq. simpl. rewrite Z.mul_1_r. split.
    + intros Hz. assert (size (words1 ∩ words2) = 0) as Hs by lia.
      apply size_empty_iff in Hs. set_solver.
    + intros Hd. assert (words1 ∩ words2 = ∅) as -> by set_solver.
      by rewrite size_empty.
Qed.

(** X29. [_entity_similarity] looks at the entity texts only, and without
    case: upper-casing the texts of one story or renaming its entity types
    does not change the score. *)
Theorem entity_similarity_ignores_case_and_labels
    (relabel : string → string)
    (entities1 entities2 : list (string * list string)) :
  _entity_similarity (prod_map relabel (fmap (M:=list) upper) <$> entities1) entities2
  = _entity_similarity entities1 entities2.
Proof.
  unfold _entity_similarity.
  rewrite (flatten_entities_relabel relabel upper) by apply lower_upper.
  by destruct entities1.
Qed.
